(** * sync-git: reading commits out of git pack files

    A shallow embedding of the pack reader of sync-git (delta.ts, pack.ts,
    inflate.ts and reader.ts) together with the properties of its
    specification.

    Conventions of the embedding:
    - a [Buffer] is a list of bytes; views created by [subarray] are modelled
      by their contents;
    - JavaScript numbers are integers ([Z]) plus [NaN] where the code can
      produce it; the bitwise operators work on 32-bit signed integers as
      in JavaScript;
    - a function that can throw returns an [outcome]; loops that the source
      does not bound take a [fuel] argument and return [OutOfFuel] when it
      runs out, so that "the call returns" is "some fuel gives [Ok]" and
      "the call never returns" is "every fuel gives [OutOfFuel]". *)

From Stdlib Require Import ZArith List Lia Bool Sorted.
From Stdlib Require String.
From Stdlib.Strings Require Import Byte.
Import ListNotations.
Import String.StringSyntax.

Delimit Scope string_scope with string.
Local Open Scope Z_scope.

(** ** Errors and outcomes *)

Inductive error : Type :=
| UnsupportedIDX                (* new Error("unsupported IDX file") *)
| UnsupportedType (code : Z)    (* new Error(`Unsupported type ${code}`) *)
| InflaterClosed                (* new Error("Inflater has been closed") *)
| RangeError                    (* thrown by Node: bad size, offset or position *)
| SystemError.                  (* thrown by node:fs: the file cannot be opened *)

Inductive outcome (A : Type) : Type :=
| Ok (a : A)
| Throw (e : error)
| OutOfFuel.

Arguments Ok {A} a.
Arguments Throw {A} e.
Arguments OutOfFuel {A}.

Definition bind {A B : Type} (m : outcome A) (k : A -> outcome B) : outcome B :=
  match m with
  | Ok a => k a
  | Throw e => Throw e
  | OutOfFuel => OutOfFuel
  end.

Notation "x <- m ;; k" := (bind m (fun x => k))
  (at level 61, m at next level, right associativity).
Notation "' p <- m ;; k" := (bind m (fun x => let p := x in k))
  (at level 61, p pattern, m at next level, right associativity).

(** ** JavaScript numbers *)

Module JS.

(** The numbers the code computes with: integers, and [NaN], which arises
    from arithmetic on [undefined]. *)
Inductive num : Type :=
| Num (z : Z)
| NaN.

(** ToInt32. *)
Definition toInt32 (z : Z) : Z := (z + 2 ^ 31) mod 2 ^ 32 - 2 ^ 31.

(** [a & b], [a | b], [a << s] and [a >> s]. *)
Definition and (a b : Z) : Z := toInt32 (Z.land (toInt32 a) (toInt32 b)).
Definition or (a b : Z) : Z := toInt32 (Z.lor (toInt32 a) (toInt32 b)).
Definition shl (a s : Z) : Z := toInt32 (Z.shiftl (toInt32 a) (s mod 32)).
Definition shr (a s : Z) : Z := Z.shiftr (toInt32 a) (s mod 32).

(** A value read out of a buffer is a byte or [undefined] ([None]).
    The bitwise operators see [undefined] as 0, arithmetic as [NaN]. *)
Definition int_of (v : option Z) : Z :=
  match v with Some z => z | None => 0 end.
Definition number_of (v : option Z) : num :=
  match v with Some z => Num z | None => NaN end.

Definition add (a b : num) : num :=
  match a, b with
  | Num x, Num y => Num (x + y)
  | _, _ => NaN
  end.

(** [a < b]; false as soon as one side is [NaN]. *)
Definition lt (a b : num) : bool :=
  match a, b with
  | Num x, Num y => x <? y
  | _, _ => false
  end.

(** Truthiness of an integer. *)
Definition truthy (z : Z) : bool := negb (z =? 0).

End JS.

(** ** Buffers *)

Definition Buffer : Type := list byte.

Definition byteZ (b : byte) : Z := Z.of_N (Byte.to_N b).

Definition byte_of_Z (z : Z) : byte :=
  match Byte.of_N (Z.to_N (z mod 256)) with
  | Some b => b
  | None => x00
  end.

(** Buffer.from([...]) *)
Definition bytes (l : list Z) : Buffer := map byte_of_Z l.

Module Buf.

Definition byteLength (b : Buffer) : Z := Z.of_nat (length b).

(** [b[i]]: [undefined] outside the buffer and at [NaN]. *)
Definition get (b : Buffer) (i : JS.num) : option Z :=
  match i with
  | JS.Num z =>
      if z <? 0 then None
      else option_map byteZ (nth_error b (Z.to_nat z))
  | JS.NaN => None
  end.

(** Buffer.allocUnsafe(size).  Node leaves the contents unspecified; the
    model fills with zeroes. *)
Definition allocUnsafe (size : Z) : outcome Buffer :=
  if size <? 0 then Throw RangeError
  else Ok (repeat x00 (Z.to_nat size)).

(** Node's adjustOffset, which clamps the bounds of [subarray]. *)
Definition adjustOffset (offset : JS.num) (length : Z) : Z :=
  match offset with
  | JS.NaN => 0
  | JS.Num o =>
      if o <? 0 then Z.max (o + length) 0
      else if o <? length then o
      else length
  end.

(** [b.subarray(start, end)] *)
Definition subarray (b : Buffer) (start end_ : JS.num) : Buffer :=
  let srcLength := byteLength b in
  let s := adjustOffset start srcLength in
  let e := adjustOffset end_ srcLength in
  let newLength := if s <? e then e - s else 0 in
  firstn (Z.to_nat newLength) (skipn (Z.to_nat s) b).

(** [source.copy(target, targetStart)]: copies as much of [source] as fits
    and returns the number of bytes copied with the new target. *)
Definition copy (source target : Buffer) (targetStart : JS.num)
  : outcome (Z * Buffer) :=
  let ts := match targetStart with JS.Num z => z | JS.NaN => 0 end in
  if ts <? 0 then Throw RangeError
  else if byteLength target <=? ts then Ok (0, target)
  else
    let nb := Z.min (byteLength source) (byteLength target - ts) in
    Ok (nb, firstn (Z.to_nat ts) target
            ++ firstn (Z.to_nat nb) source
            ++ skipn (Z.to_nat (ts + nb)) target).

(** [a.equals(b)] *)
Definition equals (a b : Buffer) : bool :=
  if list_eq_dec Byte.byte_eq_dec a b then true else false.

(** [b.readUInt32BE(0)] and [b.readUInt8(0)]; both throw when the buffer
    is too short. *)
Definition readUInt32BE (b : Buffer) : outcome Z :=
  match b with
  | b0 :: b1 :: b2 :: b3 :: _ =>
      Ok (byteZ b0 * 2 ^ 24 + byteZ b1 * 2 ^ 16 + byteZ b2 * 2 ^ 8 + byteZ b3)
  | _ => Throw RangeError
  end.

Definition readUInt8 (b : Buffer) : outcome Z :=
  match b with
  | b0 :: _ => Ok (byteZ b0)
  | [] => Throw RangeError
  end.

End Buf.

(** ** delta.ts *)

Module Cursor.

Record t : Type := mk {
  position : JS.num;
  byteLength : Z;
  buffer : Buffer
}.

Definition new (buffer : Buffer) : t :=
  mk (JS.Num 0) (Buf.byteLength buffer) buffer.

Definition copyFrom (c : t) (source : Buffer) : outcome (bool * t) :=
  '(bytesCopied, target) <- Buf.copy source (buffer c) (position c) ;;
  let position := JS.add (position c) (JS.Num bytesCopied) in
  Ok (JS.lt position (JS.Num (byteLength c)),
      mk position (byteLength c) target).

Definition readByte (c : t) : option Z * t :=
  (Buf.get (buffer c) (position c),
   mk (JS.add (position c) (JS.Num 1)) (byteLength c) (buffer c)).

Definition slice (c : t) (offset : option Z) : Buffer * t :=
  let slice :=
    Buf.subarray (buffer c) (position c)
      (JS.add (position c) (JS.number_of offset)) in
  (slice,
   mk (JS.add (position c) (JS.number_of offset)) (byteLength c) (buffer c)).

End Cursor.

(** The loop of [readVariableLengthInt].  It stops at the first byte whose
    high bit is clear; a read past the end gives [undefined], whose high bit
    is clear, so [S (length buffer)] rounds are never used up
    ([readVariableLengthInt_loop_fuel]). *)
Fixpoint readVariableLengthInt_loop (n : nat) (cursor : Cursor.t)
    (result shift : Z) (byte : option Z) : Z * Cursor.t :=
  match n with
  | S n' =>
      if JS.truthy (JS.and (JS.int_of byte) 128) then
        let result := JS.or result (JS.shl (JS.and (JS.int_of byte) 127) shift) in
        let shift := shift + 7 in
        let '(byte, cursor) := Cursor.readByte cursor in
        readVariableLengthInt_loop n' cursor result shift byte
      else
        (JS.or result (JS.shl (JS.and (JS.int_of byte) 127) shift), cursor)
  | O => (JS.or result (JS.shl (JS.and (JS.int_of byte) 127) shift), cursor)
  end.

Definition readVariableLengthInt (cursor : Cursor.t) : Z * Cursor.t :=
  let result := 0 in
  let shift := 0 in
  let '(byte, cursor) := Cursor.readByte cursor in
  readVariableLengthInt_loop (S (length (Cursor.buffer cursor)))
    cursor result shift byte.

Fixpoint readCompactNumber_loop (maxBytes : nat) (cursor : Cursor.t)
    (flagMask decodedNumber shiftAmount : Z) : Z * Cursor.t :=
  match maxBytes with
  | O => (decodedNumber, cursor)
  | S maxBytes' =>
      let '(decodedNumber, cursor) :=
        if JS.truthy (JS.and flagMask 1) then
          let '(byte, cursor) := Cursor.readByte cursor in
          (JS.or decodedNumber (JS.shl (JS.int_of byte) shiftAmount), cursor)
        else (decodedNumber, cursor) in
      let flagMask := JS.shr flagMask 1 in
      let shiftAmount := shiftAmount + 8 in
      readCompactNumber_loop maxBytes' cursor flagMask decodedNumber shiftAmount
  end.

Definition readCompactNumber (cursor : Cursor.t) (flagMask : Z)
    (maxBytes : nat) : Z * Cursor.t :=
  readCompactNumber_loop maxBytes cursor flagMask 0 0.

Definition readDeltaOperation (cursor : Cursor.t) (source : Buffer)
  : Buffer * Cursor.t :=
  let '(opCode, cursor) := Cursor.readByte cursor in
  let COPY_FLAG := 128 in
  if JS.truthy (JS.and (JS.int_of opCode) COPY_FLAG) then
    let OFFSET_MASK := 15 in
    let SIZE_MASK := 112 in
    let '(offset, cursor) :=
      readCompactNumber cursor (JS.and (JS.int_of opCode) OFFSET_MASK) 4 in
    let '(size, cursor) :=
      readCompactNumber cursor
        (JS.shr (JS.and (JS.int_of opCode) SIZE_MASK) 4) 3 in
    let size := if size =? 0 then 65536 else size in
    (Buf.subarray source (JS.Num offset) (JS.Num (offset + size)), cursor)
  else Cursor.slice cursor opCode.

(** [while (targetCursor.copyFrom(readDeltaOperation(readCursor, source)));] *)
Fixpoint fillTarget (fuel : nat) (readCursor targetCursor : Cursor.t)
    (source : Buffer) : outcome Buffer :=
  match fuel with
  | O => OutOfFuel
  | S fuel' =>
      let '(operation, readCursor) := readDeltaOperation readCursor source in
      '(more, targetCursor) <- Cursor.copyFrom targetCursor operation ;;
      if (more : bool) then fillTarget fuel' readCursor targetCursor source
      else Ok (Cursor.buffer targetCursor)
  end.

(** The part of [applyOffsetDelta] after its shortcut: allocate the target,
    copy the first operation, then fill. *)
Definition copyIntoTarget (fuel : nat) (targetSize : Z) (operation : Buffer)
    (readCursor : Cursor.t) (source : Buffer) : outcome Buffer :=
  target <- Buf.allocUnsafe targetSize ;;
  let targetCursor := Cursor.new target in
  '(_, targetCursor) <- Cursor.copyFrom targetCursor operation ;;
  fillTarget fuel readCursor targetCursor source.

Definition applyOffsetDelta (fuel : nat) (delta source : Buffer)
  : outcome Buffer :=
  let readCursor := Cursor.new delta in
  let '(_, readCursor) := readVariableLengthInt readCursor in
  let '(targetSize, readCursor) := readVariableLengthInt readCursor in
  let '(operation, readCursor) := readDeltaOperation readCursor source in
  if Buf.byteLength operation =? targetSize then Ok operation
  else copyIntoTarget fuel targetSize operation readCursor source.

(** The declared target size of a delta with the cursor left after the two
    sizes, and the first operation with the cursor left after it: the values
    [applyOffsetDelta] binds on its lines 14 to 17. *)
Definition deltaHeader (delta : Buffer) : Z * Cursor.t :=
  let '(_, readCursor) := readVariableLengthInt (Cursor.new delta) in
  readVariableLengthInt readCursor.

Definition targetSizeOf (delta : Buffer) : Z := fst (deltaHeader delta).

Definition firstOperation (delta source : Buffer) : Buffer * Cursor.t :=
  readDeltaOperation (snd (deltaHeader delta)) source.

(** [applyOffsetDelta] without the shortcut of its line 19: the general path,
    which always allocates the target and copies every operation into it. *)
Definition applyOffsetDelta_general (fuel : nat) (delta source : Buffer)
  : outcome Buffer :=
  let readCursor := Cursor.new delta in
  let '(_, readCursor) := readVariableLengthInt readCursor in
  let '(targetSize, readCursor) := readVariableLengthInt readCursor in
  let '(operation, readCursor) := readDeltaOperation readCursor source in
  copyIntoTarget fuel targetSize operation readCursor source.

(** ** reader.ts *)

(** fs.readSync(fd, buffer, 0, length, position).  The descriptor is modelled
    by the contents of its file; [bufferLength] is the size of the buffer read
    into.  Node rejects a length that does not fit the buffer and a position
    below -1.  The position -1 stands in Node for the descriptor's own
    position, which this model does not keep: it refuses -1 like the other
    negative positions, so a result of the model at a negative position
    says nothing about the code at position -1. *)
Definition readSync (fd : Buffer) (bufferLength length position : Z)
  : outcome Buffer :=
  if (length <? 0) || (bufferLength <? length) then Throw RangeError
  else if position <? 0 then Throw RangeError
  else Ok (firstn (Z.to_nat length) (skipn (Z.to_nat position) fd)).

Module Reader.

(** [reads] is not a field of the source: it records the position of every
    [readSync] the reader has issued, latest first. *)
Record t : Type := mk {
  fd : Buffer;
  maxReadSize : Z;
  offset : Z;
  reads : list Z
}.

Definition new (fd : Buffer) (maxReadSize : Z) : t :=
  mk fd maxReadSize 0 [].

Definition read (r : t) (bytes : Z) : outcome (Buffer * t) :=
  data <- readSync (fd r) (maxReadSize r) bytes (offset r) ;;
  Ok (data,
      mk (fd r) (maxReadSize r) (offset r + Buf.byteLength data)
         (offset r :: reads r)).

Definition peek (r : t) (bytes : Z) : outcome (Buffer * t) :=
  buffer <- Buf.allocUnsafe bytes ;;
  data <- readSync (fd r) (Buf.byteLength buffer) bytes (offset r) ;;
  Ok (data, mk (fd r) (maxReadSize r) (offset r) (offset r :: reads r)).

Definition seek (r : t) (bytes : Z) : t :=
  mk (fd r) (maxReadSize r) (offset r + bytes) (reads r).

Definition readUInt32BE (r : t) (offset : Z) : outcome (Z * t) :=
  '(data, r) <- read (seek r offset) 4 ;;
  v <- Buf.readUInt32BE data ;;
  Ok (v, r).

Definition readUInt8 (r : t) (offset : Z) : outcome (Z * t) :=
  '(data, r) <- read (seek r offset) 1 ;;
  v <- Buf.readUInt8 data ;;
  Ok (v, r).

End Reader.

(** ** inflate.ts *)

(** The native zlib binding ([process.binding("zlib").Zlib]) is not part of
    the repository; it is an interface here.  [zlib_writeSync z input inOff
    inLen output outOff outLen] returns the new stream, the output buffer
    after the call and the two counters the binding leaves in the state
    array, [(availOutAfter, availInAfter)]. *)
Class Zlib : Type := {
  zstream : Type;
  zlib_new : zstream;
  zlib_writeSync :
    zstream -> Buffer -> Z -> Z -> Buffer -> Z -> Z ->
    zstream * Buffer * (Z * Z);
  zlib_reset : zstream -> zstream
}.

Definition Z_MIN_CHUNK : Z := 64.

Module Inflater.

(** [zlib] is [None] once the instance is closed.  [closed] is not a field
    of the source: it counts the calls of the binding's [close()]. *)
Record t `{Zlib} : Type := mk {
  zlib : option zstream;
  closed : nat
}.

Definition new `{Zlib} : t := mk _ (Some zlib_new) O.

(** The inner loop of [inflate]: feed the chunk until it is used up or the
    output is full. *)
Fixpoint inflate_chunk `{Zlib} (fuel : nat) (z : zstream)
    (chunk output : Buffer)
    (inOffset outOffset totalInflated availInBefore availOutBefore : Z)
  : outcome (zstream * Buffer * (Z * Z)) :=
  match fuel with
  | O => OutOfFuel
  | S fuel' =>
      if (0 <? availInBefore) && (0 <? availOutBefore) then
        let '(z, output, (availOutAfter, availInAfter)) :=
          zlib_writeSync z chunk inOffset availInBefore
            output outOffset availOutBefore in
        let inBytesRead := availInBefore - availInAfter in
        let outBytesWritten := availOutBefore - availOutAfter in
        inflate_chunk fuel' z chunk output
          (inOffset + inBytesRead) (outOffset + outBytesWritten)
          (totalInflated + outBytesWritten) availInAfter availOutAfter
      else Ok (z, output, (outOffset, totalInflated))
  end.

(** The outer loop of [inflate]: read chunks until [outSize] bytes have
    been produced. *)
Fixpoint inflate_loop `{Zlib} (fuel : nat) (z : zstream) (reader : Reader.t)
    (outSize chunkSize : Z) (output : Buffer) (totalInflated outOffset : Z)
  : outcome (zstream * Buffer * Reader.t) :=
  match fuel with
  | O => OutOfFuel
  | S fuel' =>
      if totalInflated <? outSize then
        '(chunk, reader) <- Reader.peek reader chunkSize ;;
        let reader := Reader.seek reader (Buf.byteLength chunk) in
        let inOffset := 0 in
        let availInBefore := Buf.byteLength chunk in
        let availOutBefore := outSize - outOffset in
        '(z, output, (outOffset, totalInflated)) <-
          inflate_chunk fuel' z chunk output inOffset outOffset
            totalInflated availInBefore availOutBefore ;;
        inflate_loop fuel' z reader outSize chunkSize output
          totalInflated outOffset
      else Ok (z, output, reader)
  end.

Definition inflate `{Zlib} (fuel : nat) (i : t) (reader : Reader.t)
    (outSize : Z) : outcome (Buffer * t * Reader.t) :=
  match zlib i with
  | None => Throw InflaterClosed
  | Some z =>
      let chunkSize := Z.max Z_MIN_CHUNK outSize in
      output <- Buf.allocUnsafe outSize ;;
      let totalInflated := 0 in
      let outOffset := 0 in
      '(z, output, reader) <-
        inflate_loop fuel z reader outSize chunkSize output
          totalInflated outOffset ;;
      let z := zlib_reset z in
      Ok (output, mk _ (Some z) (closed i), reader)
  end.

Definition close `{Zlib} (i : t) : t :=
  match zlib i with
  | Some _ => mk _ None (S (closed i))
  | None => i
  end.

End Inflater.

(** ** pack.ts *)

Definition idxV2 : Buffer := bytes [255; 116; 79; 99; 0; 0; 0; 2].

(** The [for] loop of [getOidFromIdx], entered with [n] rounds left. *)
Fixpoint getOidFromIdx_scan (n : nat) (i : Z) (oid : Buffer)
    (reader : Reader.t) (hashTableLength start : Z)
  : outcome (option Z * Reader.t) :=
  match n with
  | O => Ok (None, reader)
  | S n' =>
      '(hash, reader) <- Reader.read reader 20 ;;
      if negb (Buf.equals hash oid) then
        getOidFromIdx_scan n' (i + 1) oid reader hashTableLength start
      else
        let reader := Reader.seek reader (20 * (hashTableLength - i - start - 1)) in
        let reader := Reader.seek reader (4 * hashTableLength) in
        let reader := Reader.seek reader (4 * (i + start)) in
        '(value, reader) <- Reader.readUInt32BE reader 0 ;;
        Ok (Some value, reader)
  end.

(** Returns the offset, or [None] for [undefined], with the reader as the
    call leaves it.  An empty [oid] makes [first] undefined and the first
    read fail on its position. *)
Definition getOidFromIdx (oid : Buffer) (reader : Reader.t)
  : outcome (option Z * Reader.t) :=
  match Buf.get oid (JS.Num 0) with
  | None => Throw RangeError
  | Some first =>
      '(start, reader) <-
        (if first =? 0 then Ok (0, reader)
         else Reader.readUInt32BE reader (4 * (first - 1))) ;;
      '(end_, reader) <- Reader.readUInt32BE reader 0 ;;
      let length := end_ - start in
      let reader := Reader.seek reader (4 * (255 - first - 1)) in
      '(hashTableLength, reader) <- Reader.readUInt32BE reader 0 ;;
      let reader := Reader.seek reader (20 * start) in
      getOidFromIdx_scan (Z.to_nat length) 0 oid reader hashTableLength start
  end.

(** Returns the offset, or [None] for [null]. *)
Definition searchGitIndex (fd : Buffer) (oid : Buffer) : outcome (option Z) :=
  let reader := Reader.new fd 20 in
  '(signature, reader) <- Reader.read reader 8 ;;
  if negb (Buf.equals signature idxV2) then Throw UnsupportedIDX
  else
    '(value, _) <- getOidFromIdx oid reader ;;
    match value with
    | Some v => if JS.truthy v then Ok (Some v) else Ok None
    | None => Ok None
    end.

Inductive ObjectType : Type :=
| commit | tree | blob | tag | ofs_delta | ref_delta.

Definition types (key : Z) : option ObjectType :=
  if key =? 16 then Some commit
  else if key =? 32 then Some tree
  else if key =? 48 then Some blob
  else if key =? 64 then Some tag
  else if key =? 96 then Some ofs_delta
  else if key =? 112 then Some ref_delta
  else None.

(** The loop of [readByteLength]; it reads one byte a round and the read
    throws at the end of the file, so [S (length fd)] rounds are never used
    up ([readByteLength_returns]). *)
Fixpoint readByteLength_loop (n : nat) (reader : Reader.t)
    (byteLength shift : Z) : outcome (Z * Reader.t) :=
  match n with
  | O => OutOfFuel
  | S n' =>
      '(byte, reader) <- Reader.readUInt8 reader 0 ;;
      let byteLength := JS.or byteLength (JS.shl (JS.and byte 127) shift) in
      if negb (JS.truthy (JS.and byte 128)) then Ok (byteLength, reader)
      else readByteLength_loop n' reader byteLength (shift + 7)
  end.

Definition readByteLength (reader : Reader.t) (flags : Z)
  : outcome (Z * Reader.t) :=
  let byteLength := JS.and flags 15 in
  let multibyte := JS.and flags 128 in
  if JS.truthy multibyte then
    let shift := 4 in
    readByteLength_loop (S (length (Reader.fd reader))) reader byteLength shift
  else Ok (byteLength, reader).

(** The [do ... while] loop of [parseVariableLengthQuantity], bounded like
    the loop of [readByteLength] ([parseVariableLengthQuantity_returns]). *)
Fixpoint parseVariableLengthQuantity_loop (n : nat) (reader : Reader.t)
    (dataChunks : list Z) : outcome (list Z * Reader.t) :=
  match n with
  | O => OutOfFuel
  | S n' =>
      '(currentByte, reader) <- Reader.readUInt8 reader 0 ;;
      let dataChunks := dataChunks ++ [JS.and currentByte 127] in
      let continuationBit := JS.and currentByte 128 in
      if JS.truthy continuationBit then
        parseVariableLengthQuantity_loop n' reader dataChunks
      else Ok (dataChunks, reader)
  end.

Definition parseVariableLengthQuantity (reader : Reader.t)
  : outcome (Z * Reader.t) :=
  '(dataChunks, reader) <-
    parseVariableLengthQuantity_loop (S (length (Reader.fd reader))) reader [] ;;
  Ok (fold_left (fun a b => JS.or (JS.shl (a + 1) 7) b) dataChunks (-1),
      reader).

Record PackObject : Type := mkPackObject {
  type : ObjectType;
  data : Buffer
}.

(** [readFromPack]; [null] as an offset behaves as 0 in [seek] and in
    [offset - end]. *)
Fixpoint readFromPack `{Zlib} (fuel : nat) (packFd idxFd : Buffer)
    (offset : Z) (inflater : Inflater.t)
  : outcome (PackObject * Inflater.t) :=
  match fuel with
  | O => OutOfFuel
  | S fuel' =>
      let reader := Reader.seek (Reader.new packFd 1) offset in
      '(flags, reader) <- Reader.readUInt8 reader 0 ;;
      let sixFiveFourMask := 112 in
      match types (JS.and flags sixFiveFourMask) with
      | None => Throw (UnsupportedType (JS.and flags sixFiveFourMask))
      | Some type =>
          '(byteLength, reader) <- readByteLength reader flags ;;
          '(type, base, reader, inflater) <-
            match type with
            | ofs_delta =>
                '(end_, reader) <- parseVariableLengthQuantity reader ;;
                let baseOffset := offset - end_ in
                '(mkPackObject type base, inflater) <-
                  readFromPack fuel' packFd idxFd baseOffset inflater ;;
                Ok (type, Some base, reader, inflater)
            | _ => Ok (type, None, reader, inflater)
            end ;;
          '(type, base, reader, inflater) <-
            match type with
            | ref_delta =>
                '(baseOid, reader) <- Reader.peek reader 20 ;;
                let reader := Reader.seek reader 20 in
                baseOffset <- searchGitIndex idxFd baseOid ;;
                let baseOffset :=
                  match baseOffset with Some o => o | None => 0 end in
                '(mkPackObject type base, inflater) <-
                  readFromPack fuel' packFd idxFd baseOffset inflater ;;
                Ok (type, Some base, reader, inflater)
            | _ => Ok (type, base, reader, inflater)
            end ;;
          '(object, inflater, _) <-
            Inflater.inflate fuel' inflater reader byteLength ;;
          match base with
          | Some base =>
              data <- applyOffsetDelta fuel' object base ;;
              Ok (mkPackObject type data, inflater)
          | None => Ok (mkPackObject type object, inflater)
          end
      end
  end.

Definition isDelta (t : ObjectType) : bool :=
  match t with
  | ofs_delta | ref_delta => true
  | _ => false
  end.

(** The type in the header of the object at [offset]: what [readFromPack]
    computes on its lines 285 to 290. *)
Definition headerType (packFd : Buffer) (offset : Z) : outcome ObjectType :=
  let reader := Reader.seek (Reader.new packFd 1) offset in
  '(flags, _) <- Reader.readUInt8 reader 0 ;;
  let sixFiveFourMask := 112 in
  match types (JS.and flags sixFiveFourMask) with
  | None => Throw (UnsupportedType (JS.and flags sixFiveFourMask))
  | Some type => Ok type
  end.

(** The header of the object at [offset], with no object read or inflated:
    the type in its first byte, the size of its data, the reader as it
    stands on the compressed data, and for a delta the offset of its base.
    The base of an offset delta is [offset] minus the distance that follows
    the size; the base of a ref delta is what the index gives for the 20
    bytes that follow the size, [null] counting as 0. *)
Definition objectHeader (packFd idxFd : Buffer) (offset : Z)
  : outcome (ObjectType * Z * Reader.t * option Z) :=
  let reader := Reader.seek (Reader.new packFd 1) offset in
  '(flags, reader) <- Reader.readUInt8 reader 0 ;;
  let sixFiveFourMask := 112 in
  match types (JS.and flags sixFiveFourMask) with
  | None => Throw (UnsupportedType (JS.and flags sixFiveFourMask))
  | Some type =>
      '(byteLength, reader) <- readByteLength reader flags ;;
      match type with
      | ofs_delta =>
          '(end_, reader) <- parseVariableLengthQuantity reader ;;
          Ok (type, byteLength, reader, Some (offset - end_))
      | ref_delta =>
          '(baseOid, reader) <- Reader.peek reader 20 ;;
          let reader := Reader.seek reader 20 in
          baseOffset <- searchGitIndex idxFd baseOid ;;
          Ok (type, byteLength, reader,
              Some (match baseOffset with Some o => o | None => 0 end))
      | _ => Ok (type, byteLength, reader, None)
      end
  end.

(** The chain of bases: [resolvesTo packFd idxFd offset root] when going
    from the object at [offset] to the base of each delta ends at the
    object at [root], which is not a delta. *)
Inductive resolvesTo (packFd idxFd : Buffer) : Z -> Z -> Prop :=
| resolves_here (offset : Z) (t : ObjectType) (size : Z) (reader : Reader.t) :
    objectHeader packFd idxFd offset = Ok (t, size, reader, None) ->
    resolvesTo packFd idxFd offset offset
| resolves_base (offset : Z) (t : ObjectType) (size : Z) (reader : Reader.t)
    (baseOffset root : Z) :
    objectHeader packFd idxFd offset = Ok (t, size, reader, Some baseOffset) ->
    resolvesTo packFd idxFd baseOffset root ->
    resolvesTo packFd idxFd offset root.

(** The file system as [getCommitFromPackFile] sees it: the entries of
    [objects/pack] ([None] when the directory cannot be opened) and the
    contents of the files in it by name ([None] when a file cannot be
    opened). *)
Record Dirent : Type := mkDirent {
  name : String.string;
  isDirectory : bool
}.

Record FileSystem : Type := mkFileSystem {
  packDir : option (list Dirent);
  files : String.string -> option Buffer
}.

Definition opendirSync (fs : FileSystem) : outcome (list Dirent) :=
  match packDir fs with
  | Some dir => Ok dir
  | None => Throw SystemError
  end.

Definition openSync (fs : FileSystem) (path : String.string) : outcome Buffer :=
  match files fs path with
  | Some fd => Ok fd
  | None => Throw SystemError
  end.

(** [s.endsWith(suffix)] *)
Definition endsWith (s suffix : String.string) : bool :=
  let n := String.length s in
  let m := String.length suffix in
  (m <=? n)%nat && String.eqb (String.substring (n - m) m s) suffix.

(** [idxPath.replace(/\.idx$/u, ".pack")] *)
Definition replaceIdxSuffix (idxPath : String.string) : String.string :=
  if endsWith idxPath ".idx"%string then
    String.append
      (String.substring 0 (String.length idxPath - 4) idxPath) ".pack"%string
  else idxPath.

(** The [while ((dirent = dir.readSync()) !== null)] loop over the entries
    that are left.  A [Throw] leaves the loop: the [finally] blocks only
    close descriptors and the inflater. *)
Fixpoint getCommitFromPackFile_scan `{Zlib} (fuel : nat) (fs : FileSystem)
    (oidBuffer : Buffer) (dir : list Dirent) : outcome (option Buffer) :=
  match dir with
  | [] => Ok None
  | dirent :: dir =>
      if isDirectory dirent || negb (endsWith (name dirent) ".idx"%string) then
        getCommitFromPackFile_scan fuel fs oidBuffer dir
      else
        let idxPath := name dirent in
        indexFd <- openSync fs idxPath ;;
        offset <- searchGitIndex indexFd oidBuffer ;;
        match offset with
        | None => getCommitFromPackFile_scan fuel fs oidBuffer dir
        | Some offset =>
            let packFile := replaceIdxSuffix idxPath in
            packFd <- openSync fs packFile ;;
            let inflater := Inflater.new in
            '(object, _) <- readFromPack fuel packFd indexFd offset inflater ;;
            Ok (Some object.(data))
        end
  end.

(** [getCommitFromPackFile], from the decoded [oidBuffer] on.  The outer
    [try ... catch { return null; }] turns every exception into [null]. *)
Definition getCommitFromPackFile `{Zlib} (fuel : nat) (fs : FileSystem)
    (oidBuffer : Buffer) : outcome (option Buffer) :=
  match
    (dir <- opendirSync fs ;;
     getCommitFromPackFile_scan fuel fs oidBuffer dir)
  with
  | Throw _ => Ok None
  | r => r
  end.

(** ** The descriptors of [getCommitFromPackFile]

    The same function with the calls that open and close recorded, in
    order: [opendirSync] and [dir.closeSync()], [openSync] and [closeSync]
    with the path of the file, [new Inflater()] and [inflater.close()].
    The [finally] blocks run when their [try] block returns, continues or
    throws; they do not run when it never ends. *)

Inductive event : Type :=
| OpenDir
| CloseDir
| OpenFile (path : String.string)
| CloseFile (path : String.string)
| NewInflater
| CloseInflater.

Fixpoint getCommitFromPackFile_scan_trace `{Zlib} (fuel : nat)
    (fs : FileSystem) (oidBuffer : Buffer) (dir : list Dirent)
  : outcome (option Buffer) * list event :=
  match dir with
  | [] => (Ok None, [])
  | dirent :: dir =>
      if isDirectory dirent || negb (endsWith (name dirent) ".idx"%string) then
        getCommitFromPackFile_scan_trace fuel fs oidBuffer dir
      else
        let idxPath := name dirent in
        match openSync fs idxPath with
        | Ok indexFd =>
            match searchGitIndex indexFd oidBuffer with
            | Ok None =>
                let '(r, tr) :=
                  getCommitFromPackFile_scan_trace fuel fs oidBuffer dir in
                (r, OpenFile idxPath :: CloseFile idxPath :: tr)
            | Ok (Some offset) =>
                let packFile := replaceIdxSuffix idxPath in
                match openSync fs packFile with
                | Ok packFd =>
                    let inflater := Inflater.new in
                    match
                      readFromPack fuel packFd indexFd offset inflater
                    with
                    | Ok (object, _) =>
                        (Ok (Some object.(data)),
                         [OpenFile idxPath; OpenFile packFile; NewInflater;
                          CloseInflater; CloseFile packFile;
                          CloseFile idxPath])
                    | Throw e =>
                        (Throw e,
                         [OpenFile idxPath; OpenFile packFile; NewInflater;
                          CloseInflater; CloseFile packFile;
                          CloseFile idxPath])
                    | OutOfFuel =>
                        (OutOfFuel,
                         [OpenFile idxPath; OpenFile packFile; NewInflater])
                    end
                | Throw e => (Throw e, [OpenFile idxPath; CloseFile idxPath])
                | OutOfFuel => (OutOfFuel, [OpenFile idxPath])
                end
            | Throw e => (Throw e, [OpenFile idxPath; CloseFile idxPath])
            | OutOfFuel => (OutOfFuel, [OpenFile idxPath])
            end
        | Throw e => (Throw e, [])
        | OutOfFuel => (OutOfFuel, [])
        end
  end.

Definition getCommitFromPackFile_trace `{Zlib} (fuel : nat) (fs : FileSystem)
    (oidBuffer : Buffer) : outcome (option Buffer) * list event :=
  match opendirSync fs with
  | Ok dir =>
      let '(r, tr) := getCommitFromPackFile_scan_trace fuel fs oidBuffer dir in
      match r with
      | Ok v => (Ok v, OpenDir :: tr ++ [CloseDir])
      | Throw _ => (Ok None, OpenDir :: tr ++ [CloseDir])
      | OutOfFuel => (OutOfFuel, OpenDir :: tr)
      end
  | Throw _ => (Ok None, [])
  | OutOfFuel => (OutOfFuel, [])
  end.

(** Every close in [tr] closes what was opened last and is still open,
    [opened] being open at the start, and nothing is left open at the
    end. *)
Fixpoint closesInOrder (tr : list event) (opened : list event) : bool :=
  match tr with
  | [] => match opened with [] => true | _ :: _ => false end
  | CloseDir :: tr =>
      match opened with
      | OpenDir :: opened => closesInOrder tr opened
      | _ => false
      end
  | CloseFile p :: tr =>
      match opened with
      | OpenFile q :: opened => String.eqb p q && closesInOrder tr opened
      | _ => false
      end
  | CloseInflater :: tr =>
      match opened with
      | NewInflater :: opened => closesInOrder tr opened
      | _ => false
      end
  | e :: tr => closesInOrder tr (e :: opened)
  end.

(** The scan passes over an entry: it is a directory or not an index, or
    its index opens and does not hold the hash. *)
Definition passedOver (fs : FileSystem) (oidBuffer : Buffer) (dirent : Dirent)
  : Prop :=
  isDirectory dirent || negb (endsWith (name dirent) ".idx"%string) = true
  \/ exists indexFd,
       files fs (name dirent) = Some indexFd
       /\ searchGitIndex indexFd oidBuffer = Ok None.

(** ** The index file format

    The layout of a version-2 index, used to state what the lookup does on a
    well-formed file. *)

(** A 32-bit unsigned integer in network byte order. *)
Definition be32 (v : Z) : Buffer :=
  bytes [v / 2 ^ 24; v / 2 ^ 16; v / 2 ^ 8; v].

Definition firstByte (h : Buffer) : Z :=
  match h with
  | b :: _ => byteZ b
  | [] => 0
  end.

(** Entry [k] of the fan-out table: the number of hashes whose first byte is
    at most [k]. *)
Definition fanout (hashes : list Buffer) (k : Z) : Z :=
  Z.of_nat (length (filter (fun h => firstByte h <=? k) hashes)).

Definition fanoutTable (hashes : list Buffer) : Buffer :=
  flat_map (fun k => be32 (fanout hashes (Z.of_nat k))) (seq 0 256).

(** The index file of the given hashes, CRCs and offsets, followed by
    whatever comes after the offset table. *)
Definition mkIdx (hashes : list Buffer) (crcs : Buffer) (offsets : list Z)
    (trailer : Buffer) : Buffer :=
  idxV2 ++ fanoutTable hashes ++ concat hashes ++ crcs
    ++ flat_map be32 offsets ++ trailer.

(** Lexicographic order on hashes. *)
Fixpoint hash_ltb (a b : Buffer) : bool :=
  match a, b with
  | x :: a', y :: b' =>
      (byteZ x <? byteZ y) || ((byteZ x =? byteZ y) && hash_ltb a' b')
  | [], _ :: _ => true
  | _, [] => false
  end.

Definition hash_lt (a b : Buffer) : Prop := hash_ltb a b = true.

Fixpoint sorted_hashes (hashes : list Buffer) : bool :=
  match hashes with
  | a :: ((b :: _) as rest) => hash_ltb a b && sorted_hashes rest
  | _ => true
  end.

(** A well-formed index: [n] 20-byte hashes in strictly ascending order with
    as many CRCs and 32-bit offsets. *)
Definition wellFormedIdx (hashes : list Buffer) (crcs : Buffer)
    (offsets : list Z) : Prop :=
  Forall (fun h => length h = 20%nat) hashes
  /\ sorted_hashes hashes = true
  /\ length offsets = length hashes
  /\ length crcs = (4 * length hashes)%nat
  /\ Forall (fun o => 0 <= o < 2 ^ 32) offsets
  /\ Z.of_nat (length hashes) < 2 ^ 32.

(** An entry of the pack directory that cannot hold the hash: a directory,
    a file whose name does not end in [.idx], or a well-formed index
    without the hash. *)
Definition lacksHash (fs : FileSystem) (oid : Buffer) (d : Dirent) : Prop :=
  isDirectory d || negb (endsWith (name d) ".idx"%string) = true
  \/ exists hashes crcs offsets trailer,
       files fs (name d) = Some (mkIdx hashes crcs offsets trailer)
       /\ wellFormedIdx hashes crcs offsets
       /\ ~ In oid hashes.

(** An entry that gives no offset for the hash: one that cannot hold it,
    or a well-formed index that holds it with the offset 0. *)
Definition givesNoOffset (fs : FileSystem) (oid : Buffer) (d : Dirent)
  : Prop :=
  lacksHash fs oid d
  \/ exists hashes crcs offsets trailer i,
       files fs (name d) = Some (mkIdx hashes crcs offsets trailer)
       /\ wellFormedIdx hashes crcs offsets
       /\ (i < length hashes)%nat
       /\ nth i hashes [] = oid
       /\ nth i offsets 0 = 0.

(** ** A stand-in for the zlib binding

    Used to run the reader on concrete packs: a "stored" stream, whose
    inflated bytes are its own bytes. *)
Definition storedZlib : Zlib := {|
  zstream := unit;
  zlib_new := tt;
  zlib_writeSync := fun z input inOff inLen output outOff outLen =>
    let n := Z.min inLen outLen in
    (z,
     firstn (Z.to_nat outOff) output
       ++ firstn (Z.to_nat n) (skipn (Z.to_nat inOff) input)
       ++ skipn (Z.to_nat (outOff + n)) output,
     (outLen - n, inLen - n));
  zlib_reset := fun z => z
|}.

(** ** The operations of a delta

    What the instructions of a delta produce, independently of the target
    size: used to state when a delta overflows or underflows its target. *)

(** The read cursor has run past the end of its buffer. *)
Definition exhausted (c : Cursor.t) : bool :=
  match Cursor.position c with
  | JS.Num p => Z.of_nat (length (Cursor.buffer c)) <=? p
  | JS.NaN => true
  end.

(** The outputs of the operations decoded from the cursor on, until the
    buffer is exhausted; [n] bounds their number. *)
Fixpoint decodeOperations (n : nat) (cursor : Cursor.t) (source : Buffer)
  : list Buffer :=
  match n with
  | O => []
  | S n' =>
      if exhausted cursor then []
      else
        let '(operation, cursor) := readDeltaOperation cursor source in
        operation :: decodeOperations n' cursor source
  end.

(** Every operation takes at least its opcode byte, so [length delta]
    bounds the number of operations of a delta. *)
Definition deltaOperations (delta source : Buffer) : list Buffer :=
  decodeOperations (length delta) (snd (deltaHeader delta)) source.

Definition deltaOutput (delta source : Buffer) : Buffer :=
  concat (deltaOperations delta source).

(** The position of a cursor is [NaN] or not negative. *)
Definition inBounds (c : Cursor.t) : Prop :=
  match Cursor.position c with
  | JS.Num p => 0 <= p
  | JS.NaN => True
  end.

(** The number of bytes left to read. *)
Definition remaining (c : Cursor.t) : nat :=
  match Cursor.position c with
  | JS.Num p => Z.to_nat (Z.of_nat (length (Cursor.buffer c)) - p)
  | JS.NaN => O
  end.

(** [c'] is a later state of the read cursor [c]. *)
Definition advances (c c' : Cursor.t) : Prop :=
  Cursor.buffer c' = Cursor.buffer c
  /\ inBounds c'
  /\ (remaining c' <= remaining c)%nat.

(** The target cursor that holds [written] and has [free] left to fill. *)
Definition targetAt (written free : Buffer) : Cursor.t :=
  Cursor.mk (JS.Num (Buf.byteLength written))
    (Buf.byteLength (written ++ free)) (written ++ free).

(** ** The packed length, as the specification words it

    The low seven bits of the first byte seed the value and every further
    byte is combined as [((acc + 1) << 7) | chunk]; the second definition
    reads the same recurrence over the integers. *)

Definition low7 (b : byte) : Z := byteZ b mod 128.

Definition packedLength_spec (bs : list byte) : Z :=
  match bs with
  | [] => -1
  | b0 :: rest =>
      fold_left (fun acc b => JS.or (JS.shl (acc + 1) 7) (low7 b)) rest
        (low7 b0)
  end.

Definition packedLength_exact (bs : list byte) : Z :=
  match bs with
  | [] => -1
  | b0 :: rest =>
      fold_left (fun acc b => (acc + 1) * 128 + low7 b) rest (low7 b0)
  end.

(** ** Numbers on the wire, as integers

    The value of a little-endian base-128 number, seven bits per byte. *)

Definition leb128 (bs : list byte) : Z :=
  fold_right (fun b acc => low7 b + 128 * acc) 0 bs.

(** The argument of a copy operation: bit [i] of [mask] says whether byte
    [i] of an [n]-byte little-endian number is present in [bs]; the bytes
    that are absent are zero. *)
Fixpoint presentBytes (n : nat) (mask : Z) : nat :=
  match n with
  | O => O
  | S n' => ((if Z.odd mask then 1 else 0) + presentBytes n' (mask / 2))%nat
  end.

Fixpoint compactValue (n : nat) (mask : Z) (bs : list byte) : Z :=
  match n with
  | O => 0
  | S n' =>
      if Z.odd mask then
        match bs with
        | b :: bs' => byteZ b + 256 * compactValue n' (mask / 2) bs'
        | [] => 0
        end
      else 256 * compactValue n' (mask / 2) bs
  end.

(** The bytes of an object header after its first byte [flags]: none when
    the high bit of [flags] is clear, else bytes with the high bit set
    closed by one with the high bit clear. *)
Definition sizeExtension (flags : byte) (ext : Buffer) : Prop :=
  if 128 <=? byteZ flags then
    exists body last,
      ext = body ++ [last]
      /\ Forall (fun b => 128 <= byteZ b) body /\ byteZ last < 128
  else ext = [].

(** ** Sample data *)

Local Open Scope string_scope.

Definition hello : Buffer :=
  bytes [104; 101; 108; 108; 111; 32; 119; 111; 114; 108; 100].

(** A hash whose first byte is [b]. *)
Definition sampleHash (b : Z) : Buffer := bytes (b :: repeat 7 19).

(** An index of three objects at the offsets 12, 16 and 22 of its pack. *)
Definition sampleIdx : Buffer :=
  mkIdx [sampleHash 0; sampleHash 3; sampleHash 200] (repeat x00 12)
    [12; 16; 22] [].

(** The same index with 0 as the offset of its second object. *)
Definition zeroOffsetIdx : Buffer :=
  mkIdx [sampleHash 0; sampleHash 3; sampleHash 200] (repeat x00 12)
    [12; 0; 22] [].

(** A pack for [storedZlib]: the commit "abc" at offset 12, an offset delta
    against it at 16, an offset delta against that one at 22 and a ref delta
    against the object of hash [sampleHash 3] at 31. *)
Definition samplePack : Buffer :=
  bytes [80; 65; 67; 75; 0; 0; 0; 2; 0; 0; 0; 4]
    ++ bytes [19; 97; 98; 99]
    ++ bytes [100; 4; 3; 3; 144; 3]
    ++ bytes [103; 6; 3; 3; 145; 1; 2; 1; 33]
    ++ bytes [116] ++ sampleHash 3 ++ bytes [3; 3; 144; 3].

(** A pack directory with the sample pack, and the same directory with,
    listed first, an index that has a wrong signature ([corrupt]) or cannot
    be opened ([unreadable]). *)
Definition packFiles (corrupt : option Buffer) (path : String.string)
  : option Buffer :=
  if String.eqb path "bad.idx" then corrupt
  else if String.eqb path "good.idx" then Some sampleIdx
  else if String.eqb path "good.pack" then Some samplePack
  else None.

Definition goodOnly : FileSystem :=
  mkFileSystem (Some [mkDirent "good.idx" false]) (packFiles None).

Definition corruptFirst : FileSystem :=
  mkFileSystem (Some [mkDirent "bad.idx" false; mkDirent "good.idx" false])
    (packFiles (Some (bytes [1; 2; 3; 4; 5; 6; 7; 8; 9]))).

Definition unreadableFirst : FileSystem :=
  mkFileSystem (Some [mkDirent "bad.idx" false; mkDirent "good.idx" false])
    (packFiles None).

(** A well-formed index of no object, and a directory with more entries:
    a subdirectory, a file that is not an index, the empty index, the index
    that gives 0 for [sampleHash 3], the sample index and the index with a
    wrong signature, the last two in either order. *)
Definition emptyIdx : Buffer := mkIdx [] [] [] [].

Definition mixedFiles (path : String.string) : option Buffer :=
  if String.eqb path "empty.idx" then Some emptyIdx
  else if String.eqb path "zero.idx" then Some zeroOffsetIdx
  else if String.eqb path "notes.txt" then Some hello
  else packFiles (Some (bytes [1; 2; 3; 4; 5; 6; 7; 8; 9])) path.

Definition badBeforeGood : FileSystem :=
  mkFileSystem
    (Some [mkDirent "sub" true; mkDirent "notes.txt" false;
           mkDirent "empty.idx" false; mkDirent "bad.idx" false;
           mkDirent "good.idx" false])
    mixedFiles.

Definition goodBeforeBad : FileSystem :=
  mkFileSystem
    (Some [mkDirent "sub" true; mkDirent "notes.txt" false;
           mkDirent "empty.idx" false; mkDirent "zero.idx" false;
           mkDirent "good.idx" false; mkDirent "bad.idx" false])
    mixedFiles.

(** Deltas against [hello].  [copy5] declares a target of five bytes and
    copies the first five bytes of the source; [overflowing] declares three
    bytes and copies five; [underflowing] declares seven bytes, copies five
    and inserts one. *)
Definition copy5 : Buffer := bytes [11; 5; 144; 5].
Definition overflowing : Buffer := bytes [11; 3; 144; 5].
Definition underflowing : Buffer := bytes [11; 7; 144; 5; 1; 33].

Local Close Scope string_scope.

(** * Properties *)

(** ** Bytes and outcomes *)

(** Turns the boolean comparisons among the hypotheses into propositions. *)
Ltac zbool :=
  repeat match goal with
  | H : (_ <? _) = true |- _ => apply Z.ltb_lt in H
  | H : (_ <? _) = false |- _ => apply Z.ltb_ge in H
  | H : (_ <=? _) = true |- _ => apply Z.leb_le in H
  | H : (_ <=? _) = false |- _ => apply Z.leb_gt in H
  | H : (_ =? _) = true |- _ => apply Z.eqb_eq in H
  | H : (_ =? _) = false |- _ => apply Z.eqb_neq in H
  end.

Lemma byteZ_range (b : byte) : 0 <= byteZ b < 256.
Proof.
  unfold byteZ. pose proof (Byte.to_N_bounded b). lia.
Qed.

Lemma byteZ_byte_of_Z (z : Z) : byteZ (byte_of_Z z) = z mod 256.
Proof.
  unfold byteZ, byte_of_Z.
  pose proof (Z.mod_pos_bound z 256 ltac:(lia)) as Hm.
  destruct (Byte.of_N (Z.to_N (z mod 256))) as [b|] eqn:E.
  - apply Byte.to_of_N in E. rewrite E. lia.
  - apply Byte.of_N_None_iff in E. lia.
Qed.

Lemma byteLength_nonneg (b : Buffer) : 0 <= Buf.byteLength b.
Proof. unfold Buf.byteLength. lia. Qed.

Lemma equals_true (a b : Buffer) : Buf.equals a b = true <-> a = b.
Proof.
  unfold Buf.equals. destruct (list_eq_dec Byte.byte_eq_dec a b); split;
    congruence.
Qed.

Lemma equals_false (a b : Buffer) : Buf.equals a b = false <-> a <> b.
Proof.
  unfold Buf.equals. destruct (list_eq_dec Byte.byte_eq_dec a b); split;
    congruence.
Qed.

(** ** The delta decoder *)

Arguments Cursor.readByte : simpl never.
Arguments Cursor.slice : simpl never.
Arguments Cursor.copyFrom : simpl never.
Arguments readDeltaOperation : simpl never.
Arguments readVariableLengthInt : simpl never.
Arguments byteZ : simpl never.
Arguments JS.and : simpl never.
Arguments JS.or : simpl never.
Arguments JS.shl : simpl never.
Arguments JS.shr : simpl never.

Lemma applyOffsetDelta_unfold (fuel : nat) (delta source : Buffer) :
  applyOffsetDelta fuel delta source =
  if Buf.byteLength (fst (firstOperation delta source)) =? targetSizeOf delta
  then Ok (fst (firstOperation delta source))
  else copyIntoTarget fuel (targetSizeOf delta)
         (fst (firstOperation delta source))
         (snd (firstOperation delta source)) source.
Proof.
  unfold applyOffsetDelta, firstOperation, targetSizeOf, deltaHeader.
  destruct (readVariableLengthInt (Cursor.new delta)) as [b c1].
  destruct (readVariableLengthInt c1) as [T c2]. simpl.
  destruct (readDeltaOperation c2 source) as [op c3]. reflexivity.
Qed.

Lemma applyOffsetDelta_general_unfold (fuel : nat) (delta source : Buffer) :
  applyOffsetDelta_general fuel delta source =
  copyIntoTarget fuel (targetSizeOf delta)
    (fst (firstOperation delta source))
    (snd (firstOperation delta source)) source.
Proof.
  unfold applyOffsetDelta_general, firstOperation, targetSizeOf, deltaHeader.
  destruct (readVariableLengthInt (Cursor.new delta)) as [b c1].
  destruct (readVariableLengthInt c1) as [T c2]. simpl.
  destruct (readDeltaOperation c2 source) as [op c3]. reflexivity.
Qed.

(** Copying into a buffer whose first [length w] bytes are [w] and whose
    free part is [free]. *)
Lemma copy_at_end (src w free : Buffer) :
  Buf.copy src (w ++ free) (JS.Num (Buf.byteLength w)) =
  Ok (Z.min (Buf.byteLength src) (Buf.byteLength free),
      w ++ firstn (length free) src ++ skipn (length src) free).
Proof.
  unfold Buf.copy, Buf.byteLength.
  destruct (Z.of_nat (length w) <? 0) eqn:E0; zbool; [lia|].
  rewrite length_app.
  destruct (Z.of_nat (length w + length free) <=? Z.of_nat (length w)) eqn:E1;
    zbool.
  - assert (length free = 0%nat) as Hf by lia.
    destruct free; [|discriminate]. simpl.
    rewrite Z.min_r by lia. rewrite skipn_nil. reflexivity.
  - f_equal. f_equal; [lia|].
    rewrite Nat2Z.id.
    rewrite firstn_app, Nat.sub_diag, firstn_O, app_nil_r.
    rewrite firstn_all2 by lia.
    f_equal.
    replace (Z.of_nat (length w + length free) - Z.of_nat (length w))
      with (Z.of_nat (length free)) by lia.
    destruct (Nat.le_ge_cases (length src) (length free)) as [Hle|Hge].
    + rewrite Z.min_l by lia.
      rewrite Nat2Z.id, firstn_all, (firstn_all2 src) by lia.
      f_equal.
      replace (Z.to_nat (Z.of_nat (length w) + Z.of_nat (length src)))
        with (length w + length src)%nat by lia.
      rewrite skipn_app.
      rewrite skipn_all2 by lia.
      simpl. f_equal. lia.
    + rewrite Z.min_r by lia.
      rewrite Nat2Z.id. f_equal.
      replace (Z.to_nat (Z.of_nat (length w) + Z.of_nat (length free)))
        with (length w + length free)%nat by lia.
      rewrite skipn_app.
      rewrite !skipn_all2 by lia. reflexivity.
Qed.

Lemma exhausted_remaining (c : Cursor.t) :
  exhausted c = true <-> remaining c = O.
Proof.
  unfold exhausted, remaining. destruct (Cursor.position c) as [p|].
  - rewrite Z.leb_le. lia.
  - tauto.
Qed.

Lemma advances_refl (c : Cursor.t) : inBounds c -> advances c c.
Proof. unfold advances. auto. Qed.

Lemma advances_trans (a b c : Cursor.t) :
  advances a b -> advances b c -> advances a c.
Proof.
  unfold advances. intros (H1 & H2 & H3) (H4 & H5 & H6).
  repeat split; [congruence|assumption|lia].
Qed.

Lemma readByte_advances (c : Cursor.t) :
  inBounds c -> advances c (snd (Cursor.readByte c)).
Proof.
  unfold advances, inBounds, remaining, Cursor.readByte. cbn.
  destruct (Cursor.position c) as [p|]; cbn; intros; repeat split; lia.
Qed.

(** Before the end of the buffer a read returns a byte and consumes it. *)
Lemma readByte_consumes (c : Cursor.t) :
  inBounds c -> exhausted c = false ->
  (exists b, fst (Cursor.readByte c) = Some (byteZ b))
  /\ (remaining (snd (Cursor.readByte c)) < remaining c)%nat.
Proof.
  unfold inBounds, exhausted, remaining, Cursor.readByte. cbn.
  destruct (Cursor.position c) as [p|]; cbn; [|discriminate].
  intros Hp He. zbool. split; [|lia].
  destruct (p <? 0) eqn:E; zbool; [lia|].
  destruct (nth_error (Cursor.buffer c) (Z.to_nat p)) as [b|] eqn:En.
  - exists b. reflexivity.
  - apply nth_error_None in En. lia.
Qed.

(** Past the end a read returns [undefined]. *)
Lemma readByte_exhausted (c : Cursor.t) :
  exhausted c = true ->
  fst (Cursor.readByte c) = None
  /\ exhausted (snd (Cursor.readByte c)) = true.
Proof.
  unfold exhausted, Cursor.readByte. cbn.
  destruct (Cursor.position c) as [p|]; cbn; [|auto].
  intros He. zbool. split.
  - destruct (p <? 0); [reflexivity|].
    replace (nth_error (Cursor.buffer c) (Z.to_nat p)) with (@None byte);
      [reflexivity|].
    symmetry. apply nth_error_None. lia.
  - apply Z.leb_le. lia.
Qed.

Lemma readVariableLengthInt_loop_advances (n : nat) :
  forall c result shift byte,
    inBounds c ->
    advances c (snd (readVariableLengthInt_loop n c result shift byte)).
Proof.
  induction n as [|n IH]; intros c result shift byte Hc;
    cbn [readVariableLengthInt_loop snd].
  - apply advances_refl, Hc.
  - destruct (JS.truthy (JS.and (JS.int_of byte) 128)).
    + pose proof (readByte_advances c Hc) as Ha.
      destruct (Cursor.readByte c) as [b c'] eqn:E. simpl in Ha.
      eapply advances_trans; [exact Ha|]. apply IH. apply Ha.
    + apply advances_refl, Hc.
Qed.

Lemma readVariableLengthInt_advances (c : Cursor.t) :
  inBounds c -> advances c (snd (readVariableLengthInt c)).
Proof.
  intros Hc. unfold readVariableLengthInt.
  pose proof (readByte_advances c Hc) as Ha.
  destruct (Cursor.readByte c) as [b c'] eqn:E. simpl in Ha.
  eapply advances_trans; [exact Ha|].
  apply readVariableLengthInt_loop_advances. apply Ha.
Qed.

Lemma readByte_remaining (c : Cursor.t) :
  remaining (snd (Cursor.readByte c)) = (remaining c - 1)%nat.
Proof.
  unfold remaining, Cursor.readByte. cbn.
  destruct (Cursor.position c) as [p|]; cbn; lia.
Qed.

Lemma readVariableLengthInt_loop_undefined (n : nat) (c : Cursor.t)
    (result shift : Z) :
  readVariableLengthInt_loop n c result shift None =
  (JS.or result (JS.shl (JS.and 0 127) shift), c).
Proof. destruct n; reflexivity. Qed.

(** The rounds given to the loop of [readVariableLengthInt] are enough: with
    more rounds than bytes left, the result does not depend on their
    number. *)
Lemma readVariableLengthInt_loop_fuel (n : nat) :
  forall m c result shift byte,
    (remaining c < n)%nat -> (remaining c < m)%nat ->
    readVariableLengthInt_loop n c result shift byte =
    readVariableLengthInt_loop m c result shift byte.
Proof.
  induction n as [|n IH]; intros m c result shift byte Hn Hm; [lia|].
  destruct m as [|m]; [lia|]. cbn [readVariableLengthInt_loop].
  destruct (JS.truthy (JS.and (JS.int_of byte) 128)); [|reflexivity].
  pose proof (readByte_remaining c) as Hr.
  destruct (exhausted c) eqn:He.
  - destruct (readByte_exhausted c He) as [Hb _].
    destruct (Cursor.readByte c) as [b c']. cbn [fst] in Hb. subst b.
    rewrite !readVariableLengthInt_loop_undefined. reflexivity.
  - assert (remaining c <> O) as Hpos.
    { intros H0. apply exhausted_remaining in H0. congruence. }
    destruct (Cursor.readByte c) as [b c']. cbn [snd] in Hr.
    apply IH; lia.
Qed.

Lemma readVariableLengthInt_fuel (c : Cursor.t) (n : nat) :
  inBounds c -> (length (Cursor.buffer c) < n)%nat ->
  readVariableLengthInt c =
  readVariableLengthInt_loop n (snd (Cursor.readByte c)) 0 0
    (fst (Cursor.readByte c)).
Proof.
  intros Hc Hn. unfold readVariableLengthInt.
  destruct (readByte_advances c Hc) as (Hbuf & _ & Hrem).
  destruct (Cursor.readByte c) as [b c']. cbn [fst snd] in *.
  assert (remaining c <= length (Cursor.buffer c))%nat as Hle.
  { unfold remaining, inBounds in *.
    destruct (Cursor.position c); lia. }
  apply readVariableLengthInt_loop_fuel; rewrite ?Hbuf; lia.
Qed.

Lemma readCompactNumber_loop_advances (maxBytes : nat) :
  forall c flagMask decodedNumber shiftAmount,
    inBounds c ->
    advances c
      (snd (readCompactNumber_loop maxBytes c flagMask decodedNumber
              shiftAmount)).
Proof.
  induction maxBytes as [|m IH]; intros c flagMask d sh Hc;
    cbn [readCompactNumber_loop snd].
  - apply advances_refl, Hc.
  - destruct (JS.truthy (JS.and flagMask 1)).
    + pose proof (readByte_advances c Hc) as Ha.
      destruct (Cursor.readByte c) as [b c'] eqn:E. simpl in Ha.
      eapply advances_trans; [exact Ha|]. apply IH. apply Ha.
    + apply IH, Hc.
Qed.

Lemma slice_advances (c : Cursor.t) (b : byte) :
  inBounds c -> advances c (snd (Cursor.slice c (Some (byteZ b)))).
Proof.
  pose proof (byteZ_range b).
  unfold advances, inBounds, remaining, Cursor.slice. cbn.
  destruct (Cursor.position c) as [p|]; cbn; intros; repeat split; lia.
Qed.

(** An operation read before the end of the delta consumes at least its
    opcode. *)
Lemma readDeltaOperation_consumes (c : Cursor.t) (source : Buffer) :
  inBounds c -> exhausted c = false ->
  advances c (snd (readDeltaOperation c source))
  /\ (remaining (snd (readDeltaOperation c source)) < remaining c)%nat.
Proof.
  intros Hc He. unfold readDeltaOperation.
  pose proof (readByte_advances c Hc) as Ha.
  destruct (readByte_consumes c Hc He) as [[b Hb] Hlt].
  destruct (Cursor.readByte c) as [opCode c1] eqn:E.
  cbn [fst snd] in *. subst opCode. cbn [JS.int_of].
  destruct (JS.truthy (JS.and (byteZ b) 128)).
  - unfold readCompactNumber.
    pose proof (readCompactNumber_loop_advances 4 c1
                  (JS.and (byteZ b) 15) 0 0 (proj1 (proj2 Ha))) as H1.
    destruct (readCompactNumber_loop 4 c1 (JS.and (byteZ b) 15) 0 0)
      as [offset c2] eqn:E2.
    pose proof (readCompactNumber_loop_advances 3 c2
                  (JS.shr (JS.and (byteZ b) 112) 4) 0 0 (proj1 (proj2 H1)))
      as H2.
    destruct (readCompactNumber_loop 3 c2 (JS.shr (JS.and (byteZ b) 112) 4) 0 0)
      as [size c3] eqn:E3.
    cbn [fst snd] in *.
    split.
    + eapply advances_trans; [exact Ha|].
      eapply advances_trans; [exact H1|exact H2].
    + destruct H1 as (_ & _ & H1), H2 as (_ & _ & H2). lia.
  - pose proof (slice_advances c1 b (proj1 (proj2 Ha))) as H1.
    split.
    + eapply advances_trans; [exact Ha|exact H1].
    + destruct H1 as (_ & _ & H1). lia.
Qed.

(** Once the delta is exhausted every further operation is empty and
    leaves the cursor exhausted. *)
Lemma readDeltaOperation_exhausted (c : Cursor.t) (source : Buffer) :
  exhausted c = true ->
  fst (readDeltaOperation c source) = []
  /\ exhausted (snd (readDeltaOperation c source)) = true.
Proof.
  intros He. unfold readDeltaOperation.
  destruct (readByte_exhausted c He) as [Hb He1].
  destruct (Cursor.readByte c) as [opCode c1] eqn:E.
  cbn [fst snd] in *. subst opCode.
  change (JS.truthy (JS.and (JS.int_of None) 128)) with false. cbv iota.
  unfold Cursor.slice, Buf.subarray. cbn [fst snd JS.number_of].
  split.
  - replace (JS.add (Cursor.position c1) JS.NaN) with JS.NaN
      by (destruct (Cursor.position c1); reflexivity).
    simpl.
    match goal with
    | |- firstn (Z.to_nat ?n) _ = _ => replace n with 0; [reflexivity|]
    end.
    destruct (Buf.adjustOffset (Cursor.position c1)
                (Buf.byteLength (Cursor.buffer c1)) <? 0) eqn:E0;
      [|reflexivity].
    zbool. exfalso. revert E0. unfold Buf.adjustOffset, Buf.byteLength.
    destruct (Cursor.position c1) as [p|]; [|lia].
    destruct (p <? 0) eqn:Ep; zbool; [lia|].
    destruct (p <? Z.of_nat (length (Cursor.buffer c1))) eqn:E1; zbool; lia.
  - unfold exhausted. simpl.
    destruct (Cursor.position c1); reflexivity.
Qed.

(** From here on the decoding functions are used through the lemmas
    above. *)
Opaque readDeltaOperation readVariableLengthInt.

Lemma copyFrom_targetAt (w free op : Buffer) :
  Cursor.copyFrom (targetAt w free) op =
  Ok ((length op <? length free)%nat,
      targetAt (w ++ firstn (length free) op) (skipn (length op) free)).
Proof.
  unfold Cursor.copyFrom, targetAt.
  cbn [Cursor.buffer Cursor.position Cursor.byteLength].
  rewrite copy_at_end. cbn [bind]. f_equal. f_equal.
  - unfold JS.add, JS.lt, Buf.byteLength. rewrite length_app.
    destruct (Nat.ltb_spec (length op) (length free));
      destruct (Z.ltb_spec
                  (Z.of_nat (length w)
                   + Z.min (Z.of_nat (length op)) (Z.of_nat (length free)))
                  (Z.of_nat (length w + length free))); lia.
  - f_equal.
    + unfold JS.add, Buf.byteLength. f_equal.
      rewrite length_app, length_firstn. lia.
    + unfold Buf.byteLength.
      rewrite !length_app, length_firstn, length_skipn. lia.
    + rewrite app_assoc. reflexivity.
Qed.

Lemma new_targetAt (target : Buffer) : Cursor.new target = targetAt [] target.
Proof. reflexivity. Qed.

(** With the delta exhausted and the target not full, the fill loop makes no
    progress: the operation is empty, the read cursor stays exhausted and
    the target cursor stays where it is. *)
Lemma fillTarget_exhausted (fuel : nat) :
  forall rc w free source,
    exhausted rc = true -> free <> [] ->
    fillTarget fuel rc (targetAt w free) source = OutOfFuel.
Proof.
  induction fuel as [|fuel IH]; intros rc w free source He Hf; [reflexivity|].
  cbn [fillTarget].
  destruct (readDeltaOperation_exhausted rc source He) as [Hop He'].
  destruct (readDeltaOperation rc source) as [op rc'].
  cbn [fst snd] in *. subst op.
  rewrite copyFrom_targetAt. cbn [bind].
  destruct free as [|b free]; [congruence|].
  cbn [length Nat.ltb Nat.leb skipn].
  rewrite firstn_nil, app_nil_r. apply IH; [assumption|discriminate].
Qed.

Lemma fillTarget_full (fuel : nat) (rc : Cursor.t) (w source : Buffer) :
  fillTarget (S fuel) rc (targetAt w []) source = Ok w.
Proof.
  cbn [fillTarget].
  destruct (readDeltaOperation rc source) as [op rc'].
  rewrite copyFrom_targetAt. cbn [bind length].
  replace (length op <? 0)%nat with false
    by (symmetry; apply Nat.ltb_ge; lia).
  unfold targetAt. cbn [Cursor.buffer firstn].
  rewrite skipn_nil, !app_nil_r. reflexivity.
Qed.

Lemma fillTarget_underflow (n : nat) :
  forall rc w free source,
    inBounds rc -> (remaining rc <= n)%nat ->
    (length (concat (decodeOperations n rc source)) < length free)%nat ->
    forall fuel, fillTarget fuel rc (targetAt w free) source = OutOfFuel.
Proof.
  induction n as [|n IH]; intros rc w free source Hb Hr Hlen fuel.
  - apply fillTarget_exhausted.
    + apply exhausted_remaining. lia.
    + intros ->. cbn in Hlen. lia.
  - cbn [decodeOperations] in Hlen.
    destruct (exhausted rc) eqn:He.
    + apply fillTarget_exhausted; [assumption|].
      intros ->. cbn in Hlen. lia.
    + destruct (readDeltaOperation_consumes rc source Hb He) as [Ha Hlt].
      destruct (readDeltaOperation rc source) as [op rc'] eqn:E.
      cbn [fst snd concat] in *. rewrite length_app in Hlen.
      destruct fuel as [|fuel]; [reflexivity|].
      cbn [fillTarget]. rewrite E, copyFrom_targetAt. cbn [bind].
      replace (length op <? length free)%nat with true
        by (symmetry; apply Nat.ltb_lt; lia).
      apply IH.
      * apply Ha.
      * lia.
      * rewrite length_skipn. lia.
Qed.

Lemma fillTarget_enough (n : nat) :
  forall rc w free source,
    inBounds rc -> (remaining rc <= n)%nat -> free <> [] ->
    (length free <= length (concat (decodeOperations n rc source)))%nat ->
    forall fuel, (n <= fuel)%nat ->
      fillTarget fuel rc (targetAt w free) source =
      Ok (w ++ firstn (length free) (concat (decodeOperations n rc source))).
Proof.
  induction n as [|n IH]; intros rc w free source Hb Hr Hf Hlen fuel Hfuel.
  - cbn in Hlen. destruct free; [congruence|cbn in Hlen; lia].
  - cbn [decodeOperations] in *.
    destruct (exhausted rc) eqn:He.
    + cbn in Hlen. destruct free; [congruence|cbn in Hlen; lia].
    + destruct (readDeltaOperation_consumes rc source Hb He) as [Ha Hlt].
      destruct (readDeltaOperation rc source) as [op rc'] eqn:E.
      cbn [fst snd concat] in *. rewrite length_app in Hlen.
      destruct fuel as [|fuel]; [lia|].
      cbn [fillTarget]. rewrite E, copyFrom_targetAt. cbn [bind].
      rewrite firstn_app.
      destruct (Nat.ltb_spec (length op) (length free)) as [Hlt'|Hge].
      * rewrite IH.
        -- rewrite length_skipn, (firstn_all2 op) by lia.
           rewrite <- app_assoc. reflexivity.
        -- apply Ha.
        -- lia.
        -- intros Hs. apply (f_equal (@length byte)) in Hs.
           rewrite length_skipn in Hs. cbn in Hs. lia.
        -- rewrite length_skipn. lia.
        -- lia.
      * unfold targetAt. cbn [Cursor.buffer].
        rewrite skipn_all2 by lia.
        replace (length free - length op)%nat with O by lia.
        rewrite firstn_O, !app_nil_r. reflexivity.
Qed.

Lemma allocUnsafe_ok (size : Z) :
  0 <= size -> Buf.allocUnsafe size = Ok (repeat x00 (Z.to_nat size)).
Proof.
  intros H. unfold Buf.allocUnsafe.
  destruct (size <? 0) eqn:E; zbool; [lia|reflexivity].
Qed.

Lemma allocUnsafe_negative (size : Z) :
  size < 0 -> Buf.allocUnsafe size = Throw RangeError.
Proof.
  intros H. unfold Buf.allocUnsafe.
  destruct (size <? 0) eqn:E; zbool; [reflexivity|lia].
Qed.

Lemma copyIntoTarget_negative (fuel : nat) (T : Z) (op : Buffer)
    (rc : Cursor.t) (source : Buffer) :
  T < 0 -> copyIntoTarget fuel T op rc source = Throw RangeError.
Proof.
  intros H. unfold copyIntoTarget. rewrite allocUnsafe_negative by assumption.
  reflexivity.
Qed.

Lemma copyIntoTarget_unfold (fuel : nat) (T : Z) (op : Buffer)
    (rc : Cursor.t) (source : Buffer) :
  0 <= T ->
  copyIntoTarget fuel T op rc source =
  fillTarget fuel rc
    (targetAt (firstn (Z.to_nat T) op)
       (skipn (length op) (repeat x00 (Z.to_nat T)))) source.
Proof.
  intros H. unfold copyIntoTarget. rewrite allocUnsafe_ok by assumption.
  cbn [bind]. rewrite new_targetAt, copyFrom_targetAt. cbn [bind].
  rewrite repeat_length. reflexivity.
Qed.

Lemma copyIntoTarget_enough (n fuel : nat) (T : Z) (op : Buffer)
    (rc : Cursor.t) (source : Buffer) :
  0 <= T -> inBounds rc -> (remaining rc <= n)%nat -> (n < fuel)%nat ->
  T <= Z.of_nat (length (op ++ concat (decodeOperations n rc source))) ->
  copyIntoTarget fuel T op rc source =
  Ok (firstn (Z.to_nat T) (op ++ concat (decodeOperations n rc source))).
Proof.
  intros HT Hb Hr Hfuel Hlen.
  rewrite copyIntoTarget_unfold by assumption.
  rewrite length_app in Hlen. rewrite firstn_app.
  destruct (Nat.le_gt_cases (Z.to_nat T) (length op)) as [Hle|Hgt].
  - rewrite skipn_all2 by (rewrite repeat_length; lia).
    destruct fuel as [|fuel]; [lia|].
    rewrite fillTarget_full.
    replace (Z.to_nat T - length op)%nat with O by lia.
    rewrite firstn_O, app_nil_r. reflexivity.
  - rewrite fillTarget_enough with (n := n).
    + rewrite length_skipn, repeat_length. reflexivity.
    + assumption.
    + assumption.
    + intros Hs. apply (f_equal (@length byte)) in Hs.
      rewrite length_skipn, repeat_length in Hs. cbn in Hs. lia.
    + rewrite length_skipn, repeat_length. lia.
    + lia.
Qed.

Lemma copyIntoTarget_underflow (n : nat) (T : Z) (op : Buffer)
    (rc : Cursor.t) (source : Buffer) :
  inBounds rc -> (remaining rc <= n)%nat ->
  Z.of_nat (length (op ++ concat (decodeOperations n rc source))) < T ->
  forall fuel, copyIntoTarget fuel T op rc source = OutOfFuel.
Proof.
  intros Hb Hr Hlen fuel. rewrite length_app in Hlen.
  rewrite copyIntoTarget_unfold by lia.
  apply fillTarget_underflow with (n := n); try assumption.
  rewrite length_skipn, repeat_length. lia.
Qed.

Lemma deltaHeader_advances (delta : Buffer) :
  advances (Cursor.new delta) (snd (deltaHeader delta)).
Proof.
  unfold deltaHeader.
  assert (inBounds (Cursor.new delta)) as H0 by (cbn; lia).
  pose proof (readVariableLengthInt_advances _ H0) as H1.
  destruct (readVariableLengthInt (Cursor.new delta)) as [b c1].
  cbn [snd] in H1.
  eapply advances_trans; [exact H1|].
  apply readVariableLengthInt_advances, H1.
Qed.

Lemma deltaHeader_remaining (delta : Buffer) :
  inBounds (snd (deltaHeader delta))
  /\ (remaining (snd (deltaHeader delta)) <= length delta)%nat.
Proof.
  destruct (deltaHeader_advances delta) as (_ & Hb & Hr). split; [exact Hb|].
  cbn in Hr. lia.
Qed.

(** The operations of a delta are its first operation followed by the
    rest, when the header does not exhaust it. *)
Lemma deltaOperations_cons (delta source : Buffer) :
  exhausted (snd (deltaHeader delta)) = false ->
  exists n,
    length delta = S n
    /\ (remaining (snd (firstOperation delta source)) <= n)%nat
    /\ inBounds (snd (firstOperation delta source))
    /\ deltaOperations delta source =
       fst (firstOperation delta source)
         :: decodeOperations n (snd (firstOperation delta source)) source.
Proof.
  intros He. destruct (deltaHeader_remaining delta) as [Hb Hr].
  destruct (readDeltaOperation_consumes _ source Hb He) as [Ha Hlt].
  unfold deltaOperations, firstOperation in *.
  destruct (length delta) as [|n] eqn:En; [lia|].
  exists n. split; [reflexivity|]. split; [lia|]. split; [apply Ha|].
  cbn [decodeOperations]. rewrite He.
  destruct (readDeltaOperation (snd (deltaHeader delta)) source).
  reflexivity.
Qed.

Lemma deltaOperations_nil (delta source : Buffer) :
  exhausted (snd (deltaHeader delta)) = true ->
  deltaOperations delta source = []
  /\ fst (firstOperation delta source) = []
  /\ exhausted (snd (firstOperation delta source)) = true.
Proof.
  intros He. unfold deltaOperations, firstOperation. split.
  - destruct (length delta); cbn [decodeOperations]; [reflexivity|].
    rewrite He. reflexivity.
  - apply readDeltaOperation_exhausted, He.
Qed.

(** When the operations produce at least the target size, the call returns
    the first [targetSize] bytes of what they produce. *)
Lemma applyOffsetDelta_enough (fuel : nat) (delta source : Buffer) :
  0 <= targetSizeOf delta <= Z.of_nat (length (deltaOutput delta source)) ->
  (length delta <= fuel)%nat ->
  applyOffsetDelta fuel delta source =
  Ok (firstn (Z.to_nat (targetSizeOf delta)) (deltaOutput delta source)).
Proof.
  intros HT Hfuel. rewrite applyOffsetDelta_unfold. unfold deltaOutput in *.
  destruct (exhausted (snd (deltaHeader delta))) eqn:He.
  - destruct (deltaOperations_nil delta source He) as (Hops & Hop & _).
    rewrite Hops in *. rewrite Hop. cbn [concat length] in HT.
    replace (targetSizeOf delta) with 0 by lia. reflexivity.
  - destruct (deltaOperations_cons delta source He) as (n & Hn & Hr & Hb & Hops).
    rewrite Hops in *. cbn [concat] in *.
    destruct (Z.eqb_spec (Buf.byteLength (fst (firstOperation delta source)))
                (targetSizeOf delta)) as [Heq|Hne].
    + rewrite <- Heq. unfold Buf.byteLength. rewrite Nat2Z.id.
      rewrite firstn_app, Nat.sub_diag, firstn_O, app_nil_r, firstn_all.
      reflexivity.
    + apply copyIntoTarget_enough; try assumption; lia.
Qed.

(** When the operations produce fewer bytes than the target size, the call
    never returns. *)
Lemma applyOffsetDelta_underflow (delta source : Buffer) :
  Z.of_nat (length (deltaOutput delta source)) < targetSizeOf delta ->
  forall fuel, applyOffsetDelta fuel delta source = OutOfFuel.
Proof.
  intros HT fuel. rewrite applyOffsetDelta_unfold. unfold deltaOutput in *.
  destruct (exhausted (snd (deltaHeader delta))) eqn:He.
  - destruct (deltaOperations_nil delta source He) as (Hops & Hop & He1).
    rewrite Hops in *. rewrite Hop. cbn [concat length] in HT.
    unfold Buf.byteLength. cbn [length].
    destruct (Z.eqb_spec (Z.of_nat 0) (targetSizeOf delta)) as [Heq|_];
      [lia|].
    rewrite copyIntoTarget_unfold by lia. cbn [length skipn firstn].
    rewrite firstn_nil.
    apply fillTarget_exhausted; [assumption|].
    intros Hs. apply (f_equal (@length byte)) in Hs.
    rewrite repeat_length in Hs. cbn [length] in Hs. lia.
  - destruct (deltaOperations_cons delta source He) as (n & Hn & Hr & Hb & Hops).
    rewrite Hops in *. cbn [concat] in *.
    destruct (Z.eqb_spec (Buf.byteLength (fst (firstOperation delta source)))
                (targetSizeOf delta)) as [Heq|Hne].
    + unfold Buf.byteLength in Heq. rewrite length_app in HT. lia.
    + apply copyIntoTarget_underflow with (n := n); assumption.
Qed.

Transparent readDeltaOperation readVariableLengthInt.

(** *** The shortcut of [applyOffsetDelta] *)

(** C9: when the first operation of a delta alone produces exactly the
    declared target size, [applyOffsetDelta] returns that operation's output
    directly, and the general path (allocate the target, copy the first
    operation, run the fill loop) returns the same bytes. *)
Theorem C9_shortcut_agrees_with_general_path
    (delta source : Buffer) (fuel : nat) :
  Buf.byteLength (fst (firstOperation delta source)) = targetSizeOf delta ->
  applyOffsetDelta fuel delta source = Ok (fst (firstOperation delta source))
  /\ applyOffsetDelta_general (S fuel) delta source =
     Ok (fst (firstOperation delta source)).
Proof.
  intros Heq. split.
  - rewrite applyOffsetDelta_unfold, Heq, Z.eqb_refl. reflexivity.
  - rewrite applyOffsetDelta_general_unfold.
    pose proof (byteLength_nonneg (fst (firstOperation delta source))) as Hn.
    rewrite copyIntoTarget_unfold by lia.
    rewrite <- Heq. unfold Buf.byteLength. rewrite Nat2Z.id.
    rewrite skipn_all2 by (rewrite repeat_length; lia).
    rewrite fillTarget_full, firstn_all. reflexivity.
Qed.

Lemma C9_witness :
  Buf.byteLength (fst (firstOperation copy5 hello)) = targetSizeOf copy5
  /\ applyOffsetDelta 0 copy5 hello = Ok (bytes [104; 101; 108; 108; 111])
  /\ applyOffsetDelta_general 1 copy5 hello =
     Ok (bytes [104; 101; 108; 108; 111]).
Proof.
  split; [vm_compute; reflexivity|].
  apply (C9_shortcut_agrees_with_general_path copy5 hello 0).
  vm_compute. reflexivity.
Defined.

(** *** Copy operations *)

Lemma subarray_length (b : Buffer) (s e : Z) :
  0 <= s <= e ->
  Buf.byteLength (Buf.subarray b (JS.Num s) (JS.Num e)) =
  Z.min e (Buf.byteLength b) - Z.min s (Buf.byteLength b).
Proof.
  intros H. unfold Buf.subarray, Buf.adjustOffset, Buf.byteLength.
  rewrite length_firstn, length_skipn.
  destruct (s <? 0) eqn:E1; destruct (e <? 0) eqn:E2;
    destruct (s <? Z.of_nat (length b)) eqn:E3;
    destruct (e <? Z.of_nat (length b)) eqn:E4; zbool; try lia;
    match goal with
    | |- context [?x <? ?y] => destruct (x <? y) eqn:E5; zbool; lia
    end.
Qed.

(** C5: a copy operation whose decoded size field is 0 copies the range
    [offset, offset + 65536) of the source: 65536 bytes when the source has
    them, and never an empty range when the offset lies inside the source. *)
Theorem C5_copy_size_zero_is_65536
    (cursor c1 c2 c3 : Cursor.t) (source : Buffer) (opCode : option Z)
    (offset : Z) :
  Cursor.readByte cursor = (opCode, c1) ->
  JS.truthy (JS.and (JS.int_of opCode) 128) = true ->
  readCompactNumber c1 (JS.and (JS.int_of opCode) 15) 4 = (offset, c2) ->
  readCompactNumber c2 (JS.shr (JS.and (JS.int_of opCode) 112) 4) 3 = (0, c3) ->
  readDeltaOperation cursor source =
    (Buf.subarray source (JS.Num offset) (JS.Num (offset + 65536)), c3)
  /\ (0 <= offset <= Buf.byteLength source ->
      Buf.byteLength (fst (readDeltaOperation cursor source)) =
      Z.min 65536 (Buf.byteLength source - offset)).
Proof.
  intros Hb Hcopy Hoff Hsize.
  assert (readDeltaOperation cursor source =
          (Buf.subarray source (JS.Num offset) (JS.Num (offset + 65536)), c3))
    as Hop.
  { unfold readDeltaOperation. rewrite Hb, Hcopy, Hoff, Hsize. reflexivity. }
  split; [exact Hop|].
  intros Hrange. rewrite Hop. cbn [fst].
  rewrite subarray_length by lia. lia.
Qed.

(** The opcode [0x80] alone: a copy with no offset and no size byte. *)
Lemma C5_witness :
  readDeltaOperation (Cursor.new (bytes [128])) hello =
    (Buf.subarray hello (JS.Num 0) (JS.Num 65536),
     Cursor.mk (JS.Num 1) 1 (bytes [128]))
  /\ (0 <= 0 <= Buf.byteLength hello ->
      Buf.byteLength (fst (readDeltaOperation (Cursor.new (bytes [128])) hello))
      = Z.min 65536 (Buf.byteLength hello - 0)).
Proof.
  apply (C5_copy_size_zero_is_65536 (Cursor.new (bytes [128]))
           (Cursor.mk (JS.Num 1) 1 (bytes [128]))
           (Cursor.mk (JS.Num 1) 1 (bytes [128]))
           (Cursor.mk (JS.Num 1) 1 (bytes [128]))
           hello (Some 128) 0); vm_compute; reflexivity.
Defined.

(** *** Deltas that do not match their target size *)

Lemma fillTarget_never_throws (fuel : nat) :
  forall rc w free source e,
    fillTarget fuel rc (targetAt w free) source <> Throw e.
Proof.
  induction fuel as [|fuel IH]; intros rc w free source e; [discriminate|].
  cbn [fillTarget].
  destruct (readDeltaOperation rc source) as [op rc'].
  rewrite copyFrom_targetAt. cbn [bind].
  destruct (length op <? length free)%nat; [apply IH|discriminate].
Qed.

Lemma applyOffsetDelta_throws (fuel : nat) (delta source : Buffer) (e : error) :
  applyOffsetDelta fuel delta source = Throw e ->
  e = RangeError /\ targetSizeOf delta < 0.
Proof.
  rewrite applyOffsetDelta_unfold.
  destruct (_ =? _); [discriminate|].
  destruct (Z.lt_ge_cases (targetSizeOf delta) 0) as [Hneg|Hpos].
  - rewrite copyIntoTarget_negative by assumption.
    intros [= <-]. split; [reflexivity|assumption].
  - rewrite copyIntoTarget_unfold by assumption.
    intros H. apply fillTarget_never_throws in H. contradiction.
Qed.

Lemma applyOffsetDelta_negative (fuel : nat) (delta source : Buffer) :
  targetSizeOf delta < 0 ->
  applyOffsetDelta fuel delta source = Throw RangeError.
Proof.
  intros H. rewrite applyOffsetDelta_unfold.
  pose proof (byteLength_nonneg (fst (firstOperation delta source))).
  destruct (Z.eqb_spec (Buf.byteLength (fst (firstOperation delta source)))
              (targetSizeOf delta)); [lia|].
  apply copyIntoTarget_negative, H.
Qed.

(** C1 (as the code has it): [applyOffsetDelta] has no format check.  When
    the operations of the delta produce more than the declared target size,
    the call returns the first [targetSize] bytes of their output; when they
    produce fewer before the delta is exhausted, the call returns nothing,
    for any amount of fuel; and the only exception it can raise is the range
    error of allocating a negative size. *)
Theorem C1_applyOffsetDelta_has_no_format_check (delta source : Buffer) :
  (0 <= targetSizeOf delta < Z.of_nat (length (deltaOutput delta source)) ->
   forall fuel, (length delta <= fuel)%nat ->
     applyOffsetDelta fuel delta source =
     Ok (firstn (Z.to_nat (targetSizeOf delta)) (deltaOutput delta source)))
  /\ (Z.of_nat (length (deltaOutput delta source)) < targetSizeOf delta ->
      forall fuel, applyOffsetDelta fuel delta source = OutOfFuel)
  /\ (forall fuel e,
        applyOffsetDelta fuel delta source = Throw e ->
        e = RangeError /\ targetSizeOf delta < 0).
Proof.
  split; [|split].
  - intros HT fuel Hfuel. apply applyOffsetDelta_enough; [lia|assumption].
  - apply applyOffsetDelta_underflow.
  - intros fuel e. apply applyOffsetDelta_throws.
Qed.

Lemma C1_witness :
  applyOffsetDelta 4 overflowing hello = Ok (bytes [104; 101; 108])
  /\ (forall fuel, applyOffsetDelta fuel underflowing hello = OutOfFuel).
Proof.
  split.
  - apply (proj1 (C1_applyOffsetDelta_has_no_format_check overflowing hello)).
    + vm_compute. split; [discriminate|reflexivity].
    + vm_compute. lia.
  - apply (proj1 (proj2 (C1_applyOffsetDelta_has_no_format_check
                           underflowing hello))).
    vm_compute. reflexivity.
Defined.

(** C1 fails as stated: [overflowing] declares a target of three bytes, its
    single operation produces five, and [applyOffsetDelta] returns a buffer
    instead of failing. *)
Lemma C1_counterexample :
  targetSizeOf overflowing = 3
  /\ Buf.byteLength (deltaOutput overflowing hello) = 5
  /\ applyOffsetDelta 4 overflowing hello = Ok (bytes [104; 101; 108]).
Proof. vm_compute. repeat split. Qed.

(** *** Termination *)

(** C8: [applyOffsetDelta] returns (or throws) when the operations decoded
    before the delta is exhausted produce at least the declared target size;
    when they produce less, no amount of fuel makes it return.  The reason is
    that an operation read from an exhausted delta is empty and leaves the
    delta exhausted, and copying it leaves the target cursor where it is. *)
Theorem C8_applyOffsetDelta_terminates_iff_enough_output
    (delta source : Buffer) :
  (targetSizeOf delta <= Z.of_nat (length (deltaOutput delta source)) ->
   forall fuel, (length delta <= fuel)%nat ->
     applyOffsetDelta fuel delta source <> OutOfFuel)
  /\ (Z.of_nat (length (deltaOutput delta source)) < targetSizeOf delta ->
      forall fuel, applyOffsetDelta fuel delta source = OutOfFuel)
  /\ (forall rc w free,
        exhausted rc = true ->
        fst (readDeltaOperation rc source) = []
        /\ exhausted (snd (readDeltaOperation rc source)) = true
        /\ Cursor.copyFrom (targetAt w free) [] =
           Ok ((0 <? length free)%nat, targetAt w free)).
Proof.
  split; [|split].
  - intros HT fuel Hfuel.
    destruct (Z.lt_ge_cases (targetSizeOf delta) 0) as [Hneg|Hpos].
    + rewrite applyOffsetDelta_negative by assumption. discriminate.
    + rewrite applyOffsetDelta_enough by (try assumption; lia). discriminate.
  - apply applyOffsetDelta_underflow.
  - intros rc w free He.
    destruct (readDeltaOperation_exhausted rc source He) as [Hop He'].
    split; [exact Hop|]. split; [exact He'|].
    rewrite copyFrom_targetAt. cbn [length skipn].
    rewrite firstn_nil, app_nil_r. reflexivity.
Qed.

Lemma C8_witness :
  applyOffsetDelta (length copy5) copy5 hello <> OutOfFuel
  /\ (forall fuel, applyOffsetDelta fuel underflowing hello = OutOfFuel).
Proof.
  split.
  - apply (proj1 (C8_applyOffsetDelta_terminates_iff_enough_output
                    copy5 hello)).
    + vm_compute. discriminate.
    + vm_compute. lia.
  - apply (proj1 (proj2 (C8_applyOffsetDelta_terminates_iff_enough_output
                           underflowing hello))).
    vm_compute. reflexivity.
Defined.

(** ** The inflater *)

Section InflaterFacts.

Context `{Zlib}.

Lemma peek_throws (r : Reader.t) (n : Z) (e : error) :
  Reader.peek r n = Throw e -> e = RangeError.
Proof.
  unfold Reader.peek, Buf.allocUnsafe, readSync.
  destruct (n <? 0); cbn [bind]; [congruence|].
  destruct (_ || _); cbn [bind]; [congruence|].
  destruct (_ <? 0); cbn [bind]; congruence.
Qed.

Lemma inflate_chunk_never_throws (fuel : nat) :
  forall z chunk output inOffset outOffset totalInflated availIn availOut e,
    Inflater.inflate_chunk fuel z chunk output inOffset outOffset
      totalInflated availIn availOut <> Throw e.
Proof.
  induction fuel as [|fuel IH]; intros; cbn [Inflater.inflate_chunk];
    [discriminate|].
  destruct (_ && _); [|discriminate].
  destruct (zlib_writeSync _ _ _ _ _ _ _) as [[z' output'] [o i]].
  apply IH.
Qed.

Lemma inflate_loop_throws (fuel : nat) :
  forall z reader outSize chunkSize output totalInflated outOffset e,
    Inflater.inflate_loop fuel z reader outSize chunkSize output
      totalInflated outOffset = Throw e ->
    e = RangeError.
Proof.
  induction fuel as [|fuel IH]; intros z reader outSize chunkSize output
    totalInflated outOffset e; cbn [Inflater.inflate_loop]; [discriminate|].
  destruct (totalInflated <? outSize); [|discriminate].
  destruct (Reader.peek reader chunkSize) as [[chunk reader']|e'|] eqn:Ep;
    cbn [bind]; [| |discriminate].
  - destruct (Inflater.inflate_chunk _ _ _ _ _ _ _ _ _)
      as [[[z' output'] [o t]]|e'|] eqn:Ec; cbn [bind]; [| |discriminate].
    + apply IH.
    + exfalso. eapply inflate_chunk_never_throws, Ec.
  - intros [= <-]. eapply peek_throws, Ep.
Qed.

Lemma inflate_closed (fuel : nat) (i : Inflater.t) (reader : Reader.t)
    (outSize : Z) :
  Inflater.zlib i = None ->
  Inflater.inflate fuel i reader outSize = Throw InflaterClosed.
Proof. intros Hz. unfold Inflater.inflate. rewrite Hz. reflexivity. Qed.

Lemma inflate_open (fuel : nat) (i : Inflater.t) (reader : Reader.t)
    (outSize : Z) :
  Inflater.zlib i <> None ->
  Inflater.inflate fuel i reader outSize <> Throw InflaterClosed.
Proof.
  intros Hz. unfold Inflater.inflate.
  destruct (Inflater.zlib i) as [z|]; [|congruence].
  unfold Buf.allocUnsafe.
  destruct (outSize <? 0); cbn [bind]; [discriminate|].
  destruct (Inflater.inflate_loop _ _ _ _ _ _ _ _)
    as [[[z' output] reader']|e|] eqn:El; cbn [bind]; try discriminate.
  apply inflate_loop_throws in El. subst e. discriminate.
Qed.

Lemma close_closes (i : Inflater.t) : Inflater.zlib (Inflater.close i) = None.
Proof.
  unfold Inflater.close.
  destruct (Inflater.zlib i) eqn:E; [reflexivity|exact E].
Qed.

Lemma close_again (i : Inflater.t) :
  Inflater.zlib i = None -> Inflater.close i = i.
Proof. intros Hz. unfold Inflater.close. rewrite Hz. reflexivity. Qed.

Lemma close_iter (n : nat) (i : Inflater.t) :
  Nat.iter n Inflater.close (Inflater.close i) = Inflater.close i.
Proof.
  induction n as [|n IH]; [reflexivity|].
  rewrite Nat.iter_succ, IH. apply close_again, close_closes.
Qed.

(** C10: [inflate] on an instance on which [close] has been called, once or
    more, fails with the "closed" error; [inflate] on an instance that is
    not closed never fails with it; and however often [close] is called,
    the binding's [close()] runs once: at the first call on an open
    instance, and at no later one. *)
Theorem C10_inflate_after_close_and_close_once
    (i : Inflater.t) (reader : Reader.t) (outSize : Z) (fuel n : nat) :
  Inflater.inflate fuel (Nat.iter (S n) Inflater.close i) reader outSize
    = Throw InflaterClosed
  /\ (Inflater.zlib i <> None ->
      Inflater.inflate fuel i reader outSize <> Throw InflaterClosed)
  /\ (Inflater.zlib i <> None ->
      Inflater.closed (Nat.iter (S n) Inflater.close i)
        = S (Inflater.closed i))
  /\ Inflater.closed (Nat.iter (S n) Inflater.close Inflater.new) = 1%nat.
Proof.
  assert (forall j : Inflater.t, Inflater.zlib j <> None ->
            Inflater.closed (Nat.iter (S n) Inflater.close j)
              = S (Inflater.closed j)) as Honce.
  { intros j Hz. rewrite Nat.iter_succ_r, close_iter.
    unfold Inflater.close.
    destruct (Inflater.zlib j); [reflexivity|congruence]. }
  split;
    [rewrite Nat.iter_succ_r, close_iter; apply inflate_closed, close_closes|].
  split; [apply inflate_open|].
  split; [apply Honce|].
  apply Honce. discriminate.
Qed.

End InflaterFacts.

Lemma C10_witness :
  Inflater.zlib (@Inflater.new storedZlib) <> None
  /\ @Inflater.inflate storedZlib 5 Inflater.new
       (Reader.new (bytes [97; 98; 99]) 1) 3 <> Throw InflaterClosed
  /\ Inflater.closed (Nat.iter 3 Inflater.close (@Inflater.new storedZlib))
     = 1%nat.
Proof.
  assert (Inflater.zlib (@Inflater.new storedZlib) <> None) as Hopen
    by (vm_compute; discriminate).
  split; [exact Hopen|].
  pose proof (@C10_inflate_after_close_and_close_once storedZlib
                Inflater.new (Reader.new (bytes [97; 98; 99]) 1) 3 5 2)
    as (_ & Hinflate & _ & Hclose).
  split; [exact (Hinflate Hopen)|exact Hclose].
Defined.

(** ** The file reader *)

Arguments Reader.read : simpl never.
Arguments Reader.readUInt8 : simpl never.
Arguments Reader.readUInt32BE : simpl never.

Lemma skipn_cons_tail {A : Type} (n : nat) (l rest : list A) (x : A) :
  skipn n l = x :: rest -> skipn (S n) l = rest.
Proof.
  revert l. induction n as [|n IH]; intros l Hl.
  - cbn in Hl. subst l. reflexivity.
  - destruct l as [|y l]; [discriminate|]. cbn [skipn] in *. apply IH, Hl.
Qed.

(** Reading one byte where the file has one. *)
Lemma readUInt8_at (r : Reader.t) (b : byte) (rest : Buffer) :
  0 <= Reader.offset r -> 1 <= Reader.maxReadSize r ->
  skipn (Z.to_nat (Reader.offset r)) (Reader.fd r) = b :: rest ->
  Reader.readUInt8 r 0 =
  Ok (byteZ b,
      Reader.mk (Reader.fd r) (Reader.maxReadSize r) (Reader.offset r + 1)
        (Reader.offset r :: Reader.reads r)).
Proof.
  intros Ho Hm Hs.
  unfold Reader.readUInt8, Reader.read, Reader.seek, readSync.
  cbn [Reader.fd Reader.maxReadSize Reader.offset Reader.reads].
  rewrite Z.add_0_r.
  destruct (Reader.maxReadSize r <? 1) eqn:E1; zbool; [lia|].
  destruct (Reader.offset r <? 0) eqn:E2; zbool; [lia|].
  cbn [orb Z.ltb Z.compare bind]. rewrite Hs.
  reflexivity.
Qed.

(** A successful one-byte read was inside the file and moved one byte on. *)
Lemma readUInt8_ok (r r' : Reader.t) (v : Z) :
  Reader.readUInt8 r 0 = Ok (v, r') ->
  0 <= Reader.offset r < Z.of_nat (length (Reader.fd r))
  /\ Reader.fd r' = Reader.fd r
  /\ Reader.offset r' = Reader.offset r + 1.
Proof.
  unfold Reader.readUInt8, Reader.read, Reader.seek, readSync.
  cbn [Reader.fd Reader.maxReadSize Reader.offset Reader.reads].
  rewrite Z.add_0_r.
  destruct ((1 <? 0) || (Reader.maxReadSize r <? 1)); [discriminate|].
  destruct (Reader.offset r <? 0) eqn:E; [discriminate|]. zbool.
  cbn [bind].
  change (Z.to_nat 1) with 1%nat.
  destruct (skipn (Z.to_nat (Reader.offset r)) (Reader.fd r)) as [|b rest]
    eqn:Es; cbn [firstn Buf.readUInt8 bind]; [discriminate|].
  intros [= <- <-]. cbn [Reader.fd Reader.offset].
  split; [|split; [reflexivity|reflexivity]].
  split; [assumption|].
  destruct (Z.lt_ge_cases (Reader.offset r)
              (Z.of_nat (length (Reader.fd r)))) as [Hlt|Hge]; [exact Hlt|].
  rewrite skipn_all2 in Es by lia. discriminate.
Qed.

Lemma readUInt8_returns (r : Reader.t) (d : Z) :
  Reader.readUInt8 r d <> OutOfFuel.
Proof.
  unfold Reader.readUInt8, Reader.read, readSync.
  destruct (_ || _); [discriminate|].
  destruct (_ <? 0); [discriminate|]. cbn [bind].
  destruct (Buf.readUInt8 _) eqn:E; cbn [bind]; try discriminate.
  unfold Buf.readUInt8 in E. destruct (firstn _ _); discriminate.
Qed.

(** The rounds given to the two loops over the pack file are enough: they
    return or throw. *)
Lemma parseVariableLengthQuantity_loop_returns (n : nat) :
  forall r chunks,
    (0 <= Reader.offset r ->
     Z.of_nat (length (Reader.fd r)) - Reader.offset r <= Z.of_nat n) ->
    parseVariableLengthQuantity_loop (S n) r chunks <> OutOfFuel.
Proof.
  induction n as [|n IH]; intros r chunks Hn;
    cbn [parseVariableLengthQuantity_loop];
    (destruct (Reader.readUInt8 r 0) as [[v r']|e|] eqn:E; cbn [bind];
     [|discriminate|exfalso; eapply readUInt8_returns, E]);
    apply readUInt8_ok in E; destruct E as (Ho & Hfd & Hoff); [lia|].
  destruct (JS.truthy (JS.and v 128)); [|discriminate].
  apply IH. rewrite Hfd, Hoff. lia.
Qed.

Lemma readByteLength_loop_returns (n : nat) :
  forall r byteLength shift,
    (0 <= Reader.offset r ->
     Z.of_nat (length (Reader.fd r)) - Reader.offset r <= Z.of_nat n) ->
    readByteLength_loop (S n) r byteLength shift <> OutOfFuel.
Proof.
  induction n as [|n IH]; intros r byteLength shift Hn;
    cbn [readByteLength_loop];
    (destruct (Reader.readUInt8 r 0) as [[v r']|e|] eqn:E; cbn [bind];
     [|discriminate|exfalso; eapply readUInt8_returns, E]);
    apply readUInt8_ok in E; destruct E as (Ho & Hfd & Hoff); [lia|].
  destruct (negb (JS.truthy (JS.and v 128))); [discriminate|].
  apply IH. rewrite Hfd, Hoff. lia.
Qed.

Lemma parseVariableLengthQuantity_returns (r : Reader.t) :
  parseVariableLengthQuantity r <> OutOfFuel.
Proof.
  unfold parseVariableLengthQuantity.
  pose proof (parseVariableLengthQuantity_loop_returns
                (length (Reader.fd r)) r [] ltac:(lia)) as Hret.
  destruct (parseVariableLengthQuantity_loop _ r []) as [[c r']|e|];
    cbn [bind]; [discriminate|discriminate|contradiction].
Qed.

Lemma readByteLength_returns (r : Reader.t) (flags : Z) :
  readByteLength r flags <> OutOfFuel.
Proof.
  unfold readByteLength.
  destruct (JS.truthy (JS.and flags 128)); [|discriminate].
  apply readByteLength_loop_returns. lia.
Qed.

Lemma byte_high_bit (b : byte) :
  JS.truthy (JS.and (byteZ b) 128) = (128 <=? byteZ b).
Proof. destruct b; vm_compute; reflexivity. Qed.

Lemma byte_low7 (b : byte) : JS.and (byteZ b) 127 = low7 b.
Proof. destruct b; vm_compute; reflexivity. Qed.

Lemma low7_range (b : byte) : 0 <= low7 b < 128.
Proof. unfold low7. apply Z.mod_pos_bound. lia. Qed.

Lemma low7_seed (b : byte) :
  JS.or (JS.shl (-1 + 1) 7) (low7 b) = low7 b.
Proof. destruct b; vm_compute; reflexivity. Qed.

(** The loop of [parseVariableLengthQuantity] over bytes with the high bit
    set followed by one with the high bit clear. *)
Lemma parseVariableLengthQuantity_loop_spec (body : Buffer) :
  forall (n : nat) (r : Reader.t) (chunks : list Z) (last : byte)
         (post : Buffer),
    0 <= Reader.offset r -> 1 <= Reader.maxReadSize r ->
    skipn (Z.to_nat (Reader.offset r)) (Reader.fd r) = body ++ last :: post ->
    Forall (fun b => 128 <= byteZ b) body -> byteZ last < 128 ->
    (length body < n)%nat ->
    exists r',
      parseVariableLengthQuantity_loop n r chunks =
        Ok (chunks ++ map low7 (body ++ [last]), r')
      /\ Reader.fd r' = Reader.fd r
      /\ Reader.offset r' =
         Reader.offset r + Z.of_nat (length (body ++ [last])).
Proof.
  induction body as [|b body IH];
    intros n r chunks last post Ho Hm Hs Hbody Hlast Hn;
    (destruct n as [|n]; [cbn in Hn; lia|]);
    cbn [parseVariableLengthQuantity_loop];
    rewrite (readUInt8_at r _ _ Ho Hm Hs); cbn [bind];
    rewrite byte_high_bit, byte_low7.
  - destruct (Z.leb_spec 128 (byteZ last)); [lia|].
    eexists. split; [reflexivity|]. cbn. split; [reflexivity|lia].
  - inversion Hbody as [|? ? Hb Hbody']; subst.
    destruct (Z.leb_spec 128 (byteZ b)); [|lia].
    edestruct (IH n
                 (Reader.mk (Reader.fd r) (Reader.maxReadSize r)
                    (Reader.offset r + 1) (Reader.offset r :: Reader.reads r))
                 (chunks ++ [low7 b]) last post) as (r' & Hr & Hfd & Hoff);
      cbn [Reader.fd Reader.maxReadSize Reader.offset]; try assumption;
      try lia.
    + replace (Z.to_nat (Reader.offset r + 1))
        with (S (Z.to_nat (Reader.offset r))) by lia.
      eapply skipn_cons_tail. exact Hs.
    + cbn in Hn. lia.
    + exists r'. rewrite Hr. split.
      * rewrite <- app_assoc. reflexivity.
      * cbn [Reader.fd Reader.offset] in *. split; [exact Hfd|].
        rewrite Hoff. cbn [length app]. lia.
Qed.

Lemma toInt32_small (z : Z) : - 2 ^ 31 <= z < 2 ^ 31 -> JS.toInt32 z = z.
Proof.
  intros H. unfold JS.toInt32. rewrite Z.mod_small by lia. lia.
Qed.

Lemma lor_shifted (x c : Z) :
  0 <= x -> 0 <= c < 128 -> Z.lor (Z.shiftl x 7) c = x * 128 + c.
Proof.
  intros Hx Hc.
  assert (Z.land (Z.shiftl x 7) c = 0) as Hland.
  { apply Z.bits_inj'. intros n Hn.
    rewrite Z.land_spec, Z.bits_0.
    destruct (Z.lt_ge_cases n 7) as [Hlow|Hhigh].
    - rewrite Z.shiftl_spec_low by assumption. reflexivity.
    - replace (Z.testbit c n) with false; [apply andb_false_r|].
      symmetry. destruct (Z.eq_dec c 0) as [->|Hc0]; [apply Z.bits_0|].
      apply Z.bits_above_log2; [lia|].
      assert (Z.log2 c < 7); [|lia].
      apply Z.log2_lt_pow2; lia. }
  pose proof (Z.add_lor_land (Z.shiftl x 7) c) as Hadd.
  rewrite Hland, Z.shiftl_mul_pow2 in Hadd by lia.
  rewrite Z.shiftl_mul_pow2 by lia. lia.
Qed.

(** One step of the recurrence stays exact below [2 ^ 24]. *)
Lemma packed_step_exact (acc c : Z) :
  0 <= acc < 2 ^ 24 - 1 -> 0 <= c < 128 ->
  JS.or (JS.shl (acc + 1) 7) c = (acc + 1) * 128 + c.
Proof.
  intros Ha Hc. unfold JS.or, JS.shl.
  change (7 mod 32) with 7.
  rewrite (toInt32_small (acc + 1)) by lia.
  rewrite (toInt32_small c) by lia.
  assert (Z.shiftl (acc + 1) 7 = (acc + 1) * 128) as Hs
    by (rewrite Z.shiftl_mul_pow2 by lia; lia).
  rewrite !(toInt32_small (Z.shiftl (acc + 1) 7)) by (rewrite Hs; lia).
  rewrite lor_shifted by lia.
  apply toInt32_small. lia.
Qed.

Opaque JS.or JS.shl low7.

Lemma packed_exact_2 (b0 b1 : byte) :
  JS.or (JS.shl (low7 b0 + 1) 7) (low7 b1) = (low7 b0 + 1) * 128 + low7 b1.
Proof.
  pose proof (low7_range b0). pose proof (low7_range b1).
  apply packed_step_exact; lia.
Qed.

Lemma packed_exact_3 (b0 b1 b2 : byte) :
  JS.or (JS.shl (JS.or (JS.shl (low7 b0 + 1) 7) (low7 b1) + 1) 7) (low7 b2) =
  ((low7 b0 + 1) * 128 + low7 b1 + 1) * 128 + low7 b2.
Proof.
  pose proof (low7_range b0). pose proof (low7_range b1).
  pose proof (low7_range b2).
  rewrite packed_exact_2. apply packed_step_exact; lia.
Qed.

Lemma packed_exact_4 (b0 b1 b2 b3 : byte) :
  JS.or
    (JS.shl
       (JS.or (JS.shl (JS.or (JS.shl (low7 b0 + 1) 7) (low7 b1) + 1) 7)
          (low7 b2) + 1) 7) (low7 b3) =
  (((low7 b0 + 1) * 128 + low7 b1 + 1) * 128 + low7 b2 + 1) * 128 + low7 b3.
Proof.
  pose proof (low7_range b0). pose proof (low7_range b1).
  pose proof (low7_range b2). pose proof (low7_range b3).
  rewrite packed_exact_3. apply packed_step_exact; lia.
Qed.

Lemma packedLength_exact_upto4 (bs : list byte) :
  (length bs <= 4)%nat -> packedLength_spec bs = packedLength_exact bs.
Proof.
  intros Hlen.
  destruct bs as [|b0 [|b1 [|b2 [|b3 [|b4 bs]]]]].
  - reflexivity.
  - reflexivity.
  - apply packed_exact_2.
  - apply packed_exact_3.
  - apply packed_exact_4.
  - exfalso. cbn [length] in Hlen. lia.
Qed.

Transparent JS.or JS.shl low7.

Lemma fold_left_map {A B C : Type} (f : A -> B -> A) (g : C -> B)
    (l : list C) (a : A) :
  fold_left f (map g l) a = fold_left (fun acc c => f acc (g c)) l a.
Proof.
  revert a. induction l as [|c l IH]; intros a; [reflexivity|].
  cbn [map fold_left]. apply IH.
Qed.

(** C6: on bytes [b0 .. bk] of which only the last has its high bit clear,
    [parseVariableLengthQuantity] reads exactly those [k + 1] bytes and
    returns the low seven bits of [b0] combined with those of each later
    byte as [((acc + 1) << 7) | chunk]; up to four bytes that is the value
    of the recurrence [(acc + 1) * 128 + chunk] over the integers.  On the
    bytes [0x81 0x00] it returns 256 where the little-endian decoder
    [readVariableLengthInt] returns 1. *)
Theorem C6_parseVariableLengthQuantity_decodes_packed_length
    (pre body post : Buffer) (last : byte) (maxReadSize : Z) (log : list Z) :
  1 <= maxReadSize ->
  Forall (fun b => 128 <= byteZ b) body -> byteZ last < 128 ->
  (exists reader',
     parseVariableLengthQuantity
       (Reader.mk (pre ++ body ++ last :: post) maxReadSize
          (Z.of_nat (length pre)) log)
     = Ok (packedLength_spec (body ++ [last]), reader')
     /\ Reader.offset reader' =
        Z.of_nat (length pre) + Z.of_nat (length (body ++ [last])))
  /\ ((length (body ++ [last]) <= 4)%nat ->
      packedLength_spec (body ++ [last]) = packedLength_exact (body ++ [last]))
  /\ (packedLength_spec (bytes [129; 0]) = 256
      /\ fst (readVariableLengthInt (Cursor.new (bytes [129; 0]))) = 1).
Proof.
  intros Hm Hbody Hlast. split; [|split].
  - unfold parseVariableLengthQuantity.
    edestruct (parseVariableLengthQuantity_loop_spec body
                 (S (length (pre ++ body ++ last :: post)))
                 (Reader.mk (pre ++ body ++ last :: post) maxReadSize
                    (Z.of_nat (length pre)) log) [] last post)
      as (r' & Hr & _ & Hoff);
      cbn [Reader.fd Reader.maxReadSize Reader.offset]; try assumption;
      try lia.
    + rewrite Nat2Z.id, skipn_app, skipn_all, Nat.sub_diag. reflexivity.
    + rewrite !length_app. lia.
    + cbn [Reader.fd Reader.offset] in *. rewrite Hr. cbn [bind app].
      exists r'. split; [|exact Hoff].
      f_equal. f_equal.
      destruct (body ++ [last]) as [|b0 rest] eqn:E;
        [destruct body; discriminate|].
      cbn [map fold_left packedLength_spec].
      rewrite low7_seed. apply fold_left_map.
  - apply packedLength_exact_upto4.
  - vm_compute. split; reflexivity.
Qed.

Lemma C6_witness :
  exists reader',
    parseVariableLengthQuantity
      (Reader.mk (bytes [7] ++ bytes [129; 128] ++ byte_of_Z 5 :: bytes [9])
         1 1 [])
    = Ok (32901, reader')
    /\ Reader.offset reader' = 4.
Proof.
  pose proof (proj1 (C6_parseVariableLengthQuantity_decodes_packed_length
                       (bytes [7]) (bytes [129; 128]) (bytes [9])
                       (byte_of_Z 5) 1 [] ltac:(lia)
                       ltac:(repeat constructor; vm_compute; discriminate)
                       ltac:(vm_compute; reflexivity))) as Hw.
  vm_compute in Hw |- *. exact Hw.
Defined.

(** ** The pack reader *)

(** One step of inversion on a hypothesis [H : m = Ok _] whose left side is
    a bind, a destructuring [let] or a match. *)
Ltac invert_step H :=
  match type of H with
  | bind ?m _ = Ok _ =>
      destruct m as [?|?|] eqn:?; cbn [bind] in H;
      [|discriminate H|discriminate H]
  | (let '(_, _) := ?x in _) = Ok _ => destruct x
  | match ?x with _ => _ end = Ok _ =>
      destruct x eqn:?; try discriminate H
  end.

(** Inversion of every hypothesis of that form. *)
Ltac invert_ok :=
  repeat match goal with
  | H : bind _ _ = Ok _ |- _ => invert_step H
  | H : (let '(_, _) := _ in _) = Ok _ |- _ => invert_step H
  | H : Ok _ = Ok _ |- _ => injection H as H; subst
  | H : (_, _) = (_, _) |- _ => injection H as ? ?; subst
  end.

Section PackFacts.

Context `{Zlib}.

Arguments Inflater.inflate : simpl never.
Arguments applyOffsetDelta : simpl never.
Arguments parseVariableLengthQuantity : simpl never.
Arguments readByteLength : simpl never.
Arguments searchGitIndex : simpl never.
Arguments Reader.peek : simpl never.

Lemma objectHeader_headerType (packFd idxFd : Buffer) (offset : Z)
    (t : ObjectType) (size : Z) (reader : Reader.t) (base : option Z) :
  objectHeader packFd idxFd offset = Ok (t, size, reader, base) ->
  headerType packFd offset = Ok t
  /\ isDelta t = match base with Some _ => true | None => false end.
Proof.
  unfold objectHeader, headerType. cbv zeta. intros Hh.
  invert_step Hh. invert_step Hh. cbn [bind].
  destruct (types (JS.and z 112)) as [ty|]; [|discriminate Hh].
  invert_step Hh. invert_step Hh.
  destruct ty; repeat (invert_step Hh; cbn [bind] in Hh);
    injection Hh as <- <- <- <-; split; reflexivity.
Qed.

(** The header at [offset], from the calls that have returned. *)
Ltac header_of packFd idxFd offset Hh :=
  pose proof (eq_refl (objectHeader packFd idxFd offset)) as Hh;
  unfold objectHeader at 1 in Hh; cbv zeta in Hh;
  repeat match goal with
  | H : ?x = Ok _ |- _ =>
      match type of Hh with
      | context [x] => rewrite H in Hh; cbn [bind] in Hh
      end
  | H : types ?k = Some _ |- _ =>
      match type of Hh with
      | context [types k] => rewrite H in Hh; cbv iota in Hh
      end
  end;
  symmetry in Hh.

(** C4: the type [readFromPack] reports is never a delta type; it is the
    type in the header of the object at the end of the chain of bases that
    starts at the offset read, whatever the length of the chain.  One link
    of the chain: an object that is not a delta is inflated and reported
    with the type of its header; for a delta, the base is read at the
    offset its header gives: the offset of the delta minus the distance
    for an offset delta, the offset the index gives for the 20-byte hash
    for a ref delta; the delta is inflated and applied to the data of that
    base, and the type reported is the type reported for that base. *)
Theorem C4_readFromPack_reports_resolved_type (packFd idxFd : Buffer)
    (fuel : nat) :
  forall (offset : Z) (inflater inflater' : Inflater.t) (r : PackObject),
    readFromPack fuel packFd idxFd offset inflater = Ok (r, inflater') ->
    isDelta r.(type) = false
    /\ (exists root,
          resolvesTo packFd idxFd offset root
          /\ headerType packFd root = Ok r.(type))
    /\ exists t size reader base fuel' reader',
         fuel = S fuel'
         /\ objectHeader packFd idxFd offset = Ok (t, size, reader, base)
         /\ match base with
            | None =>
                r.(type) = t
                /\ Inflater.inflate fuel' inflater reader size
                   = Ok (r.(data), inflater', reader')
            | Some baseOffset =>
                isDelta t = true
                /\ exists b inflater1 object,
                     readFromPack fuel' packFd idxFd baseOffset inflater
                     = Ok (b, inflater1)
                     /\ Inflater.inflate fuel' inflater1 reader size
                        = Ok (object, inflater', reader')
                     /\ r.(type) = b.(type)
                     /\ applyOffsetDelta fuel' object b.(data)
                        = Ok r.(data)
            end.
Proof.
  induction fuel as [|fuel IH]; intros offset inflater inflater' r Hr;
    [discriminate|].
  cbn [readFromPack] in Hr. cbv zeta in Hr.
  invert_step Hr. invert_step Hr.
  destruct (types (JS.and z 112)) as [t0|] eqn:Et; [|discriminate Hr].
  invert_step Hr. invert_step Hr.
  destruct t0; cbn [bind] in Hr.
  1-4: repeat (invert_step Hr; cbn [bind] in Hr);
       injection Hr as <- <-; cbn [type data isDelta];
       header_of packFd idxFd offset Hh;
       (split; [reflexivity|]); split;
       [ eexists; split;
         [ eapply resolves_here; exact Hh
         | exact (proj1 (objectHeader_headerType _ _ _ _ _ _ _ Hh)) ]
       | eexists _, _, _, None, _, _; split; [reflexivity|];
         split; [exact Hh|]; split; [reflexivity|eassumption] ].
  - (* an offset delta *)
    invert_step Hr. invert_ok.
    match goal with
    | Hbase : readFromPack fuel _ _ _ _ = Ok _ |- _ =>
        destruct (IH _ _ _ _ Hbase) as (Hnd & (root & Hchain & Hroot) & _)
    end.
    destruct p as [tp basep]. cbn [type] in Hnd, Hroot.
    injection Heqo1 as <- <- <- <-.
    header_of packFd idxFd offset Hh.
    destruct tp; try discriminate Hnd; injection Heqo3 as <- <- <- <-;
      invert_ok; cbn [type data isDelta];
      (split; [reflexivity|]);
      (split;
       [ exists root; split;
         [ eapply resolves_base; [exact Hh|exact Hchain] | exact Hroot ]
       | eexists _, _, _, (Some _), _, _; split; [reflexivity|];
         split; [exact Hh|]; split; [reflexivity|];
         eexists _, _, _; split; [eassumption|];
         split; [eassumption|]; split; [reflexivity|eassumption] ]).
  - (* a ref delta *)
    invert_ok.
    match goal with
    | Hbase : readFromPack fuel _ _ _ _ = Ok _ |- _ =>
        destruct (IH _ _ _ _ Hbase) as (Hnd & (root & Hchain & Hroot) & _)
    end.
    destruct p as [tp basep]. cbn [type] in Hnd, Hroot.
    injection Heqo1 as <- <- <- <-.
    header_of packFd idxFd offset Hh.
    invert_ok. cbn [type data].
    split; [exact Hnd|]. split.
    + exists root. split;
        [eapply resolves_base; [exact Hh|exact Hchain]|exact Hroot].
    + eexists _, _, _, (Some _), _, _. split; [reflexivity|].
      split; [exact Hh|]. split; [reflexivity|].
      eexists _, _, _. split; [eassumption|].
      split; [eassumption|]. split; [reflexivity|eassumption].
Qed.

End PackFacts.

(** The ref delta at offset 31 of the sample pack: its base is the offset
    delta at 16, which the index gives for its hash, and the base of that
    one is the commit at 12. *)
Lemma C4_witness :
  @readFromPack storedZlib 10 samplePack sampleIdx 31 Inflater.new
    = Ok (mkPackObject commit (bytes [97; 98; 99]), Inflater.new)
  /\ isDelta (mkPackObject commit (bytes [97; 98; 99])).(type) = false
  /\ (exists root,
        resolvesTo samplePack sampleIdx 31 root
        /\ headerType samplePack root
           = Ok (mkPackObject commit (bytes [97; 98; 99])).(type))
  /\ (exists size reader,
        objectHeader samplePack sampleIdx 31
        = Ok (ref_delta, size, reader, Some 16))
  /\ (exists size reader,
        objectHeader samplePack sampleIdx 16
        = Ok (ofs_delta, size, reader, Some 12)).
Proof.
  split; [vm_compute; reflexivity|].
  destruct (@C4_readFromPack_reports_resolved_type storedZlib samplePack
              sampleIdx 10 31 Inflater.new Inflater.new
              (mkPackObject commit (bytes [97; 98; 99]))
              ltac:(vm_compute; reflexivity)) as (Hnd & Hchain & _).
  split; [exact Hnd|]. split; [exact Hchain|].
  split; eexists; eexists; vm_compute; reflexivity.
Defined.

(** ** The directory scan *)

Lemma searchGitIndex_wrong_signature (fd oid : Buffer) :
  firstn 8 fd <> idxV2 -> searchGitIndex fd oid = Throw UnsupportedIDX.
Proof.
  intros Hsig. unfold searchGitIndex, Reader.read, Reader.new, readSync.
  cbn [Reader.fd Reader.maxReadSize Reader.offset Reader.reads].
  change ((8 <? 0) || (20 <? 8)) with false.
  change (0 <? 0) with false. cbv iota. cbn [bind].
  change (Z.to_nat 8) with 8%nat. change (Z.to_nat 0) with 0%nat.
  cbn [skipn].
  destruct (Buf.equals (firstn 8 fd) idxV2) eqn:E; [|reflexivity].
  apply equals_true in E. contradiction.
Qed.

Section ScanFacts.

Context `{Zlib}.

Lemma scan_passes_over (fuel : nat) (fs : FileSystem) (oid : Buffer)
    (skipped rest : list Dirent) :
  Forall (passedOver fs oid) skipped ->
  getCommitFromPackFile_scan fuel fs oid (skipped ++ rest) =
  getCommitFromPackFile_scan fuel fs oid rest.
Proof.
  induction 1 as [|d skipped Hd _ IH]; [reflexivity|].
  cbn [app getCommitFromPackFile_scan].
  destruct Hd as [Hskip|(indexFd & Hopen & Hsearch)].
  - rewrite Hskip. exact IH.
  - destruct (isDirectory d || negb (endsWith (name d) ".idx"%string));
      [exact IH|].
    unfold openSync. rewrite Hopen. cbn [bind]. rewrite Hsearch.
    cbn [bind]. exact IH.
Qed.

End ScanFacts.

(** C2 fails as stated: the hash [sampleHash 0] is in the pack of
    [good.idx] and is found when that index is alone in the directory, but
    the lookup returns [null] when an index with a wrong signature, or one
    that cannot be opened, is listed before it. *)
Lemma C2_counterexample :
  @getCommitFromPackFile storedZlib 10 goodOnly (sampleHash 0)
    = Ok (Some (bytes [97; 98; 99]))
  /\ @getCommitFromPackFile storedZlib 10 corruptFirst (sampleHash 0)
     = Ok None
  /\ @getCommitFromPackFile storedZlib 10 unreadableFirst (sampleHash 0)
     = Ok None.
Proof. vm_compute. repeat split. Qed.

(** ** The index lookup *)

(** *** Slices of a file *)

Lemma skipn_app_exact {A : Type} (a b : list A) (m : nat) :
  skipn (length a + m) (a ++ b) = skipn m b.
Proof.
  rewrite skipn_app, skipn_all2 by lia.
  replace (length a + m - length a)%nat with m by lia. reflexivity.
Qed.

Lemma firstn_app_exact {A : Type} (a b : list A) :
  firstn (length a) (a ++ b) = a.
Proof.
  rewrite firstn_app, Nat.sub_diag, firstn_O, app_nil_r. apply firstn_all.
Qed.

Lemma concat_chunks_length (c : nat) (chunks : list Buffer) :
  Forall (fun ch => length ch = c) chunks ->
  length (concat chunks) = (c * length chunks)%nat.
Proof.
  induction 1 as [|ch chunks Hch _ IH]; cbn [concat length]; [lia|].
  rewrite length_app, IH, Hch. lia.
Qed.

(** Chunk [i] of a concatenation of chunks of [c] bytes. *)
Lemma concat_chunk (c : nat) (chunks : list Buffer) (rest : Buffer) :
  Forall (fun ch => length ch = c) chunks ->
  forall i, (i < length chunks)%nat ->
    firstn c (skipn (c * i) (concat chunks ++ rest)) = nth i chunks [].
Proof.
  induction 1 as [|ch chunks Hch _ IH]; intros i Hi; cbn [length] in Hi;
    [lia|].
  cbn [concat]. rewrite <- app_assoc.
  destruct i as [|i].
  - rewrite Nat.mul_0_r. cbn [skipn nth]. rewrite <- Hch.
    apply firstn_app_exact.
  - replace (c * S i)%nat with (length ch + c * i)%nat by lia.
    rewrite skipn_app_exact. cbn [nth]. apply IH. lia.
Qed.

Lemma be32_length (v : Z) : length (be32 v) = 4%nat.
Proof. reflexivity. Qed.

Lemma readUInt32BE_be32 (v : Z) (rest : Buffer) :
  0 <= v < 2 ^ 32 -> Buf.readUInt32BE (be32 v ++ rest) = Ok v.
Proof.
  intros Hv. unfold be32, bytes. cbn [map app Buf.readUInt32BE].
  rewrite !byteZ_byte_of_Z. f_equal.
  change (2 ^ 32) with 4294967296 in Hv.
  change (2 ^ 24) with 16777216. change (2 ^ 16) with 65536.
  change (2 ^ 8) with 256.
  Z.div_mod_to_equations. lia.
Qed.

(** A read inside the bounds of the reader's buffer returns what the file
    has at the offset. *)
Lemma read_at (r : Reader.t) (n : Z) :
  0 <= Reader.offset r -> 0 <= n <= Reader.maxReadSize r ->
  Reader.read r n =
  Ok (firstn (Z.to_nat n) (skipn (Z.to_nat (Reader.offset r)) (Reader.fd r)),
      Reader.mk (Reader.fd r) (Reader.maxReadSize r)
        (Reader.offset r
         + Buf.byteLength
             (firstn (Z.to_nat n)
                (skipn (Z.to_nat (Reader.offset r)) (Reader.fd r))))
        (Reader.offset r :: Reader.reads r)).
Proof.
  intros Ho Hn. unfold Reader.read, readSync.
  destruct (n <? 0) eqn:E1; zbool; [lia|].
  destruct (Reader.maxReadSize r <? n) eqn:E2; zbool; [lia|].
  destruct (Reader.offset r <? 0) eqn:E3; zbool; [lia|].
  reflexivity.
Qed.

(** Reading the 32-bit integer [v] stored at [offset r + d]. *)
Lemma readUInt32BE_at (r : Reader.t) (d v : Z) :
  0 <= Reader.offset r + d -> 4 <= Reader.maxReadSize r -> 0 <= v < 2 ^ 32 ->
  firstn 4 (skipn (Z.to_nat (Reader.offset r + d)) (Reader.fd r)) = be32 v ->
  Reader.readUInt32BE r d =
  Ok (v, Reader.mk (Reader.fd r) (Reader.maxReadSize r)
           (Reader.offset r + d + 4)
           ((Reader.offset r + d) :: Reader.reads r)).
Proof.
  intros Ho Hm Hv Hs. unfold Reader.readUInt32BE.
  rewrite read_at by (cbn [Reader.seek Reader.offset Reader.maxReadSize]; lia).
  cbn [Reader.seek Reader.offset Reader.maxReadSize Reader.fd Reader.reads
       bind].
  change (Z.to_nat 4) with 4%nat. rewrite Hs.
  pose proof (readUInt32BE_be32 v [] Hv) as Hd. rewrite app_nil_r in Hd.
  rewrite Hd. cbn [bind]. reflexivity.
Qed.

(** *** The order on hashes and the fan-out table *)

Lemma hash_ltb_irrefl (a : Buffer) : hash_ltb a a = false.
Proof.
  induction a as [|x a IH]; [reflexivity|].
  cbn [hash_ltb]. rewrite Z.ltb_irrefl, Z.eqb_refl, IH. reflexivity.
Qed.

Lemma hash_lt_trans (a : Buffer) :
  forall b c, hash_lt a b -> hash_lt b c -> hash_lt a c.
Proof.
  unfold hash_lt.
  induction a as [|x a IH]; intros [|y b] [|z c]; cbn [hash_ltb];
    try discriminate; try reflexivity.
  intros Hab Hbc.
  apply orb_true_iff in Hab. apply orb_true_iff in Hbc.
  apply orb_true_iff.
  destruct Hab as [Hab|Hab]; destruct Hbc as [Hbc|Hbc];
    try apply andb_true_iff in Hab; try apply andb_true_iff in Hbc;
    repeat match goal with H : _ /\ _ |- _ => destruct H end; zbool.
  - left. apply Z.ltb_lt. lia.
  - left. apply Z.ltb_lt. lia.
  - left. apply Z.ltb_lt. lia.
  - right. apply andb_true_iff. split; [apply Z.eqb_eq; lia|].
    eapply IH; eassumption.
Qed.

Lemma hash_lt_firstByte (a b : Buffer) :
  hash_lt a b -> firstByte a <= firstByte b.
Proof.
  unfold hash_lt.
  destruct a as [|x a], b as [|y b]; cbn [hash_ltb firstByte];
    try discriminate.
  - intros _. apply byteZ_range.
  - intros Hab. apply orb_true_iff in Hab.
    destruct Hab as [Hab|Hab]; [|apply andb_true_iff in Hab; destruct Hab];
      zbool; lia.
Qed.

Lemma sorted_hashes_StronglySorted (hashes : list Buffer) :
  sorted_hashes hashes = true -> StronglySorted hash_lt hashes.
Proof.
  intros Hs. apply Sorted_StronglySorted.
  - intros a b c. apply hash_lt_trans.
  - induction hashes as [|a [|b rest] IH]; constructor.
    + constructor.
    + constructor.
    + apply IH. cbn [sorted_hashes] in Hs.
      apply andb_true_iff in Hs. apply Hs.
    + constructor. cbn [sorted_hashes] in Hs.
      apply andb_true_iff in Hs. apply Hs.
Qed.

(** In a sorted list, entries at different places are different. *)
Lemma StronglySorted_distinct (hashes : list Buffer) :
  StronglySorted hash_lt hashes ->
  forall i j, (i < j < length hashes)%nat ->
    nth i hashes [] <> nth j hashes [].
Proof.
  induction 1 as [|a l _ IH Ha]; intros i j Hij; cbn [length] in Hij;
    [lia|].
  destruct j as [|j]; [lia|]. destruct i as [|i]; cbn [nth].
  - rewrite Forall_forall in Ha.
    assert (hash_lt a (nth j l [])) as Hlt by (apply Ha, nth_In; lia).
    intros Heq. rewrite <- Heq in Hlt. unfold hash_lt in Hlt.
    rewrite hash_ltb_irrefl in Hlt. discriminate.
  - apply IH. lia.
Qed.

Lemma filter_firstByte_nil (l : list Buffer) (k : Z) :
  Forall (fun h => k < firstByte h) l ->
  filter (fun h => firstByte h <=? k) l = [].
Proof.
  induction 1 as [|b l Hb _ IH]; [reflexivity|]. cbn [filter].
  destruct (Z.leb_spec (firstByte b) k); [lia|exact IH].
Qed.

(** In a sorted list, the hashes whose first byte is at most [k] are those
    before place [fanout k]. *)
Lemma fanout_bucket (hashes : list Buffer) (k : Z) :
  StronglySorted hash_lt hashes ->
  forall i, (i < length hashes)%nat ->
    firstByte (nth i hashes []) <= k <-> Z.of_nat i < fanout hashes k.
Proof.
  unfold fanout.
  induction 1 as [|a l _ IH Ha]; intros i Hi; cbn [length] in Hi; [lia|].
  cbn [filter].
  destruct (Z.leb_spec (firstByte a) k) as [Hle|Hgt].
  - destruct i as [|i]; cbn [nth length]; [lia|].
    rewrite IH by lia. lia.
  - assert (filter (fun h => firstByte h <=? k) l = []) as Hnil.
    { apply filter_firstByte_nil.
      eapply Forall_impl; [|exact Ha].
      intros b Hb. apply hash_lt_firstByte in Hb. lia. }
    rewrite Hnil. cbn [length].
    assert (k < firstByte (nth i (a :: l) [])); [|lia].
    destruct i as [|i]; cbn [nth]; [lia|].
    rewrite Forall_forall in Ha.
    assert (firstByte a <= firstByte (nth i l []))
      by (apply hash_lt_firstByte, Ha, nth_In; lia).
    lia.
Qed.

Lemma fanout_monotone (hashes : list Buffer) (k k' : Z) :
  k <= k' -> fanout hashes k <= fanout hashes k'.
Proof.
  intros Hk. unfold fanout.
  induction hashes as [|a l IH]; cbn [filter]; [lia|].
  destruct (Z.leb_spec (firstByte a) k); destruct (Z.leb_spec (firstByte a) k');
    cbn [length]; lia.
Qed.

Lemma fanout_bounds (hashes : list Buffer) (k : Z) :
  0 <= fanout hashes k <= Z.of_nat (length hashes).
Proof.
  unfold fanout.
  pose proof (filter_length_le (fun h => firstByte h <=? k) hashes). lia.
Qed.

Lemma firstByte_range (h : Buffer) : 0 <= firstByte h < 256.
Proof.
  destruct h as [|b h]; cbn [firstByte]; [lia|apply byteZ_range].
Qed.

Lemma fanout_255 (hashes : list Buffer) :
  fanout hashes 255 = Z.of_nat (length hashes).
Proof.
  unfold fanout. f_equal.
  induction hashes as [|a l IH]; cbn [filter length]; [reflexivity|].
  pose proof (firstByte_range a).
  destruct (Z.leb_spec (firstByte a) 255); [|lia].
  cbn [length]. rewrite IH. reflexivity.
Qed.

Lemma fanout_negative (hashes : list Buffer) (k : Z) :
  k < 0 -> fanout hashes k = 0.
Proof.
  intros Hk. unfold fanout.
  induction hashes as [|a l IH]; cbn [filter length]; [reflexivity|].
  pose proof (firstByte_range a).
  destruct (Z.leb_spec (firstByte a) k); [lia|exact IH].
Qed.

(** *** The layout of a well-formed index *)

Section IndexFacts.

Variables (hashes : list Buffer) (crcs : Buffer) (offsets : list Z)
          (trailer : Buffer).
Hypothesis Hwf : wellFormedIdx hashes crcs offsets.

Local Abbreviation N := (Z.of_nat (length hashes)).
Local Abbreviation idx := (mkIdx hashes crcs offsets trailer).

Lemma fanoutTable_chunks :
  Forall (fun ch => length ch = 4%nat)
    (map (fun k => be32 (fanout hashes (Z.of_nat k))) (seq 0 256)).
Proof.
  apply Forall_forall. intros ch Hch. apply in_map_iff in Hch.
  destruct Hch as (k & <- & _). reflexivity.
Qed.

Lemma fanoutTable_length : length (fanoutTable hashes) = 1024%nat.
Proof.
  unfold fanoutTable. rewrite flat_map_concat_map.
  rewrite (concat_chunks_length 4) by apply fanoutTable_chunks.
  rewrite length_map, length_seq. reflexivity.
Qed.

Lemma hashes_chunks : Forall (fun ch => length ch = 20%nat) hashes.
Proof. apply Hwf. Qed.

Lemma offsets_chunks :
  Forall (fun ch => length ch = 4%nat) (map be32 offsets).
Proof.
  apply Forall_forall. intros ch Hch. apply in_map_iff in Hch.
  destruct Hch as (k & <- & _). reflexivity.
Qed.

Lemma idx_signature : firstn 8 idx = idxV2.
Proof. reflexivity. Qed.

Lemma idx_fanout_entry (k : Z) :
  0 <= k < 256 ->
  firstn 4 (skipn (Z.to_nat (8 + 4 * k)) idx) = be32 (fanout hashes k).
Proof.
  intros Hk. unfold mkIdx.
  replace (Z.to_nat (8 + 4 * k))
    with (length idxV2 + 4 * Z.to_nat k)%nat
    by (change (length idxV2) with 8%nat; lia).
  rewrite skipn_app_exact. unfold fanoutTable.
  rewrite flat_map_concat_map.
  rewrite (concat_chunk 4) by
    (try apply fanoutTable_chunks; rewrite length_map, length_seq; lia).
  rewrite (nth_indep _ [] (be32 (fanout hashes (Z.of_nat 0))))
    by (rewrite length_map, length_seq; lia).
  rewrite (map_nth (fun k => be32 (fanout hashes (Z.of_nat k)))).
  rewrite seq_nth by lia. cbn [Nat.add]. rewrite Z2Nat.id by lia.
  reflexivity.
Qed.

Lemma idx_hash (i : nat) :
  (i < length hashes)%nat ->
  firstn 20 (skipn (Z.to_nat (1032 + 20 * Z.of_nat i)) idx)
  = nth i hashes [].
Proof.
  intros Hi. unfold mkIdx.
  replace (Z.to_nat (1032 + 20 * Z.of_nat i))
    with (length idxV2 + (length (fanoutTable hashes) + 20 * i))%nat
    by (rewrite fanoutTable_length; change (length idxV2) with 8%nat; lia).
  rewrite !skipn_app_exact.
  apply concat_chunk; [apply hashes_chunks|assumption].
Qed.

Lemma idx_offset (i : nat) :
  (i < length hashes)%nat ->
  firstn 4 (skipn (Z.to_nat (1032 + 24 * N + 4 * Z.of_nat i)) idx)
  = be32 (nth i offsets 0).
Proof.
  intros Hi. unfold mkIdx.
  destruct Hwf as (_ & _ & Hlen & Hcrcs & _).
  replace (Z.to_nat (1032 + 24 * N + 4 * Z.of_nat i))
    with (length idxV2
          + (length (fanoutTable hashes)
             + (length (concat hashes) + (length crcs + 4 * i))))%nat
    by (rewrite fanoutTable_length,
          (concat_chunks_length 20 hashes hashes_chunks), Hcrcs;
        change (length idxV2) with 8%nat; lia).
  rewrite !skipn_app_exact, flat_map_concat_map.
  rewrite (concat_chunk 4) by
    (try apply offsets_chunks; rewrite length_map; lia).
  rewrite (nth_indep _ [] (be32 0)) by (rewrite length_map; lia).
  apply (map_nth be32).
Qed.

Lemma offset_range (i : nat) :
  (i < length hashes)%nat -> 0 <= nth i offsets 0 < 2 ^ 32.
Proof.
  intros Hi. destruct Hwf as (_ & _ & Hlen & _ & Hoff & _).
  rewrite Forall_forall in Hoff. apply Hoff, nth_In. lia.
Qed.

Lemma hash_length (i : nat) :
  (i < length hashes)%nat -> length (nth i hashes []) = 20%nat.
Proof.
  intros Hi. pose proof hashes_chunks as Hc.
  rewrite Forall_forall in Hc. apply Hc, nth_In, Hi.
Qed.

Lemma fanout_range (k : Z) : 0 <= fanout hashes k < 2 ^ 32.
Proof.
  pose proof (fanout_bounds hashes k).
  destruct Hwf as (_ & _ & _ & _ & _ & HN). lia.
Qed.

(** The scan of the bucket, entered at hash [start + i] with [n] hashes
    to go: it reads hashes from there on, returns the offset stored for
    the first one equal to [oid], and nothing when none is. *)
Lemma getOidFromIdx_scan_spec (oid : Buffer) (start : Z) (n : nat) :
  forall (i : Z) (r : Reader.t),
    Reader.fd r = idx -> Reader.maxReadSize r = 20 ->
    Reader.offset r = 1032 + 20 * (start + i) ->
    0 <= start -> 0 <= i -> start + i + Z.of_nat n <= N ->
    exists res r',
      getOidFromIdx_scan n i oid r N start = Ok (res, r')
      /\ (exists new,
            Reader.reads r' = new ++ Reader.reads r
            /\ Forall (fun p => Reader.offset r <= p) new
            /\ ((0 < n)%nat -> last new 0 = Reader.offset r))
      /\ (forall j,
            start + i <= Z.of_nat j < start + i + Z.of_nat n ->
            nth j hashes [] = oid ->
            (forall m, start + i <= Z.of_nat m < Z.of_nat j ->
                       nth m hashes [] <> oid) ->
            res = Some (nth j offsets 0))
      /\ ((forall m, start + i <= Z.of_nat m < start + i + Z.of_nat n ->
                     nth m hashes [] <> oid) ->
          res = None).
Proof.
  induction n as [|n IH]; intros i r Hfd Hmax Hoff Hstart Hi HN.
  - exists None, r. split; [reflexivity|]. split; [|split].
    + exists []. split; [reflexivity|]. split; [constructor|lia].
    + intros j Hj. lia.
    + reflexivity.
  - cbn [getOidFromIdx_scan].
    rewrite read_at by lia. cbn [bind].
    assert (Z.to_nat (start + i) < length hashes)%nat as Hk by lia.
    assert (Z.to_nat (Reader.offset r)
            = Z.to_nat (1032 + 20 * Z.of_nat (Z.to_nat (start + i))))
      as Hpos by lia.
    rewrite Hfd, Hpos. change (Z.to_nat 20) with 20%nat.
    rewrite (idx_hash _ Hk).
    unfold Buf.byteLength. rewrite (hash_length _ Hk).
    destruct (Buf.equals (nth (Z.to_nat (start + i)) hashes []) oid) eqn:E;
      cbn [negb].
    + (* the hash at [start + i] is [oid] *)
      apply equals_true in E.
      rewrite (readUInt32BE_at _ 0 (nth (Z.to_nat (start + i)) offsets 0)).
      * cbn [bind Reader.seek Reader.fd Reader.maxReadSize Reader.offset
             Reader.reads].
        eexists _, _. split; [reflexivity|].
        cbn [Reader.reads]. split; [|split].
        -- exists [Reader.offset r + Z.of_nat 20
                   + 20 * (N - i - start - 1) + 4 * N + 4 * (i + start) + 0;
                   Reader.offset r].
           split; [reflexivity|]. split.
           ++ apply Forall_cons; [lia|].
              apply Forall_cons; [lia|apply Forall_nil].
           ++ intros _. reflexivity.
        -- intros j Hj Hjo Hbefore. f_equal.
           destruct (Nat.eq_dec j (Z.to_nat (start + i))) as [->|Hne];
             [reflexivity|].
           exfalso. apply (Hbefore (Z.to_nat (start + i))); [lia|exact E].
        -- intros Habsent. exfalso.
           apply (Habsent (Z.to_nat (start + i))); [lia|exact E].
      * cbn [Reader.seek Reader.offset]. lia.
      * cbn [Reader.seek Reader.maxReadSize]. lia.
      * apply offset_range, Hk.
      * cbn [Reader.seek Reader.offset Reader.fd].
        replace (Reader.offset r + Z.of_nat 20
                 + 20 * (N - i - start - 1) + 4 * N + 4 * (i + start) + 0)
          with (1032 + 24 * N + 4 * Z.of_nat (Z.to_nat (start + i)))
          by lia.
        apply idx_offset, Hk.
    + (* it is not: go on with the next hash *)
      apply equals_false in E.
      edestruct (IH (i + 1)
                   (Reader.mk idx (Reader.maxReadSize r)
                      (Reader.offset r + Z.of_nat 20)
                      (Reader.offset r :: Reader.reads r)))
        as (res & r' & Hscan & (new & Hnew & Hall & Hlast) & Hfound & Habs);
        cbn [Reader.fd Reader.maxReadSize Reader.offset Reader.reads];
        try lia; try reflexivity.
      exists res, r'. split; [exact Hscan|].
      cbn [Reader.reads Reader.offset] in *. split; [|split].
      * exists (new ++ [Reader.offset r]). split; [|split].
        -- rewrite <- app_assoc. exact Hnew.
        -- apply Forall_app. split.
           ++ eapply Forall_impl; [|exact Hall]. cbn beta. intros p Hp. lia.
           ++ apply Forall_cons; [lia|apply Forall_nil].
        -- intros _. apply last_last.
      * intros j Hj Hjo Hbefore. apply Hfound; [|exact Hjo|].
        -- destruct (Nat.eq_dec j (Z.to_nat (start + i))) as [->|Hne];
             [contradiction|lia].
        -- intros m Hm. apply Hbefore. lia.
      * intros Habsent. apply Habs. intros m Hm. apply Habsent. lia.
Qed.

Lemma readUInt32BE_here (r : Reader.t) (v : Z) :
  0 <= Reader.offset r -> Reader.maxReadSize r = 20 -> 0 <= v < 2 ^ 32 ->
  firstn 4 (skipn (Z.to_nat (Reader.offset r)) (Reader.fd r)) = be32 v ->
  Reader.readUInt32BE r 0 =
  Ok (v, Reader.mk (Reader.fd r) 20 (Reader.offset r + 4)
           (Reader.offset r :: Reader.reads r)).
Proof.
  intros Ho Hm Hv Hs.
  rewrite (readUInt32BE_at r 0 v); rewrite ?Z.add_0_r; try assumption;
    try lia.
  rewrite Hm. reflexivity.
Qed.

(** The lookup on the reader that [searchGitIndex] passes, for a hash
    whose first byte is [b0]: the reads it issues, and what it returns
    for a hash of the index and for a hash that is not in it. *)
Lemma getOidFromIdx_spec (b0 : byte) (rest : Buffer) (log : list Z) :
  exists res r',
    getOidFromIdx (b0 :: rest) (Reader.mk idx 20 8 log) = Ok (res, r')
    /\ (exists new,
          Reader.reads r' =
            new ++ 1028 :: (8 + 4 * byteZ b0)
                :: (if byteZ b0 =? 0 then []
                    else [8 + 4 * (byteZ b0 - 1)]) ++ log
          /\ Forall
               (fun p => 1032 + 20 * fanout hashes (byteZ b0 - 1) <= p) new
          /\ (fanout hashes (byteZ b0 - 1) < fanout hashes (byteZ b0) ->
              last new 0 = 1032 + 20 * fanout hashes (byteZ b0 - 1)))
    /\ (forall j,
          (j < length hashes)%nat -> nth j hashes [] = b0 :: rest ->
          res = Some (nth j offsets 0))
    /\ (~ In (b0 :: rest) hashes -> res = None).
Proof.
  pose proof (byteZ_range b0) as Hb.
  pose proof (sorted_hashes_StronglySorted hashes (proj1 (proj2 Hwf)))
    as Hsorted.
  pose proof (fanout_monotone hashes (byteZ b0 - 1) (byteZ b0)
                ltac:(lia)) as Hmono.
  pose proof (fanout_bounds hashes (byteZ b0)) as Hend.
  pose proof (fanout_bounds hashes (byteZ b0 - 1)) as Hstart.
  unfold getOidFromIdx. cbn [Buf.get Z.ltb Z.compare Z.to_nat nth_error
                              option_map].
  (* the first fan-out read, or none when the first byte is 0 *)
  assert ((if byteZ b0 =? 0 then Ok (0, Reader.mk idx 20 8 log)
           else Reader.readUInt32BE (Reader.mk idx 20 8 log)
                  (4 * (byteZ b0 - 1)))
          = Ok (fanout hashes (byteZ b0 - 1),
                Reader.mk idx 20 (8 + 4 * byteZ b0)
                  ((if byteZ b0 =? 0 then []
                    else [8 + 4 * (byteZ b0 - 1)]) ++ log))) as Hfirst.
  { destruct (Z.eqb_spec (byteZ b0) 0) as [H0|H0].
    - rewrite H0, fanout_negative by lia. reflexivity.
    - rewrite (readUInt32BE_at _ _ (fanout hashes (byteZ b0 - 1)));
        cbn [Reader.offset Reader.maxReadSize Reader.fd Reader.reads];
        try lia.
      + do 3 f_equal. lia.
      + apply fanout_range.
      + apply idx_fanout_entry. lia. }
  rewrite Hfirst. cbn [bind].
  rewrite (readUInt32BE_here _ (fanout hashes (byteZ b0)));
    cbn [Reader.offset Reader.maxReadSize Reader.fd Reader.reads];
    try lia; try reflexivity;
    [|apply fanout_range|apply idx_fanout_entry; lia].
  cbn [bind]. unfold Reader.seek.
  cbn [Reader.offset Reader.maxReadSize Reader.fd Reader.reads].
  rewrite (readUInt32BE_here _ (fanout hashes 255));
    cbn [Reader.offset Reader.maxReadSize Reader.fd Reader.reads];
    try lia; try reflexivity;
    [|apply fanout_range
     |replace (8 + 4 * byteZ b0 + 4 + 4 * (255 - byteZ b0 - 1))
        with (8 + 4 * 255) by lia; apply idx_fanout_entry; lia].
  cbn [bind Reader.offset Reader.maxReadSize Reader.fd Reader.reads].
  rewrite fanout_255.
  edestruct (getOidFromIdx_scan_spec (b0 :: rest)
               (fanout hashes (byteZ b0 - 1))
               (Z.to_nat (fanout hashes (byteZ b0)
                          - fanout hashes (byteZ b0 - 1)))
               0
               (Reader.mk idx 20
                  (8 + 4 * byteZ b0 + 4 + 4 * (255 - byteZ b0 - 1) + 4
                   + 20 * fanout hashes (byteZ b0 - 1))
                  ((8 + 4 * byteZ b0 + 4 + 4 * (255 - byteZ b0 - 1))
                     :: (8 + 4 * byteZ b0)
                     :: (if byteZ b0 =? 0 then []
                         else [8 + 4 * (byteZ b0 - 1)]) ++ log)))
    as (res & r' & Hscan & (new & Hnew & Hall & Hlast) & Hfound & Habs);
    cbn [Reader.offset Reader.maxReadSize Reader.fd Reader.reads];
    try lia; try reflexivity.
  exists res, r'. split; [exact Hscan|].
  cbn [Reader.offset Reader.reads] in *. split; [|split].
  - exists new. split; [|split].
    + rewrite Hnew. do 2 f_equal. lia.
    + eapply Forall_impl; [|exact Hall]. cbn beta. intros p Hp. lia.
    + intros Hlt. rewrite Hlast by lia. lia.
  - intros j Hj Hoid.
    assert (firstByte (nth j hashes []) = byteZ b0) as Hfb
      by (rewrite Hoid; reflexivity).
    pose proof (fanout_bucket hashes (byteZ b0) Hsorted j Hj) as Hin.
    pose proof (fanout_bucket hashes (byteZ b0 - 1) Hsorted j Hj) as Hout.
    apply Hfound; [lia|exact Hoid|].
    intros m Hm. rewrite <- Hoid.
    apply StronglySorted_distinct; [exact Hsorted|lia].
  - intros Hnot. apply Habs. intros m Hm Hoid.
    apply Hnot. rewrite <- Hoid. apply nth_In. lia.
Qed.

Lemma searchGitIndex_idx (oid : Buffer) :
  searchGitIndex idx oid =
  '(value, _) <- getOidFromIdx oid (Reader.mk idx 20 8 [0]) ;;
  match value with
  | Some v => if JS.truthy v then Ok (Some v) else Ok None
  | None => Ok None
  end.
Proof.
  unfold searchGitIndex.
  rewrite read_at by (cbn [Reader.new Reader.offset Reader.maxReadSize]; lia).
  cbn [bind Reader.new Reader.offset Reader.maxReadSize Reader.fd
       Reader.reads].
  change (firstn (Z.to_nat 8) (skipn (Z.to_nat 0) idx)) with idxV2.
  reflexivity.
Qed.

Lemma searchGitIndex_present (i : nat) :
  (i < length hashes)%nat -> nth i offsets 0 <> 0 ->
  searchGitIndex idx (nth i hashes []) = Ok (Some (nth i offsets 0)).
Proof.
  intros Hi Hnz. pose proof (hash_length i Hi) as Hlen.
  destruct (nth i hashes []) as [|b0 rest] eqn:Eh; [discriminate|].
  rewrite searchGitIndex_idx.
  destruct (getOidFromIdx_spec b0 rest [0])
    as (res & r' & Hrun & _ & Hfound & _).
  rewrite Hrun. cbn [bind]. rewrite (Hfound i Hi Eh).
  unfold JS.truthy. destruct (Z.eqb_spec (nth i offsets 0) 0); [lia|].
  reflexivity.
Qed.

Lemma searchGitIndex_absent (x : Buffer) :
  ~ In x hashes -> length x = 20%nat -> searchGitIndex idx x = Ok None.
Proof.
  intros Hnot Hlen. destruct x as [|b0 rest]; [discriminate|].
  rewrite searchGitIndex_idx.
  destruct (getOidFromIdx_spec b0 rest [0])
    as (res & r' & Hrun & _ & _ & Habsent).
  rewrite Hrun. cbn [bind]. rewrite (Habsent Hnot). reflexivity.
Qed.

(** The lookup on a well-formed index: it returns the offset stored for a
    hash of the index, when that offset is not 0, and [null] for a 20-byte
    hash that is not in the index, wherever it lies in the order. *)
Theorem searchGitIndex_lookup (i : nat) (x : Buffer) :
  ((i < length hashes)%nat -> nth i offsets 0 <> 0 ->
   searchGitIndex idx (nth i hashes []) = Ok (Some (nth i offsets 0)))
  /\ (~ In x hashes -> length x = 20%nat ->
      searchGitIndex idx x = Ok None).
Proof.
  split; [apply searchGitIndex_present|apply searchGitIndex_absent].
Qed.

(** C7: for a hash whose first byte is 0 the lookup reads no fan-out
    entry before entry 0: after the signature (read at 0) it reads entry 0
    (at 8) and entry 255 (at 1028), and every later read is in the hash
    table or beyond, the first of them at hash 0 (at 1032) when the bucket
    is not empty.  A hash of the index with first byte 0 is found. *)
Theorem C7_first_byte_zero (rest : Buffer) (j : nat) :
  exists res r',
    getOidFromIdx (x00 :: rest) (Reader.mk idx 20 8 [0]) = Ok (res, r')
    /\ (exists new,
          Reader.reads r' = new ++ [1028; 8; 0]
          /\ Forall (fun p => 1032 <= p) new
          /\ (0 < fanout hashes 0 -> last new 0 = 1032))
    /\ ((j < length hashes)%nat -> nth j hashes [] = x00 :: rest ->
        res = Some (nth j offsets 0)
        /\ (nth j offsets 0 <> 0 ->
            searchGitIndex idx (x00 :: rest) = Ok (Some (nth j offsets 0)))).
Proof.
  destruct (getOidFromIdx_spec x00 rest [0])
    as (res & r' & Hrun & (new & Hnew & Hall & Hlast) & Hfound & _).
  change (byteZ x00) with 0 in *. change (0 - 1) with (-1) in *.
  rewrite (fanout_negative hashes (-1)) in * by lia.
  exists res, r'. split; [exact Hrun|]. split.
  - exists new. split; [exact Hnew|]. split; [exact Hall|exact Hlast].
  - intros Hj Hoid. split; [apply Hfound; assumption|].
    intros Hnz. rewrite <- Hoid.
    apply searchGitIndex_present; assumption.
Qed.

End IndexFacts.

Lemma sample_wellFormed (offsets : list Z) :
  length offsets = 3%nat -> Forall (fun o => 0 <= o < 2 ^ 32) offsets ->
  wellFormedIdx [sampleHash 0; sampleHash 3; sampleHash 200] (repeat x00 12)
    offsets.
Proof.
  intros Hlen Hrange. unfold wellFormedIdx.
  split; [repeat constructor|]. split; [vm_compute; reflexivity|].
  split; [exact Hlen|]. split; [reflexivity|]. split; [exact Hrange|].
  cbn [length]. lia.
Qed.

Lemma searchGitIndex_lookup_witness :
  searchGitIndex sampleIdx (sampleHash 200) = Ok (Some 22)
  /\ searchGitIndex sampleIdx (sampleHash 100) = Ok None.
Proof.
  assert (wellFormedIdx [sampleHash 0; sampleHash 3; sampleHash 200]
            (repeat x00 12) [12; 16; 22]) as Hwf.
  { apply sample_wellFormed; [reflexivity|].
    repeat (apply Forall_cons; [lia|]). apply Forall_nil. }
  pose proof (searchGitIndex_lookup _ _ _ [] Hwf 2 (sampleHash 100))
    as [Hpresent Habsent].
  split.
  - apply Hpresent; [cbn [length]; lia|cbn [nth]; lia].
  - apply Habsent; [|reflexivity].
    cbn [In]. intros [Hx|[Hx|[Hx|[]]]]; vm_compute in Hx; discriminate Hx.
Defined.

(** C3, at the input where the code departs from it: [zeroOffsetIdx] is a
    well-formed index that stores the offset 0 for [sampleHash 3];
    [getOidFromIdx] finds the hash and returns that 0, and [searchGitIndex]
    reports [null]. *)
Theorem C3_zero_offset_is_reported_as_null :
  wellFormedIdx [sampleHash 0; sampleHash 3; sampleHash 200] (repeat x00 12)
    [12; 0; 22]
  /\ nth 1 [sampleHash 0; sampleHash 3; sampleHash 200] [] = sampleHash 3
  /\ (exists r,
        getOidFromIdx (sampleHash 3) (Reader.mk zeroOffsetIdx 20 8 [0])
        = Ok (Some 0, r))
  /\ searchGitIndex zeroOffsetIdx (sampleHash 3) = Ok None.
Proof.
  split; [|split; [reflexivity|split]].
  - apply sample_wellFormed; [reflexivity|].
    repeat (apply Forall_cons; [lia|]). apply Forall_nil.
  - eexists. vm_compute. reflexivity.
  - vm_compute. reflexivity.
Qed.

Lemma C7_witness :
  exists res r',
    getOidFromIdx (sampleHash 0) (Reader.mk sampleIdx 20 8 [0])
      = Ok (res, r')
    /\ (exists new,
          Reader.reads r' = new ++ [1028; 8; 0]
          /\ Forall (fun p => 1032 <= p) new
          /\ (0 < fanout [sampleHash 0; sampleHash 3; sampleHash 200] 0 ->
              last new 0 = 1032))
    /\ res = Some 12.
Proof.
  assert (wellFormedIdx [sampleHash 0; sampleHash 3; sampleHash 200]
            (repeat x00 12) [12; 16; 22]) as Hwf.
  { apply sample_wellFormed; [reflexivity|].
    repeat (apply Forall_cons; [lia|]). apply Forall_nil. }
  destruct (C7_first_byte_zero _ _ _ [] Hwf (repeat (byte_of_Z 7) 19) 0%nat)
    as (res & r' & Hrun & Hreads & Hfound).
  exists res, r'. split; [exact Hrun|]. split; [exact Hreads|].
  apply Hfound; [cbn [length]; lia|reflexivity].
Defined.

(** * Further properties *)

(** ** Applying a delta *)

Opaque readDeltaOperation readVariableLengthInt.

Lemma fillTarget_length (fuel : nat) :
  forall rc w free source buf,
    fillTarget fuel rc (targetAt w free) source = Ok buf ->
    length buf = (length w + length free)%nat.
Proof.
  induction fuel as [|fuel IH]; intros rc w free source buf; [discriminate|].
  cbn [fillTarget].
  destruct (readDeltaOperation rc source) as [op rc'].
  rewrite copyFrom_targetAt. cbn [bind].
  destruct (Nat.ltb_spec (length op) (length free)) as [Hlt|Hge].
  - intros Hfill. apply IH in Hfill.
    rewrite Hfill, length_app, length_firstn, length_skipn. lia.
  - intros [= <-]. unfold targetAt. cbn [Cursor.buffer].
    rewrite !length_app, length_firstn, length_skipn. lia.
Qed.

(** Whatever the delta, a buffer that [applyOffsetDelta] returns has exactly
    the declared target size. *)
Theorem applyOffsetDelta_result_length
    (fuel : nat) (delta source buf : Buffer) :
  applyOffsetDelta fuel delta source = Ok buf ->
  Buf.byteLength buf = targetSizeOf delta.
Proof.
  rewrite applyOffsetDelta_unfold.
  destruct (Z.eqb_spec (Buf.byteLength (fst (firstOperation delta source)))
              (targetSizeOf delta)) as [Heq|Hne].
  - intros [= <-]. exact Heq.
  - destruct (Z.lt_ge_cases (targetSizeOf delta) 0) as [Hneg|Hpos].
    + rewrite copyIntoTarget_negative by assumption. discriminate.
    + rewrite copyIntoTarget_unfold by assumption. intros Hfill.
      apply fillTarget_length in Hfill. unfold Buf.byteLength.
      rewrite Hfill, length_firstn, length_skipn, repeat_length. lia.
Qed.

Lemma applyOffsetDelta_result_length_witness :
  applyOffsetDelta 4 overflowing hello = Ok (bytes [104; 101; 108])
  /\ Buf.byteLength (bytes [104; 101; 108]) = targetSizeOf overflowing.
Proof.
  split; [vm_compute; reflexivity|].
  apply (applyOffsetDelta_result_length 4 overflowing hello).
  vm_compute. reflexivity.
Defined.

(** A delta whose operations produce exactly the declared target size is
    replayed exactly: the result is the concatenation of the outputs of its
    operations, in order. *)
Theorem applyOffsetDelta_replays_operations
    (fuel : nat) (delta source : Buffer) :
  Z.of_nat (length (deltaOutput delta source)) = targetSizeOf delta ->
  (length delta <= fuel)%nat ->
  applyOffsetDelta fuel delta source = Ok (deltaOutput delta source).
Proof.
  intros HT Hfuel.
  rewrite applyOffsetDelta_enough by (try assumption; lia).
  rewrite <- HT, Nat2Z.id, firstn_all. reflexivity.
Qed.

Transparent readDeltaOperation readVariableLengthInt.

(** A delta against [hello] that copies "hello", inserts "!" and copies
    " world". *)
Lemma applyOffsetDelta_replays_operations_witness :
  applyOffsetDelta 9 (bytes [11; 12; 144; 5; 1; 33; 145; 5; 6]) hello
  = Ok (bytes [104; 101; 108; 108; 111; 33; 32; 119; 111; 114; 108; 100]).
Proof.
  pose proof (applyOffsetDelta_replays_operations 9
                (bytes [11; 12; 144; 5; 1; 33; 145; 5; 6]) hello
                ltac:(vm_compute; reflexivity) ltac:(vm_compute; lia)) as Hw.
  vm_compute in Hw |- *. exact Hw.
Defined.

(** ** Buffers and single operations *)

(** [subarray] with bounds in order and not negative is the slice that
    starts at [s] and has up to [e - s] bytes. *)
Lemma subarray_slice (b : Buffer) (s e : Z) :
  0 <= s <= e ->
  Buf.subarray b (JS.Num s) (JS.Num e) =
  firstn (Z.to_nat (e - s)) (skipn (Z.to_nat s) b).
Proof.
  intros H. unfold Buf.subarray, Buf.adjustOffset, Buf.byteLength.
  destruct (s <? 0) eqn:E1; zbool; [lia|].
  destruct (e <? 0) eqn:E2; zbool; [lia|].
  destruct (s <? Z.of_nat (length b)) eqn:E3; zbool.
  - destruct (e <? Z.of_nat (length b)) eqn:E4; zbool.
    + destruct (s <? e) eqn:E5; zbool; [reflexivity|].
      replace (e - s) with 0 by lia. reflexivity.
    + destruct (s <? Z.of_nat (length b)) eqn:E5; zbool; [|lia].
      rewrite !firstn_all2; try reflexivity;
        rewrite length_skipn; lia.
  - rewrite !skipn_all2 by lia. rewrite !firstn_nil. reflexivity.
Qed.

Lemma readByte_at (c : Cursor.t) (pre rest : Buffer) (b : byte) :
  Cursor.buffer c = pre ++ b :: rest ->
  Cursor.position c = JS.Num (Z.of_nat (length pre)) ->
  Cursor.readByte c =
  (Some (byteZ b),
   Cursor.mk (JS.Num (Z.of_nat (length pre) + 1)) (Cursor.byteLength c)
     (Cursor.buffer c)).
Proof.
  intros Hbuf Hpos. unfold Cursor.readByte, Buf.get. rewrite Hpos, Hbuf.
  destruct (Z.of_nat (length pre) <? 0) eqn:E; zbool; [lia|].
  rewrite Nat2Z.id, nth_error_app2, Nat.sub_diag by lia. reflexivity.
Qed.

(** An insert operation, an opcode below 128, returns the bytes that follow
    the opcode, as many as the opcode says or as many as are left, and moves
    the cursor past the opcode and the declared length. *)
Theorem readDeltaOperation_insert
    (c : Cursor.t) (pre rest source : Buffer) (op : byte) :
  Cursor.buffer c = pre ++ op :: rest ->
  Cursor.position c = JS.Num (Z.of_nat (length pre)) ->
  byteZ op < 128 ->
  readDeltaOperation c source =
  (firstn (Z.to_nat (byteZ op)) rest,
   Cursor.mk (JS.Num (Z.of_nat (length pre) + 1 + byteZ op))
     (Cursor.byteLength c) (Cursor.buffer c)).
Proof.
  intros Hbuf Hpos Hop. pose proof (byteZ_range op) as Hr.
  unfold readDeltaOperation. rewrite (readByte_at c pre rest op Hbuf Hpos).
  cbn [JS.int_of]. rewrite byte_high_bit.
  destruct (Z.leb_spec 128 (byteZ op)); [lia|].
  unfold Cursor.slice.
  cbn [Cursor.position Cursor.buffer Cursor.byteLength JS.number_of JS.add].
  rewrite subarray_slice by lia. f_equal.
  replace (Z.of_nat (length pre) + 1 + byteZ op - (Z.of_nat (length pre) + 1))
    with (byteZ op) by lia.
  rewrite Hbuf.
  replace (Z.to_nat (Z.of_nat (length pre) + 1)) with (length pre + 1)%nat
    by lia.
  rewrite skipn_app_exact. reflexivity.
Qed.

Lemma readDeltaOperation_insert_witness :
  readDeltaOperation
    (Cursor.mk (JS.Num 2) 5 (bytes [11; 2] ++ byte_of_Z 2 :: bytes [33; 34]))
    hello
  = (bytes [33; 34],
     Cursor.mk (JS.Num 5) 5 (bytes [11; 2] ++ byte_of_Z 2 :: bytes [33; 34])).
Proof.
  pose proof (readDeltaOperation_insert
                (Cursor.mk (JS.Num 2) 5
                   (bytes [11; 2] ++ byte_of_Z 2 :: bytes [33; 34]))
                (bytes [11; 2]) (bytes [33; 34]) hello (byte_of_Z 2)
                eq_refl eq_refl ltac:(vm_compute; reflexivity)) as Hw.
  vm_compute in Hw |- *. exact Hw.
Defined.

(** ** Numbers in a delta *)

Lemma lor_disjoint (acc x s : Z) :
  0 <= s -> 0 <= acc < 2 ^ s -> Z.lor acc (Z.shiftl x s) = acc + x * 2 ^ s.
Proof.
  intros Hs Hacc.
  assert (Z.land acc (Z.shiftl x s) = 0) as Hland.
  { apply Z.bits_inj'. intros n Hn.
    rewrite Z.land_spec, Z.bits_0.
    destruct (Z.lt_ge_cases n s) as [Hlow|Hhigh].
    - rewrite Z.shiftl_spec_low by assumption. apply andb_false_r.
    - replace (Z.testbit acc n) with false; [reflexivity|].
      symmetry. destruct (Z.eq_dec acc 0) as [->|Hc0]; [apply Z.bits_0|].
      apply Z.bits_above_log2; [lia|].
      assert (Z.log2 acc < s); [|lia].
      apply Z.log2_lt_pow2; lia. }
  pose proof (Z.add_lor_land acc (Z.shiftl x s)) as Hadd.
  rewrite Hland, Z.shiftl_mul_pow2 in Hadd by lia.
  rewrite Z.shiftl_mul_pow2 by lia. lia.
Qed.

(** [acc | (c << s)] adds [c * 2 ^ s] when [acc] lies below bit [s] and
    the sum stays a positive 32-bit integer. *)
Lemma or_shl_add (acc c s : Z) :
  0 <= s < 32 -> 0 <= acc < 2 ^ s -> 0 <= c -> c * 2 ^ s < 2 ^ 31 ->
  JS.or acc (JS.shl c s) = acc + c * 2 ^ s.
Proof.
  intros Hs Hacc Hc Hsum.
  assert (0 < 2 ^ s) as Hpos by (apply Z.pow_pos_nonneg; lia).
  assert (2 ^ s <= 2 ^ 31) as Hle by (apply Z.pow_le_mono_r; lia).
  unfold JS.or, JS.shl.
  rewrite (Z.mod_small s 32) by lia.
  rewrite (toInt32_small acc) by lia.
  rewrite (toInt32_small c) by nia.
  assert (Z.shiftl c s = c * 2 ^ s) as Hshift
    by (apply Z.shiftl_mul_pow2; lia).
  rewrite !(toInt32_small (Z.shiftl c s)) by (rewrite Hshift; nia).
  rewrite lor_disjoint by lia.
  apply toInt32_small.
  assert (2 ^ 31 = 2 ^ s * 2 ^ (31 - s)) as Hsplit
    by (rewrite <- Z.pow_add_r by lia; f_equal; lia).
  assert (c < 2 ^ (31 - s)) as Hlt
    by (apply (Z.mul_lt_mono_pos_l (2 ^ s)); lia).
  nia.
Qed.

Lemma hd_tl (A : Type) (d : A) (l : list A) :
  l <> [] -> l = hd d l :: tl l.
Proof. destruct l; [congruence|reflexivity]. Qed.

Lemma readVariableLengthInt_loop_value (body : Buffer) (last : byte) :
  forall (n : nat) (c : Cursor.t) (result shift : Z) (pre post : Buffer),
    Cursor.buffer c = pre ++ tl (body ++ [last]) ++ post ->
    Cursor.position c = JS.Num (Z.of_nat (length pre)) ->
    Forall (fun b => 128 <= byteZ b) body -> byteZ last < 128 ->
    (length body < n)%nat ->
    0 <= shift -> shift + 7 * Z.of_nat (length body) <= 24 ->
    0 <= result < 2 ^ shift ->
    readVariableLengthInt_loop n c result shift
      (Some (byteZ (hd last (body ++ [last])))) =
    (result + 2 ^ shift * leb128 (body ++ [last]),
     Cursor.mk (JS.Num (Z.of_nat (length pre) + Z.of_nat (length body)))
       (Cursor.byteLength c) (Cursor.buffer c)).
Proof.
  induction body as [|b body IH];
    intros n c result shift pre post Hbuf Hpos Hbody Hlast Hn Hs Hmax Hres;
    (destruct n as [|n]; [cbn in Hn; lia|]);
    cbn [readVariableLengthInt_loop app hd JS.int_of];
    rewrite byte_high_bit, byte_low7;
    assert (0 < 2 ^ shift) as Hpow by (apply Z.pow_pos_nonneg; lia).
  - destruct (Z.leb_spec 128 (byteZ last)); [lia|].
    pose proof (low7_range last) as Hl.
    assert (2 ^ shift <= 2 ^ 24) as Hle by (apply Z.pow_le_mono_r; cbn in Hmax; lia).
    rewrite or_shl_add by (try lia; nia).
    cbn [leb128 fold_right length]. rewrite Z.add_0_r.
    destruct c as [p bl buf]. cbn [Cursor.position] in Hpos. subst p.
    cbn [Cursor.byteLength Cursor.buffer]. rewrite Z.add_0_r.
    f_equal. lia.
  - inversion Hbody as [|? ? Hb Hbody']; subst.
    destruct (Z.leb_spec 128 (byteZ b)); [|lia].
    pose proof (low7_range b) as Hl.
    cbn [length] in Hmax, Hn.
    assert (2 ^ shift <= 2 ^ 17) as Hle by (apply Z.pow_le_mono_r; lia).
    rewrite or_shl_add by (try lia; nia).
    cbn [tl app] in Hbuf.
    rewrite (hd_tl _ last (body ++ [last])) in Hbuf
      by (destruct body; discriminate).
    cbn [app] in Hbuf.
    rewrite (readByte_at c pre _ _ Hbuf Hpos).
    rewrite (IH n _ (result + low7 b * 2 ^ shift) (shift + 7)
               (pre ++ [hd last (body ++ [last])]) post);
      cbn [Cursor.buffer Cursor.position Cursor.byteLength];
      try assumption; try lia.
    + cbn [leb128 fold_right]. fold (leb128 (body ++ [last])).
      rewrite Z.pow_add_r by lia. rewrite length_app. cbn [length].
      f_equal; [change (2 ^ 7) with 128; ring|]. f_equal. f_equal. lia.
    + rewrite Hbuf, <- app_assoc. reflexivity.
    + rewrite length_app. cbn [length]. f_equal. lia.
    + rewrite Z.pow_add_r by lia. change (2 ^ 7) with 128. nia.
Qed.

(** [readVariableLengthInt] decodes a little-endian base-128 number of up to
    four bytes, every byte but the last with its high bit set: it returns
    the sum of the low seven bits of byte [i] times [128 ^ i] and leaves
    the cursor just after the last byte. *)
Theorem readVariableLengthInt_decodes_leb128
    (c : Cursor.t) (pre body post : Buffer) (last : byte) :
  Cursor.buffer c = pre ++ body ++ last :: post ->
  Cursor.position c = JS.Num (Z.of_nat (length pre)) ->
  Forall (fun b => 128 <= byteZ b) body -> byteZ last < 128 ->
  (length body <= 3)%nat ->
  readVariableLengthInt c =
  (leb128 (body ++ [last]),
   Cursor.mk (JS.Num (Z.of_nat (length pre) + Z.of_nat (length body) + 1))
     (Cursor.byteLength c) (Cursor.buffer c)).
Proof.
  intros Hbuf Hpos Hbody Hlast Hlen.
  assert (body ++ last :: post = (body ++ [last]) ++ post) as Happ
    by (rewrite <- app_assoc; reflexivity).
  assert (body ++ [last] <> []) as Hne by (destruct body; discriminate).
  unfold readVariableLengthInt.
  rewrite Happ, (hd_tl _ last (body ++ [last]) Hne) in Hbuf.
  cbn [app] in Hbuf.
  rewrite (readByte_at c pre _ _ Hbuf Hpos).
  rewrite (readVariableLengthInt_loop_value body last _ _ 0 0
             (pre ++ [hd last (body ++ [last])]) post);
    cbn [Cursor.buffer Cursor.position Cursor.byteLength];
    try assumption; try lia.
  - rewrite length_app. cbn [length]. f_equal; [lia|].
    f_equal. f_equal. lia.
  - rewrite Hbuf, <- app_assoc. reflexivity.
  - rewrite length_app. cbn [length]. f_equal. lia.
  - rewrite Hbuf, !length_app. cbn [length]. rewrite length_app.
    assert (length (body ++ [last]) = S (length (tl (body ++ [last]))))
      as Hl by (rewrite (hd_tl _ last (body ++ [last]) Hne) at 1;
                reflexivity).
    rewrite length_app in Hl. cbn [length] in Hl. lia.
Qed.

(** The two bytes [0x90 0x4E] are the number 10000. *)
Lemma readVariableLengthInt_decodes_leb128_witness :
  fst (readVariableLengthInt
         (Cursor.mk (JS.Num 1) 4 (bytes [7; 144; 78; 9]))) = 10000.
Proof.
  pose proof (readVariableLengthInt_decodes_leb128
                (Cursor.mk (JS.Num 1) 4 (bytes [7; 144; 78; 9]))
                (bytes [7]) (bytes [144]) (bytes [9]) (byte_of_Z 78)
                eq_refl eq_refl) as Hw.
  rewrite Hw; [vm_compute; reflexivity| | |cbn; lia].
  - repeat constructor. vm_compute. discriminate.
  - vm_compute. reflexivity.
Defined.

Lemma and_1_odd (mask : Z) :
  0 <= mask < 2 ^ 31 -> JS.truthy (JS.and mask 1) = Z.odd mask.
Proof.
  intros H. unfold JS.and, JS.truthy.
  rewrite (toInt32_small mask), (toInt32_small 1) by lia.
  change 1 with (Z.ones 1) at 1. rewrite Z.land_ones by lia.
  change (2 ^ 1) with 2. rewrite Zmod_odd.
  destruct (Z.odd mask); reflexivity.
Qed.

Lemma shr_1_half (mask : Z) :
  0 <= mask < 2 ^ 31 -> JS.shr mask 1 = mask / 2.
Proof.
  intros H. unfold JS.shr. rewrite (toInt32_small mask) by lia.
  change (1 mod 32) with 1. rewrite Z.shiftr_div_pow2 by lia.
  reflexivity.
Qed.

Lemma compactValue_nonneg (n : nat) :
  forall mask bs, 0 <= compactValue n mask bs.
Proof.
  induction n as [|n IH]; intros mask bs; cbn [compactValue]; [lia|].
  destruct (Z.odd mask).
  - destruct bs as [|b bs]; [lia|].
    pose proof (byteZ_range b). pose proof (IH (mask / 2) bs). lia.
  - pose proof (IH (mask / 2) bs). lia.
Qed.

Lemma readCompactNumber_loop_value (n : nat) :
  forall (c : Cursor.t) (mask acc shift : Z) (bs pre post : Buffer),
    Cursor.buffer c = pre ++ bs ++ post ->
    Cursor.position c = JS.Num (Z.of_nat (length pre)) ->
    0 <= mask < 2 ^ 31 -> length bs = presentBytes n mask ->
    0 <= shift -> shift + 8 * Z.of_nat n <= 32 -> 0 <= acc < 2 ^ shift ->
    acc + 2 ^ shift * compactValue n mask bs < 2 ^ 31 ->
    readCompactNumber_loop n c mask acc shift =
    (acc + 2 ^ shift * compactValue n mask bs,
     Cursor.mk (JS.Num (Z.of_nat (length pre) + Z.of_nat (length bs)))
       (Cursor.byteLength c) (Cursor.buffer c)).
Proof.
  induction n as [|n IH];
    intros c mask acc shift bs pre post Hbuf Hpos Hmask Hlen Hs Hmax Hacc
      Hsum;
    cbn [readCompactNumber_loop compactValue presentBytes] in *.
  - destruct bs; [|discriminate]. destruct c as [p bl buf].
    cbn [Cursor.position Cursor.byteLength Cursor.buffer length] in *.
    subst p. rewrite Z.add_0_r. f_equal. lia.
  - assert (0 < 2 ^ shift) as Hpow by (apply Z.pow_pos_nonneg; lia).
    assert (2 ^ (shift + 8) = 2 ^ shift * 256) as Hpow8
      by (rewrite Z.pow_add_r by lia; reflexivity).
    assert (0 <= mask / 2 < 2 ^ 31) as Hhalf
      by (split; [apply Z.div_pos; lia|apply Z.div_lt_upper_bound; lia]).
    rewrite and_1_odd, shr_1_half by assumption.
    destruct (Z.odd mask).
    + destruct bs as [|b bs]; [discriminate|].
      injection Hlen as Hlen.
      pose proof (byteZ_range b) as Hb.
      pose proof (compactValue_nonneg n (mask / 2) bs) as Hnn.
      cbn [app] in Hbuf.
      rewrite (readByte_at c pre _ _ Hbuf Hpos). cbn [JS.int_of].
      rewrite or_shl_add by (try lia; nia).
      rewrite (IH _ (mask / 2) (acc + byteZ b * 2 ^ shift) (shift + 8) bs
                 (pre ++ [b]) post);
        cbn [Cursor.buffer Cursor.position Cursor.byteLength];
        try assumption; try lia; try (rewrite Hpow8; nia);
        try (rewrite Hbuf, <- app_assoc; reflexivity);
        try (rewrite length_app; cbn [length]; f_equal; lia).
      rewrite Hpow8, length_app. cbn [length].
      f_equal; [ring|]. f_equal. f_equal. lia.
    + cbn [plus] in Hlen.
      rewrite (IH c (mask / 2) acc (shift + 8) bs pre post);
        try assumption; try lia; try (rewrite Hpow8; nia).
      rewrite Hpow8. f_equal. ring.
Qed.

Lemma byte_low4 (op : byte) : JS.and (byteZ op) 15 = byteZ op mod 16.
Proof. destruct op; vm_compute; reflexivity. Qed.

Lemma byte_bits654 (op : byte) :
  JS.shr (JS.and (byteZ op) 112) 4 = byteZ op / 16 mod 8.
Proof. destruct op; vm_compute; reflexivity. Qed.

(** A copy operation, an opcode of 128 or more: the low four bits of the
    opcode say which bytes of the little-endian offset follow, the next
    three bits which bytes of the little-endian size; the operation returns
    the [size] bytes of the source at [offset], as many as the source has,
    65536 standing for a size of 0, and moves the cursor past the opcode
    and the bytes that are present. *)
Theorem readDeltaOperation_copy
    (c : Cursor.t) (pre offs szs post source : Buffer) (op : byte) :
  Cursor.buffer c = pre ++ op :: offs ++ szs ++ post ->
  Cursor.position c = JS.Num (Z.of_nat (length pre)) ->
  128 <= byteZ op ->
  length offs = presentBytes 4 (byteZ op mod 16) ->
  length szs = presentBytes 3 (byteZ op / 16 mod 8) ->
  compactValue 4 (byteZ op mod 16) offs < 2 ^ 31 ->
  readDeltaOperation c source =
  (let offset := compactValue 4 (byteZ op mod 16) offs in
   let size := compactValue 3 (byteZ op / 16 mod 8) szs in
   firstn (Z.to_nat (if size =? 0 then 65536 else size))
     (skipn (Z.to_nat offset) source),
   Cursor.mk
     (JS.Num (Z.of_nat (length pre) + 1
              + Z.of_nat (length offs) + Z.of_nat (length szs)))
     (Cursor.byteLength c) (Cursor.buffer c)).
Proof.
  intros Hbuf Hpos Hop Hoffs Hszs Hoff.
  pose proof (byteZ_range op) as Hr.
  pose proof (compactValue_nonneg 4 (byteZ op mod 16) offs) as Hoff0.
  pose proof (compactValue_nonneg 3 (byteZ op / 16 mod 8) szs) as Hsz0.
  assert (0 <= byteZ op mod 16 < 16) as Hm1 by (apply Z.mod_pos_bound; lia).
  assert (0 <= byteZ op / 16 mod 8 < 8) as Hm2
    by (apply Z.mod_pos_bound; lia).
  unfold readDeltaOperation. rewrite (readByte_at c pre _ op Hbuf Hpos).
  cbn [JS.int_of]. rewrite byte_high_bit.
  destruct (Z.leb_spec 128 (byteZ op)); [|lia].
  rewrite byte_low4, byte_bits654.
  unfold readCompactNumber.
  rewrite (readCompactNumber_loop_value 4 _ _ 0 0 offs (pre ++ [op])
             (szs ++ post));
    cbn [Cursor.buffer Cursor.position Cursor.byteLength];
    [ | rewrite Hbuf, <- app_assoc; reflexivity
      | rewrite length_app; cbn [length]; f_equal; lia
      | lia | assumption | lia | lia | lia | lia ].
  change (2 ^ 0) with 1. rewrite Z.add_0_l, Z.mul_1_l.
  rewrite (readCompactNumber_loop_value 3 _ _ 0 0 szs (pre ++ [op] ++ offs)
             post);
    cbn [Cursor.buffer Cursor.position Cursor.byteLength];
    [ | rewrite Hbuf, <- !app_assoc; reflexivity
      | rewrite !length_app; cbn [length]; f_equal; lia
      | lia | assumption | lia | lia | lia | ].
  - change (2 ^ 0) with 1. rewrite Z.add_0_l, Z.mul_1_l.
    cbv zeta. f_equal.
    + rewrite subarray_slice
        by (destruct (compactValue 3 (byteZ op / 16 mod 8) szs =? 0); lia).
      f_equal. f_equal.
      destruct (compactValue 3 (byteZ op / 16 mod 8) szs =? 0); lia.
    + f_equal. f_equal. rewrite !length_app. cbn [length]. lia.
  - change (2 ^ 0) with 1. rewrite Z.add_0_l, Z.mul_1_l.
    clear - Hm2. revert Hm2. generalize (byteZ op / 16 mod 8). intros m Hm.
    assert (forall n mask bs, compactValue n mask bs < 256 ^ Z.of_nat n)
      as Hbound.
    { clear. induction n as [|n IH]; intros mask bs.
      - cbn. lia.
      - rewrite Nat2Z.inj_succ, Z.pow_succ_r by lia. cbn [compactValue].
        destruct (Z.odd mask).
        + destruct bs as [|b bs].
          * assert (0 < 256 ^ Z.of_nat n) by (apply Z.pow_pos_nonneg; lia).
            lia.
          * pose proof (byteZ_range b). pose proof (IH (mask / 2) bs). lia.
        + pose proof (IH (mask / 2) bs). lia. }
    pose proof (Hbound 3%nat m szs) as Hb3.
    change (256 ^ Z.of_nat 3) with 16777216 in Hb3. lia.
Qed.

(** The operation [0x91 0x06 0x05] copies five bytes at offset 6. *)
Lemma readDeltaOperation_copy_witness :
  fst (readDeltaOperation
         (Cursor.mk (JS.Num 2) 5 (bytes [11; 5; 145; 6; 5])) hello)
  = bytes [119; 111; 114; 108; 100].
Proof.
  pose proof (readDeltaOperation_copy
                (Cursor.mk (JS.Num 2) 5 (bytes [11; 5; 145; 6; 5]))
                (bytes [11; 5]) (bytes [6]) (bytes [5]) [] hello
                (byte_of_Z 145) eq_refl eq_refl
                ltac:(vm_compute; discriminate) eq_refl eq_refl
                ltac:(vm_compute; reflexivity)) as Hw.
  rewrite Hw. vm_compute. reflexivity.
Defined.

(** ** The target cursor *)

(** [copyFrom] on a target that holds [w] and has [free] left writes as
    much of the operation as fits after [w], drops the rest, keeps the
    size of the target, and returns [true] exactly when room is left
    after the copy. *)
Theorem copyFrom_reports_room (w free op : Buffer) :
  exists (more : bool) (c : Cursor.t),
    Cursor.copyFrom (targetAt w free) op = Ok (more, c)
    /\ Cursor.buffer c =
       w ++ firstn (length free) op ++ skipn (length op) free
    /\ length (Cursor.buffer c) = length (w ++ free)
    /\ Cursor.position c =
       JS.Num (Z.of_nat (length w + Nat.min (length op) (length free)))
    /\ (more = true <-> (length op < length free)%nat).
Proof.
  rewrite copyFrom_targetAt. eexists. eexists. split; [reflexivity|].
  unfold targetAt. cbn [Cursor.buffer Cursor.position].
  split; [rewrite <- app_assoc; reflexivity|].
  split; [|split].
  - rewrite !length_app, length_firstn, length_skipn. lia.
  - unfold Buf.byteLength. rewrite length_app, length_firstn.
    f_equal. f_equal. lia.
  - apply Nat.ltb_lt.
Qed.

(** ** The reader *)

Lemma peek_at (r : Reader.t) (n : Z) :
  0 <= Reader.offset r -> 0 <= n ->
  Reader.peek r n =
  Ok (firstn (Z.to_nat n) (skipn (Z.to_nat (Reader.offset r)) (Reader.fd r)),
      Reader.mk (Reader.fd r) (Reader.maxReadSize r) (Reader.offset r)
        (Reader.offset r :: Reader.reads r)).
Proof.
  intros Ho Hn. unfold Reader.peek, Buf.allocUnsafe, readSync.
  destruct (Z.ltb_spec n 0) as [|_]; [lia|]. cbn [bind].
  unfold Buf.byteLength. rewrite repeat_length, Z2Nat.id by lia.
  destruct (Z.ltb_spec n n) as [|_]; [lia|]. cbn [orb].
  destruct (Z.ltb_spec (Reader.offset r) 0) as [|_]; [lia|]. reflexivity.
Qed.

(** [peek] returns the bytes of the file at the reader's position, up to
    [n] of them, and leaves the position as it is; [read] returns the same
    bytes and moves the position past them. *)
Theorem peek_agrees_with_read (r : Reader.t) (n : Z) :
  0 <= Reader.offset r -> 0 <= n <= Reader.maxReadSize r ->
  exists data r1 r2,
    Reader.peek r n = Ok (data, r1) /\ Reader.read r n = Ok (data, r2)
    /\ data =
       firstn (Z.to_nat n) (skipn (Z.to_nat (Reader.offset r)) (Reader.fd r))
    /\ Reader.offset r1 = Reader.offset r
    /\ Reader.offset r2 = Reader.offset r + Z.of_nat (length data).
Proof.
  intros Ho Hn. rewrite peek_at, read_at by lia.
  eexists. eexists. eexists.
  split; [reflexivity|]. split; [reflexivity|]. split; [reflexivity|].
  split; reflexivity.
Qed.

Lemma peek_agrees_with_read_witness :
  exists r1 r2,
    Reader.peek (Reader.seek (Reader.new hello 20) 6) 3
    = Ok (bytes [119; 111; 114], r1)
    /\ Reader.read (Reader.seek (Reader.new hello 20) 6) 3
       = Ok (bytes [119; 111; 114], r2)
    /\ Reader.offset r1 = 6 /\ Reader.offset r2 = 9.
Proof.
  destruct (peek_agrees_with_read (Reader.seek (Reader.new hello 20) 6) 3
              ltac:(vm_compute; discriminate)
              ltac:(split; vm_compute; discriminate))
    as (data & r1 & r2 & Hpeek & Hread & Hdata & Ho1 & Ho2).
  exists r1, r2. subst data. vm_compute in Hpeek, Hread, Ho1, Ho2 |- *.
  split; [exact Hpeek|]. split; [exact Hread|]. split; assumption.
Defined.

Lemma readUInt32BE_cases (r : Reader.t) (d : Z) :
  Reader.readUInt32BE r d = Throw RangeError
  \/ exists v,
       Reader.readUInt32BE r d =
       Ok (v, Reader.mk (Reader.fd r) (Reader.maxReadSize r)
                (Reader.offset r + d + 4)
                ((Reader.offset r + d) :: Reader.reads r))
       /\ 0 <= Reader.offset r + d
       /\ Reader.offset r + d + 4 <= Z.of_nat (length (Reader.fd r)).
Proof.
  unfold Reader.readUInt32BE, Reader.read, Reader.seek, readSync.
  cbn [Reader.fd Reader.maxReadSize Reader.offset Reader.reads].
  destruct ((4 <? 0) || (Reader.maxReadSize r <? 4)); [left; reflexivity|].
  destruct (Reader.offset r + d <? 0) eqn:E; zbool; [left; reflexivity|].
  cbn [bind].
  remember (firstn (Z.to_nat 4)
              (skipn (Z.to_nat (Reader.offset r + d)) (Reader.fd r)))
    as data eqn:Hdata.
  assert (length data =
          Nat.min 4 (length (Reader.fd r) - Z.to_nat (Reader.offset r + d)))
    as Hlen by (subst data; rewrite length_firstn, length_skipn; lia).
  destruct data as [|b0 [|b1 [|b2 [|b3 [|b4 data]]]]];
    try (left; reflexivity); cbn [length] in Hlen; [|lia].
  right. eexists. cbn [Buf.readUInt32BE bind Buf.byteLength length].
  split; [f_equal; f_equal; f_equal; lia|]. lia.
Qed.

Lemma readUInt8_cases (r : Reader.t) (d : Z) :
  Reader.readUInt8 r d = Throw RangeError
  \/ exists v,
       Reader.readUInt8 r d =
       Ok (v, Reader.mk (Reader.fd r) (Reader.maxReadSize r)
                (Reader.offset r + d + 1)
                ((Reader.offset r + d) :: Reader.reads r))
       /\ 0 <= Reader.offset r + d
       /\ Reader.offset r + d + 1 <= Z.of_nat (length (Reader.fd r)).
Proof.
  unfold Reader.readUInt8, Reader.read, Reader.seek, readSync.
  cbn [Reader.fd Reader.maxReadSize Reader.offset Reader.reads].
  destruct ((1 <? 0) || (Reader.maxReadSize r <? 1)); [left; reflexivity|].
  destruct (Reader.offset r + d <? 0) eqn:E; zbool; [left; reflexivity|].
  cbn [bind].
  remember (firstn (Z.to_nat 1)
              (skipn (Z.to_nat (Reader.offset r + d)) (Reader.fd r)))
    as data eqn:Hdata.
  assert (length data =
          Nat.min 1 (length (Reader.fd r) - Z.to_nat (Reader.offset r + d)))
    as Hlen by (subst data; rewrite length_firstn, length_skipn; lia).
  destruct data as [|b0 [|b1 data]];
    try (left; reflexivity); cbn [length] in Hlen; [|lia].
  right. eexists. cbn [Buf.readUInt8 bind Buf.byteLength length].
  split; [f_equal; f_equal; f_equal; lia|]. lia.
Qed.

(** [readUInt32BE] reads back a number written in network byte order at
    the position it seeks to, and leaves the reader four bytes further. *)
Theorem readUInt32BE_round_trip
    (r : Reader.t) (d v : Z) (pre post : Buffer) :
  Reader.fd r = pre ++ be32 v ++ post ->
  Reader.offset r + d = Z.of_nat (length pre) ->
  4 <= Reader.maxReadSize r -> 0 <= v < 2 ^ 32 ->
  exists r',
    Reader.readUInt32BE r d = Ok (v, r')
    /\ Reader.offset r' = Z.of_nat (length pre) + 4
    /\ Reader.fd r' = Reader.fd r.
Proof.
  intros Hfd Hpos Hmax Hv.
  rewrite (readUInt32BE_at r d v) by
    (try lia;
     rewrite Hfd, Hpos, Nat2Z.id;
     rewrite <- (Nat.add_0_r (length pre)), skipn_app_exact;
     cbn [skipn]; rewrite <- (be32_length v); apply firstn_app_exact).
  eexists. split; [reflexivity|].
  cbn [Reader.offset Reader.fd]. split; [lia|reflexivity].
Qed.

Lemma readUInt32BE_round_trip_witness :
  exists r',
    Reader.readUInt32BE
      (Reader.new (bytes [1; 2] ++ be32 3000000000 ++ bytes [9]) 20) 2
    = Ok (3000000000, r')
    /\ Reader.offset r' = 6.
Proof.
  destruct (readUInt32BE_round_trip
              (Reader.new (bytes [1; 2] ++ be32 3000000000 ++ bytes [9]) 20)
              2 3000000000 (bytes [1; 2]) (bytes [9]) eq_refl eq_refl
              ltac:(vm_compute; discriminate)
              ltac:(split; vm_compute; [discriminate|reflexivity]))
    as (r' & Hread & Hoff & _).
  exists r'. split; [exact Hread|exact Hoff].
Defined.

(** A number that does not lie wholly inside the file is not read:
    [readUInt32BE] and [readUInt8] throw a RangeError when fewer than four
    bytes, or no byte, are left at the position they seek to. *)
Theorem read_number_past_end (r : Reader.t) (d : Z) :
  (Z.of_nat (length (Reader.fd r)) < Reader.offset r + d + 4 ->
   Reader.readUInt32BE r d = Throw RangeError)
  /\ (Z.of_nat (length (Reader.fd r)) < Reader.offset r + d + 1 ->
      Reader.readUInt8 r d = Throw RangeError).
Proof.
  split; intros Hshort.
  - destruct (readUInt32BE_cases r d) as [Hthrow|(v & _ & _ & Hin)];
      [exact Hthrow|lia].
  - destruct (readUInt8_cases r d) as [Hthrow|(v & _ & _ & Hin)];
      [exact Hthrow|lia].
Qed.

Lemma read_number_past_end_witness :
  Reader.readUInt32BE (Reader.new hello 20) 8 = Throw RangeError
  /\ Reader.readUInt8 (Reader.new hello 20) 11 = Throw RangeError.
Proof.
  split.
  - apply (proj1 (read_number_past_end (Reader.new hello 20) 8)).
    vm_compute. reflexivity.
  - apply (proj2 (read_number_past_end (Reader.new hello 20) 11)).
    vm_compute. reflexivity.
Defined.

(** ** The size in an object header *)

Lemma readByteLength_loop_value (body : Buffer) :
  forall (n : nat) (r : Reader.t) (acc shift : Z) (last : byte)
         (post : Buffer),
    0 <= Reader.offset r -> 1 <= Reader.maxReadSize r ->
    skipn (Z.to_nat (Reader.offset r)) (Reader.fd r) = body ++ last :: post ->
    Forall (fun b => 128 <= byteZ b) body -> byteZ last < 128 ->
    (length body < n)%nat ->
    0 <= shift -> shift + 7 * Z.of_nat (length body) <= 24 ->
    0 <= acc < 2 ^ shift ->
    exists r',
      readByteLength_loop n r acc shift =
        Ok (acc + 2 ^ shift * leb128 (body ++ [last]), r')
      /\ Reader.fd r' = Reader.fd r
      /\ Reader.offset r' = Reader.offset r + Z.of_nat (length body) + 1.
Proof.
  induction body as [|b body IH];
    intros n r acc shift last post Ho Hm Hskip Hbody Hlast Hn Hs Hmax Hacc;
    (destruct n as [|n]; [cbn in Hn; lia|]);
    cbn [readByteLength_loop];
    rewrite (readUInt8_at r _ _ Ho Hm Hskip); cbn [bind];
    rewrite byte_high_bit, byte_low7;
    assert (0 < 2 ^ shift) as Hpow by (apply Z.pow_pos_nonneg; lia);
    cbn [length] in Hmax.
  - destruct (Z.leb_spec 128 (byteZ last)); [lia|]. cbn [negb].
    pose proof (low7_range last) as Hl.
    assert (2 ^ shift <= 2 ^ 24) as Hle by (apply Z.pow_le_mono_r; lia).
    rewrite or_shl_add by (try lia; nia).
    cbn [app leb128 fold_right].
    replace (acc + 2 ^ shift * (low7 last + 128 * 0))
      with (acc + low7 last * 2 ^ shift) by ring.
    eexists. split; [reflexivity|].
    cbn [Reader.fd Reader.offset length]. split; [reflexivity|lia].
  - inversion Hbody as [|? ? Hb Hbody']; subst.
    destruct (Z.leb_spec 128 (byteZ b)); [|lia]. cbn [negb].
    pose proof (low7_range b) as Hl.
    assert (2 ^ shift <= 2 ^ 17) as Hle by (apply Z.pow_le_mono_r; lia).
    rewrite or_shl_add by (try lia; nia).
    assert (2 ^ (shift + 7) = 2 ^ shift * 128) as Hpow7
      by (rewrite Z.pow_add_r by lia; reflexivity).
    edestruct (IH n
                 (Reader.mk (Reader.fd r) (Reader.maxReadSize r)
                    (Reader.offset r + 1) (Reader.offset r :: Reader.reads r))
                 (acc + low7 b * 2 ^ shift) (shift + 7) last post)
      as (r' & Hr & Hfd & Hoff);
      cbn [Reader.fd Reader.maxReadSize Reader.offset]; try assumption;
      try lia; try (rewrite Hpow7; nia).
    + replace (Z.to_nat (Reader.offset r + 1))
        with (S (Z.to_nat (Reader.offset r))) by lia.
      eapply skipn_cons_tail. exact Hskip.
    + cbn in Hn. lia.
    + exists r'. rewrite Hr. cbn [Reader.fd Reader.offset] in Hfd, Hoff.
      split; [|split; [exact Hfd|rewrite Hoff; cbn [length]; lia]].
      cbn [app leb128 fold_right]. fold (leb128 (body ++ [last])).
      rewrite Hpow7. f_equal. f_equal. ring.
Qed.

(** The size in an object header is the low four bits of the first byte
    when its high bit is clear, and no byte is read; when the high bit is
    set, up to three more bytes, every one but the last with its high bit
    set, carry seven bits each above those four, low bits first. *)
Theorem readByteLength_decodes
    (r : Reader.t) (flags last : byte) (body post : Buffer) :
  (byteZ flags < 128 ->
   readByteLength r (byteZ flags) = Ok (byteZ flags mod 16, r))
  /\ (128 <= byteZ flags ->
      0 <= Reader.offset r -> 1 <= Reader.maxReadSize r ->
      skipn (Z.to_nat (Reader.offset r)) (Reader.fd r)
        = body ++ last :: post ->
      Forall (fun b => 128 <= byteZ b) body -> byteZ last < 128 ->
      (length body <= 2)%nat ->
      exists r',
        readByteLength r (byteZ flags) =
          Ok (byteZ flags mod 16 + 16 * leb128 (body ++ [last]), r')
        /\ Reader.fd r' = Reader.fd r
        /\ Reader.offset r' = Reader.offset r + Z.of_nat (length body) + 1).
Proof.
  unfold readByteLength. rewrite byte_high_bit, byte_low4.
  split.
  - intros Hflags. destruct (Z.leb_spec 128 (byteZ flags)); [lia|].
    reflexivity.
  - intros Hflags Ho Hm Hskip Hbody Hlast Hlen.
    destruct (Z.leb_spec 128 (byteZ flags)); [|lia].
    assert (0 <= byteZ flags mod 16 < 16) as Hlow
      by (apply Z.mod_pos_bound; lia).
    apply (readByteLength_loop_value body _ r (byteZ flags mod 16) 4 last
             post); try assumption; try lia.
    assert (length (skipn (Z.to_nat (Reader.offset r)) (Reader.fd r))
            <= length (Reader.fd r))%nat as Hle
      by (rewrite length_skipn; lia).
    rewrite Hskip, length_app in Hle. cbn [length] in Hle. lia.
Qed.

(** The header bytes [0x95 0x8e 0x01] carry the size 5 + 16 * (14 + 128). *)
Lemma readByteLength_decodes_witness :
  exists r',
    readByteLength (Reader.seek (Reader.new (bytes [149; 142; 1; 7]) 1) 1)
      149
    = Ok (2277, r')
    /\ Reader.offset r' = 3.
Proof.
  destruct (proj2 (readByteLength_decodes
                     (Reader.seek (Reader.new (bytes [149; 142; 1; 7]) 1) 1)
                     (byte_of_Z 149) (byte_of_Z 1) (bytes [142]) (bytes [7]))
              ltac:(vm_compute; discriminate)
              ltac:(vm_compute; discriminate)
              ltac:(vm_compute; discriminate)
              eq_refl
              ltac:(repeat constructor; vm_compute; discriminate)
              ltac:(vm_compute; reflexivity)
              ltac:(cbn; lia))
    as (r' & Hread & _ & Hoff).
  exists r'. split; [exact Hread|exact Hoff].
Defined.

(** ** Inflating and reading objects *)

Lemma byte_type_bits (b : byte) :
  JS.and (byteZ b) 112 = 16 * (byteZ b / 16 mod 8).
Proof. destruct b; vm_compute; reflexivity. Qed.

Section ObjectFacts.

Context `{Zlib}.

Arguments Inflater.inflate : simpl never.
Arguments applyOffsetDelta : simpl never.
Arguments parseVariableLengthQuantity : simpl never.
Arguments readByteLength : simpl never.
Arguments searchGitIndex : simpl never.
Arguments Reader.peek : simpl never.

Lemma inflate_chunk_no_input (fuel : nat) (z : zstream)
    (chunk output : Buffer) (inOffset outOffset totalInflated availOut : Z) :
  Inflater.inflate_chunk (S fuel) z chunk output inOffset outOffset
    totalInflated 0 availOut
  = Ok (z, output, (outOffset, totalInflated)).
Proof. reflexivity. Qed.

Lemma inflate_loop_starves (fuel : nat) :
  forall (z : zstream) (reader : Reader.t) (outSize chunkSize : Z)
         (output : Buffer) (totalInflated outOffset : Z),
    Z.of_nat (length (Reader.fd reader)) <= Reader.offset reader ->
    0 <= chunkSize -> totalInflated < outSize ->
    Inflater.inflate_loop fuel z reader outSize chunkSize output
      totalInflated outOffset = OutOfFuel.
Proof.
  induction fuel as [|fuel IH];
    intros z reader outSize chunkSize output totalInflated outOffset
      Heof Hchunk Hless; [reflexivity|].
  cbn [Inflater.inflate_loop].
  destruct (Z.ltb_spec totalInflated outSize) as [_|]; [|lia].
  rewrite peek_at by lia. cbn [bind].
  rewrite skipn_all2 by lia. rewrite firstn_nil.
  change (Buf.byteLength []) with 0.
  destruct fuel as [|fuel']; [reflexivity|].
  rewrite inflate_chunk_no_input. cbn [bind].
  apply IH; cbn [Reader.seek Reader.fd Reader.offset]; lia.
Qed.

(** At the end of the file, [inflate] with an output still to produce
    never returns: every chunk it reads is empty, and the loop goes on
    reading. *)
Theorem inflate_starves_at_end_of_file
    (i : Inflater.t) (reader : Reader.t) (outSize : Z) :
  Inflater.zlib i <> None ->
  Z.of_nat (length (Reader.fd reader)) <= Reader.offset reader ->
  0 < outSize ->
  forall fuel, Inflater.inflate fuel i reader outSize = OutOfFuel.
Proof.
  intros Hopen Heof Hsize fuel. unfold Inflater.inflate.
  destruct (Inflater.zlib i) as [z|]; [|congruence].
  unfold Buf.allocUnsafe.
  destruct (Z.ltb_spec outSize 0) as [|_]; [lia|]. cbn [bind].
  rewrite inflate_loop_starves by (unfold Z_MIN_CHUNK; lia).
  reflexivity.
Qed.

(** An object of size 0 is inflated to the empty buffer without a read;
    a negative size is refused with a RangeError. *)
Theorem inflate_without_output
    (fuel : nat) (i : Inflater.t) (reader : Reader.t) (outSize : Z) :
  Inflater.zlib i <> None ->
  (outSize = 0 ->
   exists i',
     Inflater.inflate (S fuel) i reader outSize = Ok ([], i', reader)
     /\ Inflater.zlib i' <> None
     /\ Inflater.closed i' = Inflater.closed i)
  /\ (outSize < 0 ->
      Inflater.inflate fuel i reader outSize = Throw RangeError).
Proof.
  intros Hopen. unfold Inflater.inflate.
  destruct (Inflater.zlib i) as [z|]; [|congruence].
  unfold Buf.allocUnsafe. split.
  - intros ->. cbn. eexists. split; [reflexivity|].
    cbn [Inflater.zlib Inflater.closed]. split; [discriminate|reflexivity].
  - intros Hneg. destruct (Z.ltb_spec outSize 0) as [_|]; [|lia].
    reflexivity.
Qed.

Lemma inflate_keeps_open (fuel : nat) (i i' : Inflater.t)
    (reader reader' : Reader.t) (outSize : Z) (output : Buffer) :
  Inflater.inflate fuel i reader outSize = Ok (output, i', reader') ->
  Inflater.zlib i <> None /\ Inflater.zlib i' <> None
  /\ Inflater.closed i' = Inflater.closed i.
Proof.
  unfold Inflater.inflate.
  destruct (Inflater.zlib i) as [z|]; [|discriminate].
  intros Hr. invert_ok.
  cbn [Inflater.zlib Inflater.closed].
  split; [discriminate|]. split; [discriminate|reflexivity].
Qed.

(** [readFromPack] returns an object only with an inflater that is open,
    and hands the inflater back open, the binding's [close()] not called:
    a closed inflater never yields an object. *)
Theorem readFromPack_keeps_inflater_open (packFd idxFd : Buffer)
    (fuel : nat) :
  forall (offset : Z) (inflater inflater' : Inflater.t) (r : PackObject),
    readFromPack fuel packFd idxFd offset inflater = Ok (r, inflater') ->
    Inflater.zlib inflater <> None
    /\ Inflater.zlib inflater' <> None
    /\ Inflater.closed inflater' = Inflater.closed inflater.
Proof.
  induction fuel as [|fuel IH]; intros offset inflater inflater' r Hr;
    [discriminate|].
  cbn [readFromPack] in Hr. cbv zeta in Hr.
  invert_step Hr. invert_step Hr.
  destruct (types (JS.and z 112)) as [t0|] eqn:Et; [|discriminate Hr].
  invert_step Hr. invert_step Hr.
  destruct t0; cbn [bind] in Hr.
  1-4: repeat (invert_step Hr; cbn [bind] in Hr);
       injection Hr as <- <-;
       match goal with
       | Hi : Inflater.inflate _ _ _ _ = Ok _ |- _ =>
           exact (inflate_keeps_open _ _ _ _ _ _ _ Hi)
       end.
  - (* an offset delta *)
    invert_step Hr. invert_ok.
    match goal with
    | Hbase : readFromPack fuel _ _ _ _ = Ok _ |- _ =>
        destruct (IH _ _ _ _ Hbase) as (Ho & Ho1 & Hc1)
    end.
    destruct p as [tp basep].
    injection Heqo1 as <- <- <- <-.
    match goal with
    | Hi : Inflater.inflate _ ?i3 _ _ = Ok (_, ?i6, _) |- _ =>
        assert (Inflater.closed i3 = Inflater.closed inflater) as Hc3;
        [|destruct (inflate_keeps_open _ _ _ _ _ _ _ Hi) as (_ & Ho2 & Hc2);
          assert (inflater' = i6) as ->
            by (destruct o2; invert_ok; reflexivity);
          split; [exact Ho|]; split; [exact Ho2|congruence]]
    end.
    destruct tp; try (injection Heqo3 as <- <- <- <-; exact Hc1).
    repeat (invert_step Heqo3; cbn [bind] in Heqo3).
    injection Heqo3 as <- <- <- <-.
    match goal with
    | Hbase : readFromPack fuel _ _ _ ?i8 = Ok (_, ?i3) |- _ =>
        destruct (IH _ _ _ _ Hbase) as (_ & _ & Hc4)
    end.
    congruence.
  - (* a ref delta *)
    repeat (invert_step Hr; cbn [bind] in Hr).
    all: repeat (invert_step Heqo1; cbn [bind] in Heqo1).
    all: match goal with
         | Hbase : readFromPack _ _ _ _ _ = Ok _ |- _ =>
             destruct (IH _ _ _ _ Hbase) as (Ho & Ho1 & Hc1)
         end.
    all: match goal with
         | Hi : Inflater.inflate _ _ _ _ = Ok _ |- _ =>
             destruct (inflate_keeps_open _ _ _ _ _ _ _ Hi)
               as (_ & Ho2 & Hc2)
         end.
    all: invert_ok.
    all: split; [exact Ho|]; split; [exact Ho2|congruence].
Qed.

Lemma readFromPack_unsupported (fuel : nat) (packFd idxFd : Buffer)
    (offset : Z) (inflater : Inflater.t) (b : byte) (rest : Buffer) :
  0 <= offset ->
  skipn (Z.to_nat offset) packFd = b :: rest ->
  byteZ b / 16 mod 8 = 0 \/ byteZ b / 16 mod 8 = 5 ->
  readFromPack (S fuel) packFd idxFd offset inflater =
  Throw (UnsupportedType (16 * (byteZ b / 16 mod 8))).
Proof.
  intros Hpos Hskip Hbits. cbn [readFromPack].
  rewrite (readUInt8_at (Reader.seek (Reader.new packFd 1) offset) b rest)
    by (cbn [Reader.seek Reader.new Reader.offset Reader.fd
               Reader.maxReadSize]; try lia; exact Hskip).
  cbn [bind]. cbv zeta. rewrite byte_type_bits.
  destruct Hbits as [-> | ->]; reflexivity.
Qed.

(** [readFromPack] at an offset at or after the end of the pack throws a
    RangeError, and on a header whose type bits are 0 or 5 it throws
    "Unsupported type" with those bits, before it reads anything else. *)
Theorem readFromPack_header_errors (fuel : nat) (packFd idxFd : Buffer)
    (offset : Z) (inflater : Inflater.t) :
  (Z.of_nat (length packFd) <= offset ->
   readFromPack (S fuel) packFd idxFd offset inflater = Throw RangeError)
  /\ (forall (b : byte) (rest : Buffer),
        0 <= offset ->
        skipn (Z.to_nat offset) packFd = b :: rest ->
        byteZ b / 16 mod 8 = 0 \/ byteZ b / 16 mod 8 = 5 ->
        readFromPack (S fuel) packFd idxFd offset inflater =
        Throw (UnsupportedType (16 * (byteZ b / 16 mod 8)))).
Proof.
  split.
  - intros Hout. cbn [readFromPack].
    destruct (readUInt8_cases (Reader.seek (Reader.new packFd 1) offset) 0)
      as [Hthrow|(v & _ & Hpos & Hin)].
    + rewrite Hthrow. reflexivity.
    + cbn [Reader.seek Reader.new Reader.offset Reader.fd] in Hpos, Hin.
      lia.
  - intros b rest. apply readFromPack_unsupported.
Qed.

Lemma readByteLength_loop_ok (body : Buffer) :
  forall (n : nat) (r : Reader.t) (acc shift : Z) (last : byte)
         (post : Buffer),
    0 <= Reader.offset r -> 1 <= Reader.maxReadSize r ->
    skipn (Z.to_nat (Reader.offset r)) (Reader.fd r) = body ++ last :: post ->
    Forall (fun b => 128 <= byteZ b) body -> byteZ last < 128 ->
    (length body < n)%nat ->
    exists v r',
      readByteLength_loop n r acc shift = Ok (v, r')
      /\ Reader.fd r' = Reader.fd r
      /\ Reader.offset r' = Reader.offset r + Z.of_nat (length body) + 1.
Proof.
  induction body as [|b body IH];
    intros n r acc shift last post Ho Hm Hskip Hbody Hlast Hn;
    (destruct n as [|n]; [cbn in Hn; lia|]);
    cbn [readByteLength_loop];
    rewrite (readUInt8_at r _ _ Ho Hm Hskip); cbn [bind];
    rewrite byte_high_bit.
  - destruct (Z.leb_spec 128 (byteZ last)); [lia|]. cbn [negb].
    eexists. eexists. split; [reflexivity|].
    cbn [Reader.fd Reader.offset length]. split; [reflexivity|lia].
  - inversion Hbody as [|? ? Hb Hbody']; subst.
    destruct (Z.leb_spec 128 (byteZ b)); [|lia]. cbn [negb].
    edestruct (IH n
                 (Reader.mk (Reader.fd r) (Reader.maxReadSize r)
                    (Reader.offset r + 1) (Reader.offset r :: Reader.reads r))
                 (JS.or acc (JS.shl (JS.and (byteZ b) 127) shift))
                 (shift + 7) last post)
      as (v & r' & Hr & Hfd & Hoff);
      cbn [Reader.fd Reader.maxReadSize Reader.offset]; try assumption;
      try lia.
    + replace (Z.to_nat (Reader.offset r + 1))
        with (S (Z.to_nat (Reader.offset r))) by lia.
      eapply skipn_cons_tail. exact Hskip.
    + cbn in Hn. lia.
    + exists v, r'. rewrite Hr. cbn [Reader.fd Reader.offset] in Hfd, Hoff.
      split; [reflexivity|]. split; [exact Hfd|].
      rewrite Hoff. cbn [length]. lia.
Qed.

(** The header of an object is read whatever its size: after the first
    byte and its size extension the reader stands on the byte that
    follows them. *)
Lemma readByteLength_ok (r : Reader.t) (flags : byte) (ext post : Buffer) :
  0 <= Reader.offset r -> 1 <= Reader.maxReadSize r ->
  skipn (Z.to_nat (Reader.offset r)) (Reader.fd r) = ext ++ post ->
  sizeExtension flags ext ->
  exists v r',
    readByteLength r (byteZ flags) = Ok (v, r')
    /\ Reader.fd r' = Reader.fd r
    /\ Reader.offset r' = Reader.offset r + Z.of_nat (length ext).
Proof.
  intros Ho Hm Hskip Hext. unfold readByteLength, sizeExtension in *.
  rewrite byte_high_bit.
  destruct (Z.leb_spec 128 (byteZ flags)).
  - destruct Hext as (body & last & -> & Hbody & Hlast).
    rewrite <- app_assoc in Hskip. cbn [app] in Hskip.
    destruct (readByteLength_loop_ok body (S (length (Reader.fd r))) r
                (JS.and (byteZ flags) 15) 4 last post Ho Hm Hskip Hbody
                Hlast) as (v & r' & Hr & Hfd & Hoff).
    + assert (length (skipn (Z.to_nat (Reader.offset r)) (Reader.fd r))
              <= length (Reader.fd r))%nat as Hle
        by (rewrite length_skipn; lia).
      rewrite Hskip, length_app in Hle. cbn [length] in Hle. lia.
    + exists v, r'. split; [exact Hr|]. split; [exact Hfd|].
      rewrite Hoff, length_app. cbn [length]. lia.
  - subst ext. eexists. eexists. split; [reflexivity|].
    split; [reflexivity|]. cbn [length]. lia.
Qed.

(** A ref delta whose base the index does not give, because the hash is
    not in it or its offset is 0, is not reported as such: the base is
    read at offset 0 of the pack, where the signature "PACK" stands, and
    the read fails with "Unsupported type 80". *)
Theorem readFromPack_missing_base (fuel : nat) (packFd idxFd : Buffer)
    (offset : Z) (inflater : Inflater.t) (flags : byte)
    (ext baseOid rest : Buffer) :
  0 <= offset ->
  skipn (Z.to_nat offset) packFd = flags :: ext ++ baseOid ++ rest ->
  byteZ flags / 16 mod 8 = 7 -> sizeExtension flags ext ->
  length baseOid = 20%nat ->
  searchGitIndex idxFd baseOid = Ok None ->
  firstn 4 packFd = bytes [80; 65; 67; 75] ->
  readFromPack (S (S fuel)) packFd idxFd offset inflater =
  Throw (UnsupportedType 80).
Proof.
  intros Hpos Hskip Hbits Hext Hlen Hsearch Hsig.
  remember (S fuel) as fuel1 eqn:Hfuel. cbn [readFromPack].
  rewrite (readUInt8_at (Reader.seek (Reader.new packFd 1) offset) flags _)
    by (cbn [Reader.seek Reader.new Reader.offset Reader.fd
               Reader.maxReadSize]; try lia; exact Hskip).
  cbn [bind]. cbv zeta. rewrite byte_type_bits, Hbits.
  change (types (16 * 7)) with (Some ref_delta). cbv iota.
  match goal with
  | |- bind (readByteLength ?r _) _ = _ =>
      destruct (readByteLength_ok r flags ext (baseOid ++ rest))
        as (size & r1 & -> & Hfd & Hoff);
        cbn [Reader.fd Reader.offset Reader.maxReadSize Reader.seek
             Reader.new]; try lia; try assumption
  end.
  - match goal with
    | |- skipn (Z.to_nat ?z) _ = _ =>
        replace (Z.to_nat z) with (S (Z.to_nat offset)) by lia
    end.
    eapply skipn_cons_tail. exact Hskip.
  - cbn [Reader.fd Reader.offset Reader.seek Reader.new] in Hfd, Hoff.
    cbn [bind].
    rewrite peek_at by lia. cbn [bind].
    assert (firstn (Z.to_nat 20) (skipn (Z.to_nat (Reader.offset r1))
                                    (Reader.fd r1)) = baseOid) as ->.
    { rewrite Hfd, Hoff.
      match goal with
      | |- firstn _ (skipn (Z.to_nat ?z) _) = _ =>
          replace (Z.to_nat z) with (length ext + S (Z.to_nat offset))%nat
            by lia
      end.
      rewrite <- skipn_skipn.
      rewrite (skipn_cons_tail _ _ _ _ Hskip).
      rewrite <- (Nat.add_0_r (length ext)), skipn_app_exact.
      cbn [skipn]. change (Z.to_nat 20) with 20%nat.
      rewrite <- Hlen. apply firstn_app_exact. }
    rewrite Hsearch. cbn [bind]. subst fuel1.
    destruct packFd as [|p packRest]; [discriminate|].
    injection Hsig as -> _.
    rewrite (readFromPack_unsupported fuel _ idxFd 0 inflater
               (byte_of_Z 80) packRest); [reflexivity|lia|reflexivity|].
    right. vm_compute. reflexivity.
Qed.

End ObjectFacts.

Lemma inflate_starves_at_end_of_file_witness :
  @Inflater.inflate storedZlib 1000 Inflater.new
    (Reader.seek (Reader.new samplePack 1) 200) 3 = OutOfFuel.
Proof.
  apply (@inflate_starves_at_end_of_file storedZlib).
  - discriminate.
  - vm_compute. discriminate.
  - reflexivity.
Defined.

Lemma inflate_without_output_witness :
  (exists i',
     @Inflater.inflate storedZlib 1 Inflater.new (Reader.new samplePack 1) 0
     = Ok ([], i', Reader.new samplePack 1))
  /\ @Inflater.inflate storedZlib 1 Inflater.new (Reader.new samplePack 1)
       (-1) = Throw RangeError.
Proof.
  destruct (@inflate_without_output storedZlib 0 Inflater.new
              (Reader.new samplePack 1) 0 ltac:(discriminate))
    as [Hzero _].
  destruct (@inflate_without_output storedZlib 1 Inflater.new
              (Reader.new samplePack 1) (-1) ltac:(discriminate))
    as [_ Hneg].
  split.
  - destruct (Hzero eq_refl) as (i' & Hi & _). exists i'. exact Hi.
  - apply Hneg. reflexivity.
Defined.

Lemma readFromPack_keeps_inflater_open_witness :
  exists r inflater',
    @readFromPack storedZlib 10 samplePack sampleIdx 16 Inflater.new
    = Ok (r, inflater')
    /\ @Inflater.zlib storedZlib inflater' <> None
    /\ @Inflater.closed storedZlib inflater' = 0%nat.
Proof.
  destruct (@readFromPack storedZlib 10 samplePack sampleIdx 16 Inflater.new)
    as [[r inflater']| |] eqn:Hread;
    [|vm_compute in Hread; discriminate Hread
     |vm_compute in Hread; discriminate Hread].
  exists r, inflater'. split; [reflexivity|].
  destruct (@readFromPack_keeps_inflater_open storedZlib samplePack sampleIdx
              10 16 Inflater.new inflater' r Hread) as (_ & Hopen & Hclosed).
  split; [exact Hopen|exact Hclosed].
Defined.

Lemma readFromPack_header_errors_witness :
  @readFromPack storedZlib 1 samplePack sampleIdx 200 Inflater.new
  = Throw RangeError
  /\ @readFromPack storedZlib 1 samplePack sampleIdx 4 Inflater.new
     = Throw (UnsupportedType 0).
Proof.
  destruct (@readFromPack_header_errors storedZlib 0 samplePack sampleIdx 200
              Inflater.new) as [Hout _].
  destruct (@readFromPack_header_errors storedZlib 0 samplePack sampleIdx 4
              Inflater.new) as [_ Hbits].
  split.
  - apply Hout. vm_compute. discriminate.
  - apply (Hbits x00 (bytes [0; 0; 2; 0; 0; 0; 4]
                        ++ skipn 12 samplePack)).
    + lia.
    + vm_compute. reflexivity.
    + left. vm_compute. reflexivity.
Defined.

(** ** Failures of the index lookup *)






Lemma getOidFromIdx_truncated (oid : Buffer) (reader : Reader.t) :
  Reader.offset reader = 8 ->
  (length (Reader.fd reader) < 1032)%nat ->
  getOidFromIdx oid reader = Throw RangeError.
Proof.
  intros Hoff8 Hshort. unfold getOidFromIdx.
  destruct (Buf.get oid (JS.Num 0)) as [first|]; [|reflexivity].
  assert (forall reader1 start,
            Reader.fd reader1 = Reader.fd reader ->
            Reader.offset reader1 = 8 + 4 * first ->
            ('(end_, reader) <- Reader.readUInt32BE reader1 0 ;;
             let length := end_ - start in
             let reader := Reader.seek reader (4 * (255 - first - 1)) in
             '(hashTableLength, reader) <- Reader.readUInt32BE reader 0 ;;
             let reader := Reader.seek reader (20 * start) in
             getOidFromIdx_scan (Z.to_nat length) 0 oid reader
               hashTableLength start) = Throw RangeError) as Hrest.
  { intros reader1 start Hfd Hoff.
    destruct (readUInt32BE_cases reader1 0) as [->|(end_ & -> & _ & _)];
      [reflexivity|].
    cbn [bind]. cbv zeta.
    match goal with
    | |- bind (Reader.readUInt32BE ?r 0) _ = _ =>
        destruct (readUInt32BE_cases r 0) as [->|(len & _ & _ & Hin)];
          [reflexivity|]
    end.
    cbn [Reader.seek Reader.offset Reader.fd] in Hin.
    rewrite Hfd, Hoff in Hin. lia. }
  destruct (Z.eqb_spec first 0) as [->|Hfirst]; cbn [bind].
  - apply Hrest; [reflexivity|]. rewrite Hoff8. reflexivity.
  - destruct (readUInt32BE_cases reader (4 * (first - 1)))
      as [->|(start & -> & _ & _)]; [reflexivity|].
    cbn [bind]. apply Hrest; cbn [Reader.fd Reader.offset]; [reflexivity|].
    lia.
Qed.

(** An index that ends inside its fan-out table is not searched: with the
    right signature and fewer than 1032 bytes, the lookup of any hash
    that is not empty throws a RangeError. *)
Theorem searchGitIndex_truncated (fd oid : Buffer) :
  firstn 8 fd = idxV2 -> (length fd < 1032)%nat -> oid <> [] ->
  searchGitIndex fd oid = Throw RangeError.
Proof.
  intros Hsig Hshort _. unfold searchGitIndex.
  rewrite read_at
    by (cbn [Reader.new Reader.offset Reader.maxReadSize]; lia).
  cbn [bind Reader.new Reader.offset Reader.maxReadSize Reader.fd
       Reader.reads].
  change (firstn (Z.to_nat 8) (skipn (Z.to_nat 0) fd)) with (firstn 8 fd).
  rewrite Hsig.
  destruct (Buf.equals idxV2 idxV2) eqn:E;
    [|apply equals_false in E; congruence].
  cbn [negb]. rewrite getOidFromIdx_truncated; [reflexivity| |exact Hshort].
  reflexivity.
Qed.

Lemma searchGitIndex_truncated_witness :
  searchGitIndex (firstn 1000 sampleIdx) (sampleHash 3) = Throw RangeError.
Proof.
  apply searchGitIndex_truncated.
  - vm_compute. reflexivity.
  - rewrite length_firstn. apply Nat.lt_le_trans with (m := 1001%nat);
      [|lia].
    apply Nat.lt_succ_r, Nat.le_min_l.
  - discriminate.
Defined.

(** ** The lookup, end to end *)

Lemma string_length_append (a b : String.string) :
  String.length (String.append a b) = (String.length a + String.length b)%nat.
Proof. induction a as [|c a IH]; cbn; [reflexivity|]. rewrite IH. reflexivity. Qed.

Lemma substring_append_skip (a b : String.string) (m : nat) :
  String.substring (String.length a) m (String.append a b)
  = String.substring 0 m b.
Proof. induction a as [|c a IH]; cbn; [reflexivity|exact IH]. Qed.

Lemma substring_append_take (a b : String.string) :
  String.substring 0 (String.length a) (String.append a b) = a.
Proof.
  induction a as [|c a IH]; cbn; [destruct b; reflexivity|].
  rewrite IH. reflexivity.
Qed.

Lemma endsWith_idx (base : String.string) :
  endsWith (String.append base ".idx"%string) ".idx"%string = true.
Proof.
  unfold endsWith. rewrite string_length_append.
  change (String.length ".idx"%string) with 4%nat.
  replace (String.length base + 4 - 4)%nat with (String.length base) by lia.
  rewrite substring_append_skip.
  destruct (Nat.leb_spec 4 (String.length base + 4)); [|lia].
  reflexivity.
Qed.

Lemma replaceIdxSuffix_idx (base : String.string) :
  replaceIdxSuffix (String.append base ".idx"%string)
  = String.append base ".pack"%string.
Proof.
  unfold replaceIdxSuffix. rewrite endsWith_idx, string_length_append.
  change (String.length ".idx"%string) with 4%nat.
  replace (String.length base + 4 - 4)%nat with (String.length base) by lia.
  rewrite substring_append_take. reflexivity.
Qed.

Lemma searchGitIndex_zero (hashes : list Buffer) (crcs : Buffer)
    (offsets : list Z) (trailer : Buffer) (i : nat) :
  wellFormedIdx hashes crcs offsets ->
  (i < length hashes)%nat -> nth i offsets 0 = 0 ->
  searchGitIndex (mkIdx hashes crcs offsets trailer) (nth i hashes [])
  = Ok None.
Proof.
  intros Hwf Hi Hzero.
  pose proof (hash_length hashes crcs offsets Hwf i Hi) as Hlen.
  destruct (nth i hashes []) as [|b0 rest] eqn:Eh; [discriminate|].
  rewrite searchGitIndex_idx.
  destruct (getOidFromIdx_spec hashes crcs offsets trailer Hwf b0 rest [0])
    as (res & r' & Hrun & _ & Hfound & _).
  rewrite Hrun. cbn [bind]. rewrite (Hfound i Hi Eh), Hzero. reflexivity.
Qed.

Lemma searchGitIndex_cut_short (fd oid : Buffer) :
  firstn 8 fd = idxV2 -> (length fd < 1032)%nat ->
  searchGitIndex fd oid = Throw RangeError.
Proof.
  intros Hsig Hshort. unfold searchGitIndex.
  rewrite read_at
    by (cbn [Reader.new Reader.offset Reader.maxReadSize]; lia).
  cbn [bind Reader.new Reader.offset Reader.maxReadSize Reader.fd
       Reader.reads].
  change (firstn (Z.to_nat 8) (skipn (Z.to_nat 0) fd)) with (firstn 8 fd).
  rewrite Hsig.
  destruct (Buf.equals idxV2 idxV2) eqn:E;
    [|apply equals_false in E; congruence].
  cbn [negb]. rewrite getOidFromIdx_truncated; [reflexivity| |exact Hshort].
  reflexivity.
Qed.

Lemma lacksHash_passedOver (fs : FileSystem) (oid : Buffer) (d : Dirent) :
  length oid = 20%nat -> lacksHash fs oid d -> passedOver fs oid d.
Proof.
  intros Hlen
    [Hskip|(hashes & crcs & offsets & trailer & Hfile & Hwf & Hnot)];
    [left; exact Hskip|].
  right. eexists. split; [exact Hfile|].
  apply searchGitIndex_absent; assumption.
Qed.

Lemma givesNoOffset_passedOver (fs : FileSystem) (oid : Buffer)
    (d : Dirent) :
  length oid = 20%nat -> givesNoOffset fs oid d -> passedOver fs oid d.
Proof.
  intros Hlen
    [Hlacks
    |(hashes & crcs & offsets & trailer & i & Hfile & Hwf & Hi & Hoid
      & Hzero)];
    [apply lacksHash_passedOver; assumption|].
  right. eexists. split; [exact Hfile|]. subst oid.
  apply searchGitIndex_zero; assumption.
Qed.

Section BadIndexFacts.

Context `{Zlib}.

(** C2 (as the code has it): the scan passes over directories, files
    whose name does not end in [.idx] and well-formed indexes that do not
    hold the 20-byte hash, and goes on with the entries after them; but at
    the first index that cannot be opened, has a wrong signature or ends
    inside its fan-out table the whole lookup returns [null], whatever
    the entries after it hold. *)
Theorem C2_bad_index_ends_the_lookup (fuel : nat) (fs : FileSystem)
    (oid : Buffer) (skipped rest : list Dirent) (dirent : Dirent) :
  length oid = 20%nat ->
  Forall (lacksHash fs oid) skipped ->
  getCommitFromPackFile_scan fuel fs oid (skipped ++ rest) =
    getCommitFromPackFile_scan fuel fs oid rest
  /\ (packDir fs = Some (skipped ++ dirent :: rest) ->
      isDirectory dirent = false ->
      endsWith (name dirent) ".idx"%string = true ->
      files fs (name dirent) = None
      \/ (exists indexFd,
            files fs (name dirent) = Some indexFd
            /\ (firstn 8 indexFd <> idxV2
                \/ (length indexFd < 1032)%nat)) ->
      getCommitFromPackFile fuel fs oid = Ok None).
Proof.
  intros Hlen Hskipped.
  assert (Forall (passedOver fs oid) skipped) as Hpassed
    by (eapply Forall_impl; [|exact Hskipped];
        intros d; apply lacksHash_passedOver; exact Hlen).
  split; [apply scan_passes_over, Hpassed|].
  intros Hdir Hfile Hidx Hbad.
  unfold getCommitFromPackFile, opendirSync. rewrite Hdir. cbn [bind].
  rewrite scan_passes_over by assumption.
  cbn [getCommitFromPackFile_scan]. rewrite Hfile, Hidx. cbn [orb negb].
  unfold openSync.
  destruct Hbad as [Hnone|(indexFd & Hopen & Hcut)].
  - rewrite Hnone. reflexivity.
  - rewrite Hopen. cbn [bind].
    destruct (list_eq_dec Byte.byte_eq_dec (firstn 8 indexFd) idxV2)
      as [Hsig|Hsig].
    + destruct Hcut as [Hwrong|Hshort]; [contradiction|].
      rewrite searchGitIndex_cut_short by assumption. reflexivity.
    + rewrite searchGitIndex_wrong_signature by assumption. reflexivity.
Qed.

End BadIndexFacts.

Lemma emptyIdx_wellFormed : wellFormedIdx [] [] [].
Proof.
  unfold wellFormedIdx.
  split; [apply Forall_nil|]. split; [reflexivity|].
  split; [reflexivity|]. split; [reflexivity|].
  split; [apply Forall_nil|]. cbn [length]. lia.
Qed.

(** The directory [badBeforeGood]: a subdirectory, a text file and an
    index of no object are passed over; the index with a wrong signature
    that follows ends the lookup, though the index after it holds the
    hash. *)
Lemma C2_witness :
  @getCommitFromPackFile_scan storedZlib 10 badBeforeGood (sampleHash 0)
    ([mkDirent "sub"%string true; mkDirent "notes.txt"%string false;
      mkDirent "empty.idx"%string false]
       ++ [mkDirent "good.idx"%string false])
  = @getCommitFromPackFile_scan storedZlib 10 badBeforeGood (sampleHash 0)
      [mkDirent "good.idx"%string false]
  /\ @getCommitFromPackFile storedZlib 10 badBeforeGood (sampleHash 0)
     = Ok None.
Proof.
  assert (Forall (lacksHash badBeforeGood (sampleHash 0))
            [mkDirent "sub"%string true; mkDirent "notes.txt"%string false;
             mkDirent "empty.idx"%string false]) as Hskipped.
  { apply Forall_cons; [left; reflexivity|].
    apply Forall_cons; [left; vm_compute; reflexivity|].
    apply Forall_cons; [|apply Forall_nil].
    right. exists [], [], [], [].
    split; [reflexivity|]. split; [exact emptyIdx_wellFormed|].
    intros []. }
  split.
  - apply (@C2_bad_index_ends_the_lookup storedZlib 10 badBeforeGood
             (sampleHash 0) _ [mkDirent "good.idx"%string false]
             (mkDirent "bad.idx"%string false) eq_refl Hskipped).
  - apply (proj2 (@C2_bad_index_ends_the_lookup storedZlib 10 badBeforeGood
                    (sampleHash 0) _ [mkDirent "good.idx"%string false]
                    (mkDirent "bad.idx"%string false) eq_refl Hskipped)).
    + reflexivity.
    + reflexivity.
    + vm_compute. reflexivity.
    + right. eexists. split; [vm_compute; reflexivity|].
      left. vm_compute. discriminate.
Defined.

Section LookupFacts.

Context `{Zlib}.

Variables (hashes : list Buffer) (crcs : Buffer) (offsets : list Z)
          (trailer : Buffer).
Hypothesis Hwf : wellFormedIdx hashes crcs offsets.

Local Abbreviation idx := (mkIdx hashes crcs offsets trailer).

(** [getOidFromIdx] on a well-formed index, called as [searchGitIndex]
    calls it: it returns the offset stored for a hash of the index, an
    offset of 0 too, and [undefined] for a hash that is not in the index. *)
Theorem getOidFromIdx_finds_every_hash (i : nat) (x : Buffer) :
  ((i < length hashes)%nat ->
   exists r',
     getOidFromIdx (nth i hashes []) (Reader.mk idx 20 8 [0])
     = Ok (Some (nth i offsets 0), r'))
  /\ (~ In x hashes -> x <> [] ->
      exists r', getOidFromIdx x (Reader.mk idx 20 8 [0]) = Ok (None, r')).
Proof.
  split.
  - intros Hi.
    pose proof (hash_length hashes crcs offsets Hwf i Hi) as Hlen.
    destruct (nth i hashes []) as [|b0 rest] eqn:Eh; [discriminate|].
    destruct (getOidFromIdx_spec hashes crcs offsets trailer Hwf b0 rest [0])
      as (res & r' & Hrun & _ & Hfound & _).
    exists r'. rewrite Hrun, (Hfound i Hi Eh). reflexivity.
  - intros Hnot Hne. destruct x as [|b0 rest]; [congruence|].
    destruct (getOidFromIdx_spec hashes crcs offsets trailer Hwf b0 rest [0])
      as (res & r' & Hrun & _ & _ & Habsent).
    exists r'. rewrite Hrun, (Habsent Hnot). reflexivity.
Qed.

(** The first index that gives an offset for the hash decides the lookup:
    after directories, files whose name does not end in [.idx] and
    well-formed indexes that do not hold the hash or hold it with the
    offset 0, at a well-formed index that holds the hash with an offset
    other than 0 [getCommitFromPackFile] reads the pack named like that
    index at that offset, whatever entries come after; it returns the
    data of the object read there, and [null] when the pack cannot be
    opened or the read throws. *)
Theorem getCommitFromPackFile_reads_first_match
    (fuel : nat) (fs : FileSystem) (base : String.string)
    (skipped rest : list Dirent) (i : nat) :
  packDir fs =
    Some (skipped
            ++ mkDirent (String.append base ".idx"%string) false :: rest) ->
  Forall (givesNoOffset fs (nth i hashes [])) skipped ->
  files fs (String.append base ".idx"%string) = Some idx ->
  (i < length hashes)%nat -> nth i offsets 0 <> 0 ->
  getCommitFromPackFile fuel fs (nth i hashes []) =
  match files fs (String.append base ".pack"%string) with
  | None => Ok None
  | Some packFd =>
      match readFromPack fuel packFd idx (nth i offsets 0) Inflater.new with
      | Ok (object, _) => Ok (Some object.(data))
      | Throw _ => Ok None
      | OutOfFuel => OutOfFuel
      end
  end.
Proof.
  intros Hdir Hskipped Hidx Hi Hnz.
  assert (Forall (passedOver fs (nth i hashes [])) skipped) as Hpassed
    by (eapply Forall_impl; [|exact Hskipped];
        intros d; apply givesNoOffset_passedOver;
        exact (hash_length hashes crcs offsets Hwf i Hi)).
  unfold getCommitFromPackFile, opendirSync. rewrite Hdir. cbn [bind].
  rewrite scan_passes_over by assumption.
  cbn [getCommitFromPackFile_scan name isDirectory].
  rewrite endsWith_idx. cbn [orb negb].
  unfold openSync at 1. rewrite Hidx. cbn [bind].
  rewrite (searchGitIndex_present hashes crcs offsets trailer Hwf i Hi Hnz).
  cbn [bind]. rewrite replaceIdxSuffix_idx. unfold openSync.
  destruct (files fs (String.append base ".pack"%string)) as [packFd|];
    [|reflexivity].
  cbn [bind].
  destruct (readFromPack fuel packFd idx (nth i offsets 0) Inflater.new)
    as [[object inflater]| |]; reflexivity.
Qed.

End LookupFacts.

Section AbsentFacts.

Context `{Zlib}.

(** A directory in which every entry is a directory, a file that is not
    an index, or a well-formed index that does not hold the hash: the
    lookup returns [null]. *)
Theorem getCommitFromPackFile_absent
    (fuel : nat) (fs : FileSystem) (oid : Buffer) (dir : list Dirent) :
  packDir fs = Some dir -> length oid = 20%nat ->
  Forall
    (fun d =>
       isDirectory d || negb (endsWith (name d) ".idx"%string) = true
       \/ exists hashes crcs offsets trailer,
            files fs (name d) = Some (mkIdx hashes crcs offsets trailer)
            /\ wellFormedIdx hashes crcs offsets
            /\ ~ In oid hashes) dir ->
  getCommitFromPackFile fuel fs oid = Ok None.
Proof.
  intros Hdir Hlen Hall.
  unfold getCommitFromPackFile, opendirSync. rewrite Hdir. cbn [bind].
  rewrite <- (app_nil_r dir), scan_passes_over; [reflexivity|].
  eapply Forall_impl; [|exact Hall].
  intros d [Hskip|(hashes & crcs & offsets & trailer & Hfile & Hwf & Hnot)];
    [left; exact Hskip|].
  right. eexists. split; [exact Hfile|].
  apply searchGitIndex_absent; assumption.
Qed.

End AbsentFacts.

Lemma getOidFromIdx_finds_every_hash_witness :
  exists r',
    getOidFromIdx (sampleHash 3) (Reader.mk zeroOffsetIdx 20 8 [0])
    = Ok (Some 0, r').
Proof.
  exact (proj1 (getOidFromIdx_finds_every_hash
                  [sampleHash 0; sampleHash 3; sampleHash 200]
                  (repeat x00 12) [12; 0; 22] []
                  (sample_wellFormed [12; 0; 22] eq_refl
                     ltac:(repeat constructor; lia))
                  1%nat []) ltac:(cbn; lia)).
Defined.

(** The directory [goodBeforeBad], searched for [sampleHash 3]: a
    subdirectory, a text file, an index of no object and an index that
    holds the hash with the offset 0 come before the sample index, which
    gives 16; an index with a wrong signature comes after it. *)
Lemma getCommitFromPackFile_reads_first_match_witness :
  @getCommitFromPackFile storedZlib 10 goodBeforeBad (sampleHash 3)
  = Ok (Some (bytes [97; 98; 99])).
Proof.
  assert (wellFormedIdx [sampleHash 0; sampleHash 3; sampleHash 200]
            (repeat x00 12) [12; 0; 22]) as Hzero
    by (apply sample_wellFormed; [reflexivity|repeat constructor; lia]).
  assert (Forall (givesNoOffset goodBeforeBad (sampleHash 3))
            [mkDirent "sub"%string true; mkDirent "notes.txt"%string false;
             mkDirent "empty.idx"%string false;
             mkDirent "zero.idx"%string false]) as Hskipped.
  { apply Forall_cons; [left; left; reflexivity|].
    apply Forall_cons; [left; left; vm_compute; reflexivity|].
    apply Forall_cons.
    - left. right. exists [], [], [], [].
      split; [reflexivity|]. split; [exact emptyIdx_wellFormed|].
      intros [].
    - apply Forall_cons; [|apply Forall_nil].
      right. exists [sampleHash 0; sampleHash 3; sampleHash 200].
      exists (repeat x00 12), [12; 0; 22], [], 1%nat.
      split; [reflexivity|]. split; [exact Hzero|].
      split; [cbn; lia|]. split; reflexivity. }
  pose proof (@getCommitFromPackFile_reads_first_match storedZlib
                [sampleHash 0; sampleHash 3; sampleHash 200]
                (repeat x00 12) [12; 16; 22] []
                (sample_wellFormed [12; 16; 22] eq_refl
                   ltac:(repeat constructor; lia))
                10 goodBeforeBad "good"%string
                [mkDirent "sub"%string true;
                 mkDirent "notes.txt"%string false;
                 mkDirent "empty.idx"%string false;
                 mkDirent "zero.idx"%string false]
                [mkDirent "bad.idx"%string false] 1%nat
                eq_refl Hskipped eq_refl
                ltac:(cbn; lia) ltac:(cbn; lia)) as Hw.
  vm_compute in Hw |- *. exact Hw.
Defined.

Lemma getCommitFromPackFile_absent_witness :
  @getCommitFromPackFile storedZlib 10 goodOnly (sampleHash 7) = Ok None.
Proof.
  apply (@getCommitFromPackFile_absent storedZlib 10 goodOnly (sampleHash 7)
           [mkDirent "good.idx"%string false]);
    [reflexivity|reflexivity|].
  apply Forall_cons; [|apply Forall_nil].
  right. exists [sampleHash 0; sampleHash 3; sampleHash 200].
  exists (repeat x00 12), [12; 16; 22], [].
  split; [reflexivity|]. split.
  - apply sample_wellFormed; [reflexivity|repeat constructor; lia].
  - cbn [In]. intros [Hin|[Hin|[Hin|[]]]]; vm_compute in Hin;
      discriminate Hin.
Defined.

(** The ref delta at offset 31 of the sample pack, with the index that
    gives 0 as the offset of its base. *)
Lemma readFromPack_missing_base_witness :
  @readFromPack storedZlib 2 samplePack zeroOffsetIdx 31 Inflater.new
  = Throw (UnsupportedType 80).
Proof.
  apply (@readFromPack_missing_base storedZlib 0 samplePack zeroOffsetIdx 31
           Inflater.new (byte_of_Z 116) [] (sampleHash 3)
           (bytes [3; 3; 144; 3])).
  - lia.
  - vm_compute. reflexivity.
  - vm_compute. reflexivity.
  - vm_compute. reflexivity.
  - reflexivity.
  - vm_compute. reflexivity.
  - vm_compute. reflexivity.
Defined.


(** ** Descriptors *)

Section TraceFacts.

Context `{Zlib}.

Lemma scan_trace_closes (fuel : nat) (fs : FileSystem) (oid : Buffer)
    (dir : list Dirent) :
  fst (getCommitFromPackFile_scan_trace fuel fs oid dir)
  = getCommitFromPackFile_scan fuel fs oid dir
  /\ (fst (getCommitFromPackFile_scan_trace fuel fs oid dir) <> OutOfFuel ->
      forall rest opened,
        closesInOrder
          (snd (getCommitFromPackFile_scan_trace fuel fs oid dir) ++ rest)
          opened
        = closesInOrder rest opened).
Proof.
  induction dir as [|d dir [IHr IHt]];
    cbn [getCommitFromPackFile_scan_trace getCommitFromPackFile_scan];
    [split; reflexivity|].
  destruct (isDirectory d || negb (endsWith (name d) ".idx"%string));
    [split; assumption|].
  destruct (openSync fs (name d)) as [indexFd|e|]; cbn [bind fst snd];
    [| split; [reflexivity|intros; reflexivity]
     | split; [reflexivity|congruence] ].
  destruct (searchGitIndex indexFd oid) as [[offset|]|e|];
    cbn [bind fst snd].
  - destruct (openSync fs (replaceIdxSuffix (name d))) as [packFd|e|];
      cbn [bind fst snd].
    + destruct (readFromPack fuel packFd indexFd offset Inflater.new)
        as [[object inflater]|e|]; cbn [bind fst snd].
      * split; [reflexivity|]. intros _ rest opened.
        cbn [app closesInOrder]. rewrite !String.eqb_refl. reflexivity.
      * split; [reflexivity|]. intros _ rest opened.
        cbn [app closesInOrder]. rewrite !String.eqb_refl. reflexivity.
      * split; [reflexivity|congruence].
    + split; [reflexivity|]. intros _ rest opened.
      cbn [app closesInOrder]. rewrite String.eqb_refl. reflexivity.
    + split; [reflexivity|congruence].
  - destruct (getCommitFromPackFile_scan_trace fuel fs oid dir)
      as [r tr]. cbn [fst snd] in *.
    split; [exact IHr|]. intros Hr rest opened.
    cbn [app closesInOrder]. rewrite String.eqb_refl. cbn [andb].
    apply IHt, Hr.
  - split; [reflexivity|]. intros _ rest opened.
    cbn [app closesInOrder]. rewrite String.eqb_refl. reflexivity.
  - split; [reflexivity|congruence].
Qed.

(** [getCommitFromPackFile] leaves nothing open: whenever it returns, with
    an object or with [null], it has closed the directory, every file and
    the inflater it opened, each one after what was opened later.  The
    function with its calls recorded returns what the function itself
    returns. *)
Theorem getCommitFromPackFile_closes_what_it_opens
    (fuel : nat) (fs : FileSystem) (oid : Buffer) :
  fst (getCommitFromPackFile_trace fuel fs oid)
  = getCommitFromPackFile fuel fs oid
  /\ (getCommitFromPackFile fuel fs oid <> OutOfFuel ->
      closesInOrder (snd (getCommitFromPackFile_trace fuel fs oid)) []
      = true).
Proof.
  unfold getCommitFromPackFile_trace, getCommitFromPackFile.
  destruct (opendirSync fs) as [dir|e|]; cbn [bind fst snd];
    [| split; reflexivity | split; [reflexivity|congruence] ].
  destruct (scan_trace_closes fuel fs oid dir) as [Hr Ht].
  destruct (getCommitFromPackFile_scan_trace fuel fs oid dir) as [r tr].
  cbn [fst snd] in Hr, Ht. subst r.
  destruct (getCommitFromPackFile_scan fuel fs oid dir) as [v|e|];
    cbn [fst snd].
  - split; [reflexivity|]. intros _. cbn [closesInOrder].
    rewrite Ht by discriminate. reflexivity.
  - split; [reflexivity|]. intros _. cbn [closesInOrder].
    rewrite Ht by discriminate. reflexivity.
  - split; [reflexivity|congruence].
Qed.

End TraceFacts.

Lemma getCommitFromPackFile_closes_what_it_opens_witness :
  snd (@getCommitFromPackFile_trace storedZlib 10 goodOnly (sampleHash 0))
  = [OpenDir; OpenFile "good.idx"%string; OpenFile "good.pack"%string;
     NewInflater; CloseInflater; CloseFile "good.pack"%string;
     CloseFile "good.idx"%string; CloseDir]
  /\ closesInOrder
       (snd (@getCommitFromPackFile_trace storedZlib 10 goodOnly
               (sampleHash 0))) [] = true.
Proof.
  split; [vm_compute; reflexivity|].
  apply (@getCommitFromPackFile_closes_what_it_opens storedZlib 10 goodOnly
           (sampleHash 0)).
  vm_compute. discriminate.
Defined.
